(** * ssdp-forwarder: a shallow embedding of [main.go] and its properties

    The development follows the program text:
    - Part 1  Go strings, [strings.Split], [strings.TrimSpace], the
              [fmt.Sscanf("%d")] scanner, [parseCommaSeparated], [parsePorts];
    - Part 2  the flag handling of [main] (lines 69-121);
    - Part 3  [firstIPv4Addr] and [initializeConnections] over an abstract
              network library (state passing, fatal exits, event trace);
    - Part 4  one forwarding worker of [startForwarding] as a step function;
    - Part 5  the whole process: [main], the signal handler goroutine and the
              workers as an interleaving step function over schedules.
    Definitions come first, the theorems follow. *)

From Stdlib Require Import ZArith NArith String Ascii Lia Bool.
From stdpp Require Import base numbers option list.

Local Open Scope nat_scope.

(* ================================================================== *)
(** * Part 1. Strings and port parsing                                 *)
(* ================================================================== *)

(** A Go string is modelled as the sequence of its runes (code points), the
    unit on which [strings.TrimSpace] and the [fmt] scanner work.  A byte that
    is not part of a valid UTF-8 sequence decodes to U+FFFD in both, which is
    neither a space, a digit, a sign nor a comma. *)
Definition rune := N.
Definition gostring := list rune.

(** ASCII literals, for examples. *)
Definition runes (s : string) : gostring :=
  map N_of_ascii (list_ascii_of_string s).

Definition rune_comma : rune := 44%N.
Definition rune_LF : rune := 10%N.
Definition rune_CR : rune := 13%N.
Definition rune_plus : rune := 43%N.
Definition rune_minus : rune := 45%N.

(** [unicode.IsSpace], the White_Space property; [fmt]'s own [isSpace] table
    lists the same ranges. *)
Definition isSpace (r : rune) : bool :=
  ((0x09 <=? r) && (r <=? 0x0D) || (r =? 0x20) || (r =? 0x85) || (r =? 0xA0)
   || (r =? 0x1680) || (0x2000 <=? r) && (r <=? 0x200A)
   || (r =? 0x2028) || (r =? 0x2029) || (r =? 0x202F) || (r =? 0x205F)
   || (r =? 0x3000))%N.

Fixpoint TrimLeftSpace (s : gostring) : gostring :=
  match s with
  | [] => []
  | r :: s' => if isSpace r then TrimLeftSpace s' else s
  end.

(** [strings.TrimSpace]: leading and trailing white space removed. *)
Definition TrimSpace (s : gostring) : gostring :=
  rev (TrimLeftSpace (rev (TrimLeftSpace s))).

(** [strings.Split(s, ",")]: the pieces between separators; the empty string
    gives one empty piece. *)
Fixpoint Split (s : gostring) (sep : rune) : list gostring :=
  match s with
  | [] => [[]]
  | r :: s' =>
      if (r =? sep)%N then [] :: Split s' sep
      else match Split s' sep with
           | [] => [[r]]
           | piece :: pieces => (r :: piece) :: pieces
           end
  end.

(** main.go:145 [parseCommaSeparated]. *)
Fixpoint parseCommaSeparated_loop (parts : list gostring) (result : list gostring)
  : list gostring :=
  match parts with
  | [] => result
  | part :: parts' =>
      let trimmed := TrimSpace part in
      match trimmed with
      | [] => parseCommaSeparated_loop parts' result
      | _ :: _ => parseCommaSeparated_loop parts' (result ++ [trimmed])
      end
  end.

Definition parseCommaSeparated (input : gostring) : list gostring :=
  parseCommaSeparated_loop (Split input rune_comma) [].

(** ** The scanner behind [fmt.Sscanf(p, "%d", &port)] *)

Inductive ScanErr :=
| ErrEOF                 (* input exhausted where a token must start *)
| ErrUnexpectedNewline
| ErrExpectedInteger
| ErrRange               (* strconv.ParseInt: value out of range *)
| ErrOverflow.           (* integer overflow on token *)

(** [hugeWid]: the scanner stops reading after this many runes. *)
Definition hugeWid : N := (2 ^ 30)%N.

Fixpoint takeN (n : N) (s : gostring) : gostring :=
  match s with
  | [] => []
  | r :: s' => if (n =? 0)%N then [] else r :: takeN (N.pred n) s'
  end.

(** [ss.SkipSpace] with [nlIsSpace = false], as [Sscanf] sets it. *)
Fixpoint SkipSpace (s : gostring) : ScanErr + gostring :=
  match s with
  | [] => inr []
  | r :: s' =>
      if (r =? rune_CR)%N && (match s' with r' :: _ => (r' =? rune_LF)%N | [] => false end)
      then SkipSpace s'
      else if (r =? rune_LF)%N then inl ErrUnexpectedNewline
      else if isSpace r then SkipSpace s'
      else inr s
  end.

Definition isDigit (r : rune) : bool := ((48 <=? r) && (r <=? 57))%N.
Definition isSign (r : rune) : bool := ((r =? rune_plus) || (r =? rune_minus))%N.

(** The maximal run of decimal digits at the front (the loop of [accept]). *)
Fixpoint spanDigits (s : gostring) : gostring * gostring :=
  match s with
  | [] => ([], [])
  | r :: s' =>
      if isDigit r then let '(ds, rest) := spanDigits s' in (r :: ds, rest)
      else ([], s)
  end.

Definition decimal (ds : gostring) : Z :=
  fold_left (fun acc d => (10 * acc + (Z.of_N d - 48))%Z) ds 0%Z.

(** [strconv.ParseInt(tok, 10, 64)] on a token made of an optional sign and
    at least one digit. *)
Definition ParseInt64 (neg : bool) (ds : gostring) : ScanErr + Z :=
  let un := decimal ds in
  let cutoff := (2 ^ 63)%Z in
  if negb neg && (cutoff <=? un)%Z then inl ErrRange
  else if neg && (cutoff <? un)%Z then inl ErrRange
  else inr (if neg then (- un)%Z else un).

(** Size of Go's [int]; 32 on 32-bit targets, where values beyond it are
    reported as an overflow instead of being returned. *)
Definition intBits : Z := 64%Z.

(** [ss.scanInt('d', intBits)]. *)
Definition scanInt (s : gostring) : ScanErr + Z :=
  match SkipSpace s with
  | inl e => inl e
  | inr [] => inl ErrEOF                                   (* notEOF *)
  | inr (r :: s1) =>
      let '(neg, s2) :=
        if isSign r then ((r =? rune_minus)%N, s1) else (false, r :: s1) in
      match s2 with
      | [] => inl ErrEOF                                   (* scanNumber: notEOF *)
      | d :: _ =>
          if isDigit d then
            let '(ds, _) := spanDigits s2 in
            match ParseInt64 neg ds with
            | inl e => inl e
            | inr i =>
                if ((- 2 ^ (intBits - 1) <=? i) && (i <? 2 ^ (intBits - 1)))%Z
                then inr i else inl ErrOverflow
            end
          else inl ErrExpectedInteger
      end
  end.

(** [fmt.Sscanf(str, "%d", &port)]: white space is skipped, one integer is
    scanned, and whatever follows the integer is left unread. *)
Definition Sscanf_d (str : gostring) : ScanErr + Z :=
  match SkipSpace (takeN hugeWid str) with
  | inl e => inl e
  | inr s => scanInt s
  end.

Inductive PortErr :=
| InvalidPort (p : gostring) (e : ScanErr)     (* "invalid port %q: %v" *)
| PortOutOfRange (port : Z).                   (* "port %d out of valid range (1-65535)" *)

(** main.go:158 [parsePorts]. *)
Fixpoint parsePorts_loop (portStrs : list gostring) (ports : list Z)
  : PortErr + list Z :=
  match portStrs with
  | [] => inr ports
  | p :: rest =>
      match Sscanf_d p with
      | inl err => inl (InvalidPort p err)
      | inr port =>
          if ((port <=? 0) || (port >? 65535))%Z then inl (PortOutOfRange port)
          else parsePorts_loop rest (ports ++ [port])
      end
  end.

Definition parsePorts (portStrs : list gostring) : PortErr + list Z :=
  parsePorts_loop portStrs [].

(* ================================================================== *)
(** * Part 2. Command-line flags (main.go:69-121)                      *)
(* ================================================================== *)

(** The flag variables of main.go:25-31 after [flag.Parse]. *)
Record Flags := {
  ifacesFlag : gostring;       (* -i *)
  portsFlag : gostring;        (* -p *)
  groupsFlag : gostring;       (* -g *)
  destPortsFlag : gostring;    (* -d *)
  verboseFlag : bool           (* -v *)
}.

(** The fixed inputs of the core: what [main] passes to
    [initializeConnections] and [startForwarding]. *)
Record Config := {
  groups : list gostring;
  ifaces : list gostring;
  ports : list Z;
  destPorts : list Z;
  verbose : bool
}.

(** A Go [error] value: its text, whether it is a [*net.OpError], and what
    its [Timeout()] method answers. *)
Record error := {
  err_text : gostring;
  err_isOpError : bool;
  err_timeout : bool
}.

Definition IP := list N.                       (* net.IP: a byte slice *)

Record UDPAddr := { addr_IP : option IP; addr_Port : Z }.

Definition Conn := nat.                        (* a *net.UDPConn, by handle *)

Inductive Signal := SIGINT | SIGTERM.

(** One constructor per format string passed to [log.Fatalf], [log.Printf]
    and [log.Println], with the arguments in the order of the source. *)
Inductive LogMsg :=
| NoInterfacesSpecified                                    (* :82 *)
| NoPortsSpecified                                         (* :85 *)
| NoGroupsSpecified                                        (* :88 *)
| ErrorParsingPorts (err : PortErr)                        (* :99 *)
| ErrorParsingDestPorts (err : PortErr)                    (* :113 *)
| DestPortsMismatch (ndest nports : nat)                   (* :116 *)
| FailedToParseGroup (group : gostring)                    (* :194 *)
| CouldNotFindInterface (ifName : gostring) (err : error)  (* :200 *)
| CouldNotDetermineIPv4 (ifName : gostring) (err : error)  (* :205 *)
| FailedToListen (group : gostring) (port : Z) (ifName : gostring) (err : error)   (* :217 *)
| CouldNotCreateSender (group ifName localIP : gostring) (destPort : Z) (err : error) (* :233 *)
| Joined (group ifName : gostring) (port : Z) (localIP : gostring) (destPort : Z)  (* :240 *)
| GoroutineExiting (group ifName : gostring) (port : Z)    (* :268 *)
| ReadError (group ifName : gostring) (port : Z) (err : error)                     (* :280 *)
| ForwardError (group fromIface toIface : gostring) (destPort : Z) (err : error)   (* :296 *)
| Forwarded (n : Z) (src : UDPAddr) (fromIface toIface : gostring) (destPort : Z)  (* :299 *)
| Received (n : Z) (src : UDPAddr) (group ifName : gostring) (port : Z)            (* :305 *)
| ReceivedSignal (sig : Signal)                            (* :323 *)
| AllDone.                                                 (* :141 *)

Definition isEmpty (s : gostring) : bool :=
  match s with [] => true | _ :: _ => false end.

(** main.go:80-121: either the message of the [log.Fatalf] reached, or the
    lists handed to the core. *)
Definition parseFlags (f : Flags) : LogMsg + Config :=
  if isEmpty (ifacesFlag f) then inl NoInterfacesSpecified
  else if isEmpty (portsFlag f) then inl NoPortsSpecified
  else if isEmpty (groupsFlag f) then inl NoGroupsSpecified
  else
    let ifaceNames := parseCommaSeparated (ifacesFlag f) in
    let portStrs := parseCommaSeparated (portsFlag f) in
    let groupStrs := parseCommaSeparated (groupsFlag f) in
    match parsePorts portStrs with
    | inl err => inl (ErrorParsingPorts err)
    | inr ports =>
        let groupStrs := map TrimSpace groupStrs in
        if negb (isEmpty (destPortsFlag f)) then
          let destPortStrs := parseCommaSeparated (destPortsFlag f) in
          match parsePorts destPortStrs with
          | inl err => inl (ErrorParsingDestPorts err)
          | inr destPorts =>
              if negb (length destPorts =? length ports)
              then inl (DestPortsMismatch (length destPorts) (length ports))
              else inr {| groups := groupStrs; ifaces := ifaceNames; ports := ports;
                          destPorts := destPorts; verbose := verboseFlag f |}
          end
        else
          inr {| groups := groupStrs; ifaces := ifaceNames; ports := ports;
                 destPorts := ports; verbose := verboseFlag f |}
    end.

(* ================================================================== *)
(** * Part 3. Socket provisioning (main.go:33-56, 173-247)             *)
(* ================================================================== *)

Definition BufferLen : Z := 65535.             (* main.go:21 *)

Record Interface := { if_Index : Z; if_Name : gostring }.   (* net.Interface *)

(** What [ifi.Addrs()] lists: the two address types the switch of
    [firstIPv4Addr] knows (their [IP] field may be nil), and anything else. *)
Inductive Addr :=
| AddrIPNet (ip : option IP)
| AddrIPAddr (ip : option IP)
| AddrOther.

(** A worker, a socket pair: (group index, interface index, port index). *)
Definition Triple := (nat * nat * nat)%type.

Inductive ReadResult :=
| ReadOk (data : list N) (src : UDPAddr)       (* the datagram that arrived *)
| ReadErr (e : error).

(** Everything the process does to the outside, in the order it happens. *)
Inductive Event :=
| EvLog (m : LogMsg)
| EvListen (t : Triple) (ifi : Interface) (maddr : UDPAddr) (r : error + Conn)
| EvSetReadBuffer (c : Conn) (bytes : Z)
| EvDial (t : Triple) (laddr raddr : UDPAddr) (r : error + Conn)
| EvSetReadDeadline (t : Triple) (c : option Conn)
| EvRead (t : Triple) (c : option Conn) (r : ReadResult)
| EvWrite (t : Triple) (peer : nat) (c : option Conn) (packet : list N) (r : option error)
| EvDone (t : Triple)                          (* wg.Done() *)
| EvSignal (sig : Signal)                      (* sig := <-sigChan *)
| EvCancel                                     (* cancel() *)
| EvClose (c : Conn).

(** The package [net] and the operating system below it.  [W] is the state of
    the outside world; every call may read and change it. *)
Record NetLib (W : Type) := {
  ParseIP : gostring -> option IP;
  IP_String : IP -> gostring;
  InterfaceByName : gostring -> W -> (error + Interface) * W;
  Interface_Addrs : Interface -> W -> (error + list Addr) * W;
  ListenMulticastUDP : Interface -> UDPAddr -> W -> (error + Conn) * W;
  SetReadBuffer : Conn -> Z -> W -> W;
  DialUDP : UDPAddr -> UDPAddr -> W -> (error + Conn) * W
}.
Arguments ParseIP {W}.
Arguments IP_String {W}.
Arguments InterfaceByName {W}.
Arguments Interface_Addrs {W}.
Arguments ListenMulticastUDP {W}.
Arguments SetReadBuffer {W}.
Arguments DialUDP {W}.

(** [ip.To4()]. *)
Definition To4 (ip : IP) : option IP :=
  if length ip =? 4 then Some ip
  else if (length ip =? 16) && forallb (N.eqb 0) (take 10 ip)
          && forallb (N.eqb 255) (take 2 (drop 10 ip))
       then Some (drop 12 ip)
       else None.

(** The two registries [conns] and [senders] of main.go:124; a nil pointer is
    [None]. *)
Abbreviation Grid := (list (list (list (option Conn)))).

Record Registry := { conns : Grid; senders : Grid }.

Definition grid_get (gr : Grid) (t : Triple) : option (option Conn) :=
  let '(g, i, p) := t in
  row ← gr !! g; cell ← row !! i; cell !! p.

(** An indexed store [gr[g][i][p] = c]; out of range it panics ([None]). *)
Definition grid_set (gr : Grid) (t : Triple) (c : Conn) : option Grid :=
  let '(g, i, p) := t in
  row ← gr !! g; cell ← row !! i; _ ← cell !! p;
  Some (<[g := <[i := <[p := Some c]> cell]> row]> gr).

(** main.go:179-189: the nested [make]s, all entries nil. *)
Definition make_grid (numGroups numIfaces numPorts : nat) : Grid :=
  replicate numGroups (replicate numIfaces (replicate numPorts None)).

(** ** The startup monad: state, trace, and the ways a run can stop *)

Record Proc (W : Type) := { world : W; trace : list Event }.
Arguments world {W}.
Arguments trace {W}.
Arguments Build_Proc {W}.

Inductive Res (A : Type) :=
| Ret (a : A)
| Exit (status : Z)          (* os.Exit *)
| Panic.                     (* a run-time panic: index out of range *)
Arguments Ret {A}.
Arguments Exit {A}.
Arguments Panic {A}.

Definition M (W A : Type) : Type := Proc W -> Res A * Proc W.

Definition ret {W A} (a : A) : M W A := fun st => (Ret a, st).

Definition bind {W A B} (c : M W A) (k : A -> M W B) : M W B :=
  fun st =>
    match c st with
    | (Ret a, st') => k a st'
    | (Exit n, st') => (Exit n, st')
    | (Panic, st') => (Panic, st')
    end.

Notation "'let!' x ':=' c 'in' k" := (bind c (fun x => k))
  (at level 10, x name, c at level 100, k at level 200).

Definition emit {W} (e : Event) : M W unit :=
  fun st => (Ret tt, {| world := world st; trace := trace st ++ [e] |}).

Definition panic {W A} : M W A := fun st => (Panic, st).

Definition log_Printf {W} (m : LogMsg) : M W unit := emit (EvLog m).

(** [log.Fatalf]: the message is printed, then [os.Exit(1)]. *)
Definition log_Fatalf {W A} (m : LogMsg) : M W A :=
  fun st => (Exit 1, {| world := world st; trace := trace st ++ [EvLog m] |}).

(** A call into the library: the world moves, the answer is returned. *)
Definition call {W A} (f : W -> A * W) : M W A :=
  fun st => let '(a, w) := f (world st) in (Ret a, {| world := w; trace := trace st |}).

(** A Go [for idx, x := range xs] loop whose body updates an accumulator. *)
Fixpoint forRange {W A Acc} (body : nat -> A -> Acc -> M W Acc) (idx : nat) (xs : list A)
  (s : Acc) : M W Acc :=
  match xs with
  | [] => ret s
  | x :: xs' => let! s' := body idx x s in forRange body (S idx) xs' s'
  end.

Section Provisioning.
Context {W : Type} (net : NetLib W).

(** main.go:39-55, the loop of [firstIPv4Addr]. *)
Fixpoint firstIPv4Addr_loop (ifi : Interface) (addrs : list Addr) : error + gostring :=
  match addrs with
  | [] => inl {| err_text := runes "no IPv4 address found on interface " ++ if_Name ifi;
                 err_isOpError := false; err_timeout := false |}
  | addr :: rest =>
      let ip := match addr with
                | AddrIPNet ip => ip
                | AddrIPAddr ip => ip
                | AddrOther => None
                end in
      match ip with
      | None => firstIPv4Addr_loop ifi rest
      | Some ip' =>
          match To4 ip' with
          | Some ipv4 => inr (IP_String net ipv4)
          | None => firstIPv4Addr_loop ifi rest
          end
      end
  end.

(** main.go:34 [firstIPv4Addr]. *)
Definition firstIPv4Addr (ifi : Interface) : M W (error + gostring) :=
  let! r := call (Interface_Addrs net ifi) in
  match r with
  | inl err => ret (inl err)
  | inr addrs => ret (firstIPv4Addr_loop ifi addrs)
  end.

(** main.go:208-242, the body of the loop over ports. *)
Definition provision_port (destPorts : list Z) (g : nat) (group : gostring) (mcastIP : IP)
    (i : nat) (ifName : gostring) (ifi : Interface) (localIP : gostring)
    (p : nat) (port : Z) (reg : Registry) : M W Registry :=
  let maddr := {| addr_IP := Some mcastIP; addr_Port := port |} in
  let! r := call (ListenMulticastUDP net ifi maddr) in
  let! _ := emit (EvListen (g, i, p) ifi maddr r) in
  match r with
  | inl err => log_Fatalf (FailedToListen group port ifName err)
  | inr lconn =>
      let! _ := call (fun w => (tt, SetReadBuffer net lconn BufferLen w)) in
      let! _ := emit (EvSetReadBuffer lconn BufferLen) in
      match destPorts !! p with
      | None => panic
      | Some destPort =>
          let destAddr := {| addr_IP := Some mcastIP; addr_Port := destPort |} in
          let localAddr := {| addr_IP := ParseIP net localIP; addr_Port := 0 |} in
          let! r2 := call (DialUDP net localAddr destAddr) in
          let! _ := emit (EvDial (g, i, p) localAddr destAddr r2) in
          match r2 with
          | inl err => log_Fatalf (CouldNotCreateSender group ifName localIP destPort err)
          | inr senderConn =>
              match grid_set (conns reg) (g, i, p) lconn,
                    grid_set (senders reg) (g, i, p) senderConn with
              | Some conns', Some senders' =>
                  let! _ := log_Printf (Joined group ifName port localIP destPort) in
                  ret {| conns := conns'; senders := senders' |}
              | _, _ => panic
              end
          end
      end
  end.

(** main.go:197-243, the body of the loop over interfaces. *)
Definition provision_iface (ports destPorts : list Z) (g : nat) (group : gostring)
    (mcastIP : IP) (i : nat) (ifName : gostring) (reg : Registry) : M W Registry :=
  let! r := call (InterfaceByName net ifName) in
  match r with
  | inl err => log_Fatalf (CouldNotFindInterface ifName err)
  | inr ifi =>
      let! r2 := firstIPv4Addr ifi in
      match r2 with
      | inl err => log_Fatalf (CouldNotDetermineIPv4 ifName err)
      | inr localIP =>
          forRange (provision_port destPorts g group mcastIP i ifName ifi localIP) 0 ports reg
      end
  end.

(** main.go:191-244, the body of the loop over groups. *)
Definition provision_group (ifaces : list gostring) (ports destPorts : list Z)
    (g : nat) (group : gostring) (reg : Registry) : M W Registry :=
  match ParseIP net group with
  | None => log_Fatalf (FailedToParseGroup group)
  | Some mcastIP => forRange (provision_iface ports destPorts g group mcastIP) 0 ifaces reg
  end.

(** main.go:174 [initializeConnections]. *)
Definition initializeConnections (groups ifaces : list gostring) (ports destPorts : list Z)
  : M W Registry :=
  let numGroups := length groups in
  let numIfaces := length ifaces in
  let numPorts := length ports in
  let reg := {| conns := make_grid numGroups numIfaces numPorts;
                senders := make_grid numGroups numIfaces numPorts |} in
  forRange (provision_group ifaces ports destPorts) 0 groups reg.

(** main.go:69-125: flags, then provisioning. *)
Definition main_startup (f : Flags) : M W (Config * Registry) :=
  match parseFlags f with
  | inl msg => log_Fatalf msg
  | inr cfg =>
      let! reg := initializeConnections (groups cfg) (ifaces cfg) (ports cfg) (destPorts cfg) in
      ret (cfg, reg)
  end.

End Provisioning.

(* ================================================================== *)
(** * Part 4. One forwarding worker (main.go:255-310)                  *)
(* ================================================================== *)

(** Where a worker goroutine stands in its body. *)
Inductive WPC :=
| WStart                     (* created; locals of lines 257-262 not yet set *)
| WSelect                    (* at the [select] of line 265 *)
| WSetDeadline               (* about to call SetReadDeadline, line 273 *)
| WRead                      (* about to call ReadFromUDP, line 274 *)
| WFanout (n : Z) (src : UDPAddr) (packet : list N) (otherIfIdx : nat)
                             (* in the loop of line 289, before this index *)
| WReturn                    (* [return] reached, the deferred wg.Done() pending *)
| WDone                      (* goroutine finished *)
| WPanicked.                 (* a run-time panic was raised *)

(** The goroutine's arguments and local variables. *)
Record Worker := {
  w_triple : Triple;         (* gIdx, iIdx, pIdx *)
  w_pc : WPC;
  w_buf : list N;            (* buf *)
  w_lconn : option Conn;     (* lconn *)
  w_group : gostring;        (* group *)
  w_port : Z;                (* port *)
  w_ifaceName : gostring     (* ifaceName *)
}.

Definition new_worker (t : Triple) : Worker :=
  {| w_triple := t; w_pc := WStart; w_buf := []; w_lconn := None;
     w_group := []; w_port := 0; w_ifaceName := [] |}.

Definition at_pc (w : Worker) (pc : WPC) : Worker :=
  {| w_triple := w_triple w; w_pc := pc; w_buf := w_buf w; w_lconn := w_lconn w;
     w_group := w_group w; w_port := w_port w; w_ifaceName := w_ifaceName w |}.

(** What the outside answers when the worker's next step is a system call;
    a step uses the field that belongs to its call. *)
Record Answer := { ans_read : ReadResult; ans_write : option error }.

(** [syscall.EINVAL], an error of the operating system that is no timeout. *)
Definition EINVAL : error :=
  {| err_text := runes "invalid argument"; err_isOpError := false; err_timeout := false |}.

(** [ReadFromUDP(buf)] delivering [data]: the first [n] bytes of the buffer
    are overwritten, a datagram longer than the buffer is cut. *)
Definition read_into (buf data : list N) : nat * list N :=
  let n := Nat.min (length data) (length buf) in
  (n, take n data ++ drop n buf).

Section Worker.
Context (cfg : Config) (reg : Registry).

(** One step of the worker; the events it causes, in order.  The log line
    that follows a call is part of the step of that call. *)
Definition wstep (cancelled : bool) (a : Answer) (w : Worker) : Worker * list Event :=
  let '(gIdx, iIdx, pIdx) := w_triple w in
  match w_pc w with
  | WStart =>
      (* lines 257-262 *)
      match grid_get (conns reg) (gIdx, iIdx, pIdx),
            groups cfg !! gIdx, ports cfg !! pIdx, ifaces cfg !! iIdx with
      | Some lconn, Some group, Some port, Some ifaceName =>
          ({| w_triple := w_triple w; w_pc := WSelect;
              w_buf := replicate (Z.to_nat BufferLen) 0%N;
              w_lconn := lconn; w_group := group; w_port := port;
              w_ifaceName := ifaceName |}, [])
      | _, _, _, _ => (at_pc w WPanicked, [])
      end
  | WSelect =>
      (* lines 265-271 *)
      if cancelled then
        (at_pc w WReturn,
         if verbose cfg
         then [EvLog (GoroutineExiting (w_group w) (w_ifaceName w) (w_port w))]
         else [])
      else (at_pc w WSetDeadline, [])
  | WSetDeadline =>
      (* line 273; the result is not looked at; a method called through a nil
         [*net.UDPConn] dereferences it *)
      match w_lconn w with
      | None => (at_pc w WPanicked, [])
      | Some _ => (at_pc w WRead, [EvSetReadDeadline (w_triple w) (w_lconn w)])
      end
  | WRead =>
      (* lines 274-286 *)
      match w_lconn w with
      | None => (at_pc w WPanicked, [])
      | Some _ =>
      let r := ans_read a in
      match r with
      | ReadErr err =>
          if err_isOpError err && err_timeout err
          then (at_pc w WSelect, [EvRead (w_triple w) (w_lconn w) r])
          else (at_pc w WReturn,
                [EvRead (w_triple w) (w_lconn w) r;
                 EvLog (ReadError (w_group w) (w_ifaceName w) (w_port w) err)])
      | ReadOk data src =>
          let '(n, buf') := read_into (w_buf w) data in
          let packet := take n buf' in
          ({| w_triple := w_triple w; w_pc := WFanout (Z.of_nat n) src packet 0;
              w_buf := buf'; w_lconn := w_lconn w; w_group := w_group w;
              w_port := w_port w; w_ifaceName := w_ifaceName w |},
           [EvRead (w_triple w) (w_lconn w) r])
      end
      end
  | WFanout n src packet otherIfIdx =>
      (* lines 289-307 *)
      if otherIfIdx <? length (ifaces cfg) then
        if otherIfIdx =? iIdx then (at_pc w (WFanout n src packet (S otherIfIdx)), [])
        else
          match grid_get (senders reg) (gIdx, otherIfIdx, pIdx) with
          | None | Some None => (at_pc w WPanicked, [])   (* line 293, line 294 *)
          | Some senderConn =>
              let werr := ans_write a in
              let write := EvWrite (w_triple w) otherIfIdx senderConn packet werr in
              let next := at_pc w (WFanout n src packet (S otherIfIdx)) in
              match werr with
              | Some err =>
                  match ifaces cfg !! iIdx, ifaces cfg !! otherIfIdx, destPorts cfg !! pIdx with
                  | Some from, Some to, Some destPort =>
                      (next, [write; EvLog (ForwardError (w_group w) from to destPort err)])
                  | _, _, _ => (at_pc w WPanicked, [write])
                  end
              | None =>
                  if verbose cfg then
                    match ifaces cfg !! iIdx, ifaces cfg !! otherIfIdx, destPorts cfg !! pIdx with
                    | Some from, Some to, Some destPort =>
                        (next, [write; EvLog (Forwarded n src from to destPort)])
                    | _, _, _ => (at_pc w WPanicked, [write])
                    end
                  else (next, [write])
              end
          end
      else
        (at_pc w WSelect,
         if verbose cfg
         then [EvLog (Received n src (w_group w) (w_ifaceName w) (w_port w))]
         else [])
  | WReturn => (at_pc w WDone, [EvDone (w_triple w)])
  | WDone => (w, [])
  | WPanicked => (w, [])
  end.

(** The worker on its own: for each step, what it would see of the
    cancellation and what the outside answers. *)
Fixpoint wrun (inputs : list (bool * Answer)) (w : Worker) : Worker * list Event :=
  match inputs with
  | [] => (w, [])
  | (cancelled, a) :: rest =>
      let '(w1, evs1) := wstep cancelled a w in
      let '(w2, evs2) := wrun rest w1 in
      (w2, evs1 ++ evs2)
  end.

End Worker.

(* ================================================================== *)
(** * Part 5. The process after provisioning (main.go:127-141, 250-342) *)
(* ================================================================== *)

(** The iteration space of the three nested [range] loops. *)
Definition triples (numGroups numIfaces numPorts : nat) : list Triple :=
  g ← seq 0 numGroups; i ← seq 0 numIfaces; p ← seq 0 numPorts; [(g, i, p)].

Definition cfg_triples (cfg : Config) : list Triple :=
  triples (length (groups cfg)) (length (ifaces cfg)) (length (ports cfg)).

(** The index space of a grid, as [closeConnections] ranges over it. *)
Definition grid_cells (gr : Grid) : list (Triple * option Conn) :=
  mjoin (imap (fun g row =>
    mjoin (imap (fun i cell =>
      imap (fun p c => ((g, i, p), c)) cell) row)) gr).

Inductive CloseOp :=
| DoClose (c : Conn)
| DoPanic.                   (* senders[g][i][p] out of range *)

(** main.go:329 [closeConnections]: the calls it makes, in order. *)
Definition closeConnections (reg : Registry) : list CloseOp :=
  '(t, lc) ← grid_cells (conns reg);
  (match lc with Some c => [DoClose c] | None => [] end) ++
  (match grid_get (senders reg) t with
   | None => [DoPanic]
   | Some None => []
   | Some (Some c) => [DoClose c]
   end).

(** Where the main goroutine stands after [initializeConnections]. *)
Inductive MainPC :=
| MSpawnAdd (todo : list Triple)     (* startForwarding: before wg.Add(1) *)
| MSpawnGo (t : Triple) (todo : list Triple)   (* before the [go] statement *)
| MHandleShutdown                    (* line 133 *)
| MWait                              (* line 136, wg.Wait() *)
| MClose (todo : list CloseOp)       (* line 139, inside closeConnections; with
                                        nothing left to close, line 141 is next *)
| MAllDone                           (* line 142: the line is printed, [main]
                                        is about to return *)
| MReturned.                         (* [main] has returned, the process is over *)

(** The goroutine of [handleShutdown], lines 321-325. *)
Inductive HState :=
| HNone                              (* not created *)
| HWaiting                           (* blocked in <-sigChan *)
| HLog (sig : Signal)                (* signal received, line 323 next *)
| HCancel                            (* line 324 next *)
| HDone.

Inductive Status := Running | Exited (code : Z) | Crashed.

Record Sys := {
  status : Status;
  mainpc : MainPC;
  handler : HState;
  workers : list Worker;             (* in the order of creation *)
  cancelled : bool;                  (* ctx.Done() is closed *)
  wg : Z;                            (* the WaitGroup counter *)
  sys_trace : list Event
}.

(** Who moves next, and what the outside answers. *)
Inductive Action :=
| AMain
| AHandler (sig : Signal)            (* the signal delivered, if it is waiting *)
| AWorker (k : nat) (a : Answer).

Definition is_finished (pc : WPC) : bool :=
  match pc with WDone | WPanicked => true | _ => false end.

Section Process.
Context (cfg : Config) (reg : Registry).

Definition main_step (s : Sys) : option Sys :=
  match mainpc s with
  | MSpawnAdd [] =>
      Some {| status := status s; mainpc := MHandleShutdown; handler := handler s;
              workers := workers s; cancelled := cancelled s; wg := wg s;
              sys_trace := sys_trace s |}
  | MSpawnAdd (t :: todo) =>
      Some {| status := status s; mainpc := MSpawnGo t todo; handler := handler s;
              workers := workers s; cancelled := cancelled s; wg := (wg s + 1)%Z;
              sys_trace := sys_trace s |}
  | MSpawnGo t todo =>
      Some {| status := status s; mainpc := MSpawnAdd todo; handler := handler s;
              workers := workers s ++ [new_worker t]; cancelled := cancelled s;
              wg := wg s; sys_trace := sys_trace s |}
  | MHandleShutdown =>
      Some {| status := status s; mainpc := MWait; handler := HWaiting;
              workers := workers s; cancelled := cancelled s; wg := wg s;
              sys_trace := sys_trace s |}
  | MWait =>
      if (wg s =? 0)%Z then
        Some {| status := status s; mainpc := MClose (closeConnections reg);
                handler := handler s; workers := workers s; cancelled := cancelled s;
                wg := wg s; sys_trace := sys_trace s |}
      else None
  | MClose [] =>
      Some {| status := status s; mainpc := MAllDone; handler := handler s;
              workers := workers s; cancelled := cancelled s; wg := wg s;
              sys_trace := sys_trace s ++ [EvLog AllDone] |}
  | MClose (DoClose c :: todo) =>
      Some {| status := status s; mainpc := MClose todo; handler := handler s;
              workers := workers s; cancelled := cancelled s; wg := wg s;
              sys_trace := sys_trace s ++ [EvClose c] |}
  | MClose (DoPanic :: todo) =>
      Some {| status := Crashed; mainpc := MClose todo; handler := handler s;
              workers := workers s; cancelled := cancelled s; wg := wg s;
              sys_trace := sys_trace s |}
  | MAllDone =>
      Some {| status := Exited 0; mainpc := MReturned; handler := handler s;
              workers := workers s; cancelled := cancelled s; wg := wg s;
              sys_trace := sys_trace s |}
  | MReturned => None
  end.

Definition handler_step (sig : Signal) (s : Sys) : option Sys :=
  match handler s with
  | HNone => None
  | HWaiting =>
      Some {| status := status s; mainpc := mainpc s; handler := HLog sig;
              workers := workers s; cancelled := cancelled s; wg := wg s;
              sys_trace := sys_trace s ++ [EvSignal sig] |}
  | HLog sig' =>
      Some {| status := status s; mainpc := mainpc s; handler := HCancel;
              workers := workers s; cancelled := cancelled s; wg := wg s;
              sys_trace := sys_trace s ++ [EvLog (ReceivedSignal sig')] |}
  | HCancel =>
      Some {| status := status s; mainpc := mainpc s; handler := HDone;
              workers := workers s; cancelled := true; wg := wg s;
              sys_trace := sys_trace s ++ [EvCancel] |}
  | HDone => None
  end.

Definition worker_step (k : nat) (a : Answer) (s : Sys) : option Sys :=
  match workers s !! k with
  | None => None
  | Some w =>
      if is_finished (w_pc w) then None
      else
        let '(w', evs) := wstep cfg reg (cancelled s) a w in
        let wg' := match w_pc w with WReturn => (wg s - 1)%Z | _ => wg s end in
        let crashed := match w_pc w' with WPanicked => true | _ => (wg' <? 0)%Z end in
        Some {| status := if crashed then Crashed else status s;
                mainpc := mainpc s; handler := handler s;
                workers := <[k := w']> (workers s); cancelled := cancelled s;
                wg := wg'; sys_trace := sys_trace s ++ evs |}
  end.

(** One step of the process; [None] when the chosen goroutine cannot move
    (it is blocked, finished, or the process is over). *)
Definition step (a : Action) (s : Sys) : option Sys :=
  match status s with
  | Running =>
      match a with
      | AMain => main_step s
      | AHandler sig => handler_step sig s
      | AWorker k ans => worker_step k ans s
      end
  | _ => None
  end.

Fixpoint run (sched : list Action) (s : Sys) : option Sys :=
  match sched with
  | [] => Some s
  | a :: sched' =>
      match step a s with
      | Some s' => run sched' s'
      | None => None
      end
  end.

End Process.

(** The state in which [main] reaches line 127. *)
Definition init_sys (cfg : Config) (tr : list Event) : Sys :=
  {| status := Running; mainpc := MSpawnAdd (cfg_triples cfg); handler := HNone;
     workers := []; cancelled := false; wg := 0; sys_trace := tr |}.

(** The state of a process that stopped during startup. *)
Definition halted (st : Status) (tr : list Event) : Sys :=
  {| status := st; mainpc := MReturned; handler := HNone; workers := [];
     cancelled := false; wg := 0; sys_trace := tr |}.

Definition empty_config : Config :=
  {| groups := []; ifaces := []; ports := []; destPorts := []; verbose := false |}.

Definition empty_registry : Registry := {| conns := []; senders := [] |}.

(** The whole of [main]: startup from the world [w], then the schedule. *)
Definition process {W} (net : NetLib W) (f : Flags) (w : W) (sched : list Action)
  : option Sys :=
  match main_startup net f {| world := w; trace := [] |} with
  | (Ret (cfg, reg), st) => run cfg reg sched (init_sys cfg (trace st))
  | (Exit n, st) => run empty_config empty_registry sched (halted (Exited n) (trace st))
  | (Panic, st) => run empty_config empty_registry sched (halted Crashed (trace st))
  end.


Definition valid_port (port : Z) : Prop := (1 <= port <= 65535)%Z.


(* ================================================================== *)
(** * Vocabulary of the statements                                     *)
(* ================================================================== *)

Inductive SockKind := KListen | KDial.

(** A socket that was opened: which call, for which triple, the handle. *)
Definition creation (e : Event) : option (SockKind * Triple * Conn) :=
  match e with
  | EvListen t _ _ (inr c) => Some (KListen, t, c)
  | EvDial t _ _ (inr c) => Some (KDial, t, c)
  | _ => None
  end.

Definition created (tr : list Event) : list (SockKind * Triple * Conn) :=
  omap creation tr.

Definition failed_creation (e : Event) : bool :=
  match e with
  | EvListen _ _ _ (inl _) | EvDial _ _ _ (inl _) => true
  | _ => false
  end.

Definition clean (tr : list Event) : Prop :=
  Forall (fun e => failed_creation e = false) tr.

Definition pairs_of (ts : list Triple) : list (SockKind * Triple) :=
  t ← ts; [(KListen, t); (KDial, t)].

Definition reg_get (k : SockKind) (reg : Registry) (t : Triple) : option (option Conn) :=
  grid_get (match k with KListen => conns reg | KDial => senders reg end) t.

Definition grid_dims (gr : Grid) (G I P : nat) : Prop :=
  length gr = G /\
  forall g row, gr !! g = Some row ->
    length row = I /\ forall i cell, row !! i = Some cell -> length cell = P.

(** The fatal message [m] is the report of the failed call [e]: it names the
    group, the interface and the port of the socket that could not be made
    (the listen port for a listener, the destination port for a sender), and
    carries the error of the call. *)
Definition reports (cfg : Config) (e : Event) (m : LogMsg) : Prop :=
  match e, m with
  | EvListen (g, i, p) _ maddr (inl err), FailedToListen group port ifName err' =>
      groups cfg !! g = Some group /\ ifaces cfg !! i = Some ifName /\
      ports cfg !! p = Some port /\ addr_Port maddr = port /\ err' = err
  | EvDial (g, i, p) _ raddr (inl err), CouldNotCreateSender group ifName _ destPort err' =>
      groups cfg !! g = Some group /\ ifaces cfg !! i = Some ifName /\
      destPorts cfg !! p = Some destPort /\ addr_Port raddr = destPort /\ err' = err
  | _, _ => False
  end.

(** The reading of the specification: the fatal message [m] names the triple
    of the failed call [e], that is its group, its interface and its port
    [ports[p]], and carries the error of the call. *)
Definition reports_triple (cfg : Config) (e : Event) (m : LogMsg) : Prop :=
  match e, m with
  | EvListen (g, i, p) _ _ (inl err), FailedToListen group port ifName err' =>
      groups cfg !! g = Some group /\ ifaces cfg !! i = Some ifName /\
      ports cfg !! p = Some port /\ err' = err
  | EvDial (g, i, p) _ _ (inl err), CouldNotCreateSender group ifName _ port err' =>
      groups cfg !! g = Some group /\ ifaces cfg !! i = Some ifName /\
      ports cfg !! p = Some port /\ err' = err
  | _, _ => False
  end.

(** The fatal messages of name and address resolution. *)
Definition resolution_error (cfg : Config) (m : LogMsg) : Prop :=
  match m with
  | FailedToParseGroup group => group ∈ groups cfg
  | CouldNotFindInterface ifName _ => ifName ∈ ifaces cfg
  | CouldNotDetermineIPv4 ifName _ => ifName ∈ ifaces cfg
  | _ => False
  end.

(** The fatal messages of flag validation. *)
Definition config_error (m : LogMsg) : Prop :=
  match m with
  | NoInterfacesSpecified | NoPortsSpecified | NoGroupsSpecified
  | ErrorParsingPorts _ | ErrorParsingDestPorts _ | DestPortsMismatch _ _ => True
  | _ => False
  end.

(** What holds between two iterations of the provisioning loops, [done]
    being the triples already served: nothing failed, one listener and one
    sender were opened per served triple, and they sit in the registries. *)
Definition prov_inv {W} (cfg : Config) (tr0 : list Event) (done : list Triple)
    (reg : Registry) (st : Proc W) : Prop :=
  grid_dims (conns reg) (length (groups cfg)) (length (ifaces cfg)) (length (ports cfg)) /\
  grid_dims (senders reg) (length (groups cfg)) (length (ifaces cfg)) (length (ports cfg)) /\
  exists delta,
    trace st = tr0 ++ delta /\ clean delta /\
    (created delta).*1 = pairs_of done /\
    forall k t c, (k, t, c) ∈ created delta -> reg_get k reg t = Some (Some c).

(** How provisioning stops: exit status 1, the trace ending in the fatal
    message, which either is a resolution error or follows the one failed
    socket call it reports. *)
Definition prov_fatal {W A} (cfg : Config) (tr0 : list Event)
    (r : Res A) (st : Proc W) : Prop :=
  r = Exit 1 /\
  exists pre tail m,
    trace st = tr0 ++ pre ++ tail ++ [EvLog m] /\ clean pre /\
    ((tail = [] /\ resolution_error cfg m) \/
     (exists e, tail = [e] /\ failed_creation e = true /\ reports cfg e m)).

(** The lists handed to the core agree in length, as [main] ensures. *)
Definition wf_config (cfg : Config) : Prop :=
  length (destPorts cfg) = length (ports cfg).

(** The registries as [initializeConnections] returns them: of the size of
    the Cartesian product, a listener and a sender in every place. *)
Definition registry_ok (cfg : Config) (reg : Registry) : Prop :=
  grid_dims (conns reg) (length (groups cfg)) (length (ifaces cfg)) (length (ports cfg)) /\
  grid_dims (senders reg) (length (groups cfg)) (length (ifaces cfg)) (length (ports cfg)) /\
  forall t, t ∈ cfg_triples cfg ->
    exists lc sc, grid_get (conns reg) t = Some (Some lc) /\
                  grid_get (senders reg) t = Some (Some sc).

(** The locals of a worker that has passed lines 257-262. *)
Definition worker_inv (cfg : Config) (reg : Registry) (w : Worker) : Prop :=
  w_triple w ∈ cfg_triples cfg /\
  match w_pc w with
  | WStart | WPanicked => True
  | _ =>
      let '(g, i, p) := w_triple w in
      grid_get (conns reg) (g, i, p) = Some (w_lconn w) /\
      groups cfg !! g = Some (w_group w) /\
      ports cfg !! p = Some (w_port w) /\
      ifaces cfg !! i = Some (w_ifaceName w) /\
      length (w_buf w) = Z.to_nat BufferLen
  end.

(** The writes among some events: by whom, to which peer interface, on
    which socket, what payload. *)
Definition write_of (e : Event) : option (Triple * nat * option Conn * list N) :=
  match e with
  | EvWrite t j c packet _ => Some (t, j, c, packet)
  | _ => None
  end.

Definition writes (evs : list Event) : list (Triple * nat * option Conn * list N) :=
  omap write_of evs.

(** The interface indices other than [i], in the order of the loop. *)
Definition peers (cfg : Config) (i : nat) : list nat :=
  filter (fun j => j <> i) (seq 0 (length (ifaces cfg))).

Definition sender_at (reg : Registry) (g j p : nat) : option Conn :=
  default None (grid_get (senders reg) (g, j, p)).

(** The log line that follows a write (main.go:295-301). *)
Definition forward_log (cfg : Config) (group from to : gostring) (destPort : Z)
    (n : Z) (src : UDPAddr) (werr : option error) : list Event :=
  match werr with
  | Some err => [EvLog (ForwardError group from to destPort err)]
  | None => if verbose cfg then [EvLog (Forwarded n src from to destPort)] else []
  end.

(** ** Vocabulary for the running process *)

Definition is_done (pc : WPC) : bool :=
  match pc with WDone => true | _ => false end.

(** Workers that have not yet called [wg.Done()]. *)
Fixpoint live_count (ws : list Worker) : nat :=
  match ws with
  | [] => 0
  | w :: ws' => (if is_done (w_pc w) then 0 else 1) + live_count ws'
  end.

Definition after_wait (pc : MainPC) : bool :=
  match pc with MClose _ | MAllDone | MReturned => true | _ => false end.

(** Events of provisioning that succeeds. *)
Definition is_startup_event (e : Event) : bool :=
  match e with
  | EvListen _ _ _ _ | EvSetReadBuffer _ _ | EvDial _ _ _ _ | EvLog (Joined _ _ _ _ _) => true
  | _ => false
  end.

(** What a worker does to a socket. *)
Definition is_socket_op (e : Event) : bool :=
  match e with
  | EvSetReadDeadline _ _ | EvRead _ _ _ | EvWrite _ _ _ _ _ => true
  | _ => false
  end.

(** What only a worker does. *)
Definition is_worker_event (e : Event) : bool :=
  match e with
  | EvSetReadDeadline _ _ | EvRead _ _ _ | EvWrite _ _ _ _ _ | EvDone _ => true
  | _ => false
  end.

(** What a step of the worker [t] can put into the trace. *)
Definition is_worker_output (t : Triple) (e : Event) : Prop :=
  match e with
  | EvSetReadDeadline t' _ | EvRead t' _ _ | EvWrite t' _ _ _ _ | EvDone t' => t' = t
  | EvLog (GoroutineExiting _ _ _) | EvLog (ReadError _ _ _ _)
  | EvLog (ForwardError _ _ _ _ _) | EvLog (Forwarded _ _ _ _ _)
  | EvLog (Received _ _ _ _ _) => True
  | _ => False
  end.

(** An upper bound on the steps a worker still takes once the context is
    cancelled. *)
Definition wfuel (numIfaces : nat) (pc : WPC) : nat :=
  match pc with
  | WDone | WPanicked => 0
  | WReturn => 1
  | WSelect => 2
  | WStart => 3
  | WFanout _ _ _ j => 3 + (numIfaces - j)
  | WRead => 4 + numIfaces
  | WSetDeadline => 5 + numIfaces
  end.

Definition mfuel (plan : nat) (pc : MainPC) : nat :=
  match pc with
  | MSpawnAdd todo => plan + 5 + 2 * length todo
  | MSpawnGo _ todo => plan + 6 + 2 * length todo
  | MHandleShutdown => plan + 4
  | MWait => plan + 3
  | MClose todo => length todo + 2
  | MAllDone => 1
  | MReturned => 0
  end.

(** An upper bound on the steps the process still takes once the context
    is cancelled. *)
Fixpoint workers_fuel (numIfaces : nat) (ws : list Worker) : nat :=
  match ws with
  | [] => 0
  | w :: ws' => wfuel numIfaces (w_pc w) + workers_fuel numIfaces ws'
  end.

Definition fuel (cfg : Config) (reg : Registry) (s : Sys) : nat :=
  mfuel (length (closeConnections reg)) (mainpc s) +
  workers_fuel (length (ifaces cfg)) (workers s).

(** What holds of the state of the running process. *)
Definition state_inv (cfg : Config) (reg : Registry) (s : Sys) : Prop :=
  match mainpc s with
  | MSpawnAdd todo =>
      (w_triple <$> workers s) ++ todo = cfg_triples cfg /\ handler s = HNone
  | MSpawnGo t todo =>
      (w_triple <$> workers s) ++ t :: todo = cfg_triples cfg /\ handler s = HNone
  | MHandleShutdown =>
      w_triple <$> workers s = cfg_triples cfg /\ handler s = HNone
  | MWait =>
      w_triple <$> workers s = cfg_triples cfg /\ handler s <> HNone
  | MClose todo =>
      w_triple <$> workers s = cfg_triples cfg /\ handler s <> HNone /\
      live_count (workers s) = 0 /\
      exists closed, closeConnections reg = closed ++ todo
  | MAllDone | MReturned =>
      w_triple <$> workers s = cfg_triples cfg /\ handler s <> HNone /\
      live_count (workers s) = 0
  end /\
  wg s = (Z.of_nat (live_count (workers s)) +
          match mainpc s with MSpawnGo _ _ => 1 | _ => 0 end)%Z /\
  Forall (fun w => worker_inv cfg reg w /\ w_pc w <> WPanicked) (workers s) /\
  (cancelled s = true <-> handler s = HDone) /\
  status s = match mainpc s with MReturned => Exited 0 | _ => Running end.

(* ================================================================== *)
(** * A small world for examples                                       *)
(* ================================================================== *)

Definition toy_error (text : string) : error :=
  {| err_text := runes text; err_isOpError := true; err_timeout := false |}.

(** Handles are handed out in order; listening on [badListen] and dialling
    to [badDial] fail; the interface "nope" does not exist; "not-an-ip" does
    not parse. *)
Definition toy_net (badListen badDial : Z) : NetLib nat := {|
  ParseIP := fun s =>
    if bool_decide (s = runes "not-an-ip") then None
    else if bool_decide (s = runes "10.0.0.1") then Some [10; 0; 0; 1]%N
    else Some [239; 255; 255; 250]%N;
  IP_String := fun _ => runes "10.0.0.1";
  InterfaceByName := fun name w =>
    if bool_decide (name = runes "nope") then (inl (toy_error "no such interface"), w)
    else (inr {| if_Index := 1; if_Name := name |}, w);
  Interface_Addrs := fun _ w => (inr [AddrOther; AddrIPNet (Some [10; 0; 0; 1]%N)], w);
  ListenMulticastUDP := fun _ maddr w =>
    if (addr_Port maddr =? badListen)%Z then (inl (toy_error "address in use"), w)
    else (inr w, S w);
  SetReadBuffer := fun _ _ w => w;
  DialUDP := fun _ raddr w =>
    if (addr_Port raddr =? badDial)%Z then (inl (toy_error "network unreachable"), w)
    else (inr w, S w)
|}.

Definition toy_flags (i p g d : string) : Flags :=
  {| ifacesFlag := runes i; portsFlag := runes p; groupsFlag := runes g;
     destPortsFlag := runes d; verboseFlag := false |}.

(** Flags and worlds used as concrete inputs. *)
Definition flags_two_ifaces : Flags :=
  toy_flags "eth0,eth1" "1900,1990" "239.255.255.250" "".

Definition flags_dest_ports : Flags :=
  toy_flags "eth0,eth1" "1900" "239.255.255.250" "2021".

Definition flags_mismatch : Flags :=
  toy_flags "eth0,eth1" "1900,1990" "239.255.255.250" "2021".



Definition toy_start : Proc nat := {| world := 0; trace := [] |}.

(** A run of the startup code in which the sender of the first triple cannot
    be opened. *)
Definition failing_startup : Res (Config * Registry) * Proc nat :=
  main_startup (toy_net 0 2021) flags_dest_ports toy_start.

Definition failing_call : Event :=
  default EvCancel (trace failing_startup.2 !! 2).

(** The configuration [main] derives from [flags_dest_ports], and the fatal
    message of [failing_startup]. *)
Definition config_dest_ports : Config :=
  {| groups := [runes "239.255.255.250"]; ifaces := [runes "eth0"; runes "eth1"];
     ports := [1900%Z]; destPorts := [2021%Z]; verbose := false |}.

Definition failing_message : LogMsg :=
  CouldNotCreateSender (runes "239.255.255.250") (runes "eth0") (runes "10.0.0.1") 2021
    (toy_error "network unreachable").

(** The configuration [main] derives from [flags_two_ifaces]. *)
Definition config_two_ifaces : Config :=
  {| groups := [runes "239.255.255.250"]; ifaces := [runes "eth0"; runes "eth1"];
     ports := [1900; 1990]%Z; destPorts := [1900; 1990]%Z; verbose := false |}.

(** Three interfaces A, B, C, one group, one port. *)
Definition flags_abc : Flags := toy_flags "A,B,C" "1900" "239.255.255.250" "".

Definition config_abc : Config :=
  {| groups := [runes "239.255.255.250"]; ifaces := [runes "A"; runes "B"; runes "C"];
     ports := [1900%Z]; destPorts := [1900%Z]; verbose := false |}.

Definition registry_abc : Registry :=
  {| conns := [[[Some 0]; [Some 2]; [Some 4]]];
     senders := [[[Some 1]; [Some 3]; [Some 5]]] |}.

Definition no_error_answer : Answer :=
  {| ans_read := ReadErr EINVAL; ans_write := None |}.

Definition deliver (d : string) : Answer :=
  {| ans_read := ReadOk (runes d) {| addr_IP := Some [10; 0; 0; 7]%N; addr_Port := 1900 |};
     ans_write := None |}.

Definition write_fails : Answer :=
  {| ans_read := ReadErr EINVAL; ans_write := Some (toy_error "network is down") |}.

(** The worker of interface A, about to read. *)
Definition worker_A_reading : Worker :=
  {| w_triple := (0, 0, 0); w_pc := WRead;
     w_buf := replicate (Z.to_nat BufferLen) 0%N; w_lconn := Some 0;
     w_group := runes "239.255.255.250"; w_port := 1900;
     w_ifaceName := runes "A" |}.

(* ================================================================== *)
(** * Vocabulary for the parsing functions                             *)
(* ================================================================== *)

(** No white space at either end. *)
Definition starts_with_space (s : gostring) : bool :=
  match s with r :: _ => isSpace r | [] => false end.

Definition trimmed (s : gostring) : Prop :=
  starts_with_space s = false /\ starts_with_space (rev s) = false.

(** [strings.Join(pieces, ",")] for a one-rune separator. *)
Fixpoint Join (pieces : list gostring) (sep : rune) : gostring :=
  match pieces with
  | [] => []
  | [piece] => piece
  | piece :: pieces' => piece ++ sep :: Join pieces' sep
  end.

(** An item as [parseCommaSeparated] returns it: not empty, no comma in it,
    no white space at its ends. *)
Definition list_item (x : gostring) : Prop :=
  x <> [] /\ (rune_comma ∉ x) /\ trimmed x.

(** An item written with white space around it. *)
Definition padded (item : gostring * gostring * gostring) : gostring :=
  let '(l, x, r) := item in l ++ x ++ r.

Definition well_padded (item : gostring * gostring * gostring) : Prop :=
  let '(l, x, r) := item in
  forallb isSpace l = true /\ list_item x /\ forallb isSpace r = true.

(** What [parsePorts] accepts of one string. *)
Definition port_of (p : gostring) (port : Z) : Prop :=
  Sscanf_d p = inr port /\ valid_port port.

(** The rest of a port string after its digits: nothing, or something that
    does not go on with a digit. *)
Definition no_digit_ahead (rest : gostring) : Prop :=
  match rest with
  | [] => True
  | r :: _ => isDigit r = false
  end.

(** ** Vocabulary for [firstIPv4Addr] *)

(** The [IP] field the type switch of main.go:41-46 extracts. *)
Definition addr_ip (addr : Addr) : option IP :=
  match addr with
  | AddrIPNet ip => ip
  | AddrIPAddr ip => ip
  | AddrOther => None
  end.

(** The IPv4 address an entry of [ifi.Addrs()] stands for, if any. *)
Definition addr_ipv4 (addr : Addr) : option IP :=
  match addr_ip addr with
  | Some ip => To4 ip
  | None => None
  end.

Definition no_ipv4_error (ifi : Interface) : error :=
  {| err_text := runes "no IPv4 address found on interface " ++ if_Name ifi;
     err_isOpError := false; err_timeout := false |}.

(** ** Vocabulary for provisioning *)

(** A call that makes or configures a socket. *)
Definition is_socket_call (e : Event) : bool :=
  match e with
  | EvListen _ _ _ _ | EvSetReadBuffer _ _ | EvDial _ _ _ _ => true
  | _ => false
  end.

(** Since the trace was [tr0], no socket call was made. *)
Definition quiet_since {W} (tr0 : list Event) (st : Proc W) : Prop :=
  exists delta, trace st = tr0 ++ delta /\
                Forall (fun e => is_socket_call e = false) delta.

(** ** Vocabulary for the life of a worker *)

(** The read gives a datagram or times out. *)
Definition read_goes_on (a : Answer) : Prop :=
  match ans_read a with
  | ReadOk _ _ => True
  | ReadErr err => err_isOpError err && err_timeout err = true
  end.

(** The worker is in its loop: started or not, but neither on its way out,
    nor finished. *)
Definition in_loop (pc : WPC) : bool :=
  match pc with
  | WReturn | WDone | WPanicked => false
  | _ => true
  end.

(** A datagram is there to read, and writes fail. *)
Definition deliver_write_fails : Answer :=
  {| ans_read := ReadOk (runes "NOTIFY") {| addr_IP := Some [10; 0; 0; 7]%N; addr_Port := 1900 |};
     ans_write := Some (toy_error "network is down") |}.

(** ** What holds of the trace of the running process *)

(** [main] is past line 141. *)
Definition after_print (pc : MainPC) : bool :=
  match pc with MAllDone | MReturned => true | _ => false end.

(** What only the goroutine of [handleShutdown] puts into the trace. *)
Definition is_handler_event (e : Event) : bool :=
  match e with
  | EvSignal _ | EvLog (ReceivedSignal _) | EvCancel => true
  | _ => false
  end.

Definition is_live_handler (h : HState) : bool :=
  match h with HLog _ | HCancel | HDone => true | _ => false end.

(** [delta] is what the process put into the trace since [main] reached
    line 127. *)
Record trace_inv_at (cfg : Config) (reg : Registry) (s : Sys) (delta : list Event) : Prop := {
  ti_run_events : Forall (fun e => is_startup_event e = false) delta;
  ti_done : forall k w, workers s !! k = Some w -> w_pc w = WDone ->
            EvDone (w_triple w) ∈ delta;
  ti_close_late : forall j c, delta !! j = Some (EvClose c) -> after_wait (mainpc s) = true;
  ti_close_reg : forall j c, delta !! j = Some (EvClose c) -> DoClose c ∈ closeConnections reg;
  ti_close_after_workers : forall i j c e,
      delta !! j = Some (EvClose c) -> delta !! i = Some e ->
      is_worker_event e = true -> i < j;
  ti_close_after_done : forall j c t,
      delta !! j = Some (EvClose c) -> t ∈ cfg_triples cfg ->
      exists i, i < j /\ delta !! i = Some (EvDone t);
  ti_closed : forall c, DoClose c ∈ closeConnections reg ->
      match mainpc s with
      | MClose todo => EvClose c ∈ delta \/ DoClose c ∈ todo
      | MAllDone | MReturned => EvClose c ∈ delta
      | _ => True
      end;
  ti_signal : forall j sig, delta !! j = Some (EvSignal sig) -> is_live_handler (handler s) = true;
  ti_signalled : match handler s with
                 | HLog _ | HCancel => exists sig, EvSignal sig ∈ delta
                 | HDone => EvCancel ∈ delta
                 | _ => True
                 end;
  ti_cancel : forall j, delta !! j = Some EvCancel ->
      handler s = HDone /\ exists i sig, i < j /\ delta !! i = Some (EvSignal sig);
  ti_all_done : forall j, delta !! j = Some (EvLog AllDone) ->
      after_print (mainpc s) = true /\
      forall i e, delta !! i = Some e -> j < i -> is_handler_event e = true;
  ti_printed : after_print (mainpc s) = true -> EvLog AllDone ∈ delta
}.

Definition trace_inv (cfg : Config) (reg : Registry) (tr0 : list Event) (s : Sys) : Prop :=
  exists delta, sys_trace s = tr0 ++ delta /\ trace_inv_at cfg reg s delta.

Definition is_creation_call (e : Event) : bool :=
  match e with
  | EvListen _ _ _ _ | EvDial _ _ _ _ => true
  | _ => false
  end.

(** Since the trace was [tr0], only events of successful provisioning were
    added. *)
Definition startup_since {W} (tr0 : list Event) (st : Proc W) : Prop :=
  exists delta, trace st = tr0 ++ delta /\
                Forall (fun e => is_startup_event e = true) delta.

(** The sockets a registry holds. *)
Definition holds (reg : Registry) (c : Conn) : Prop :=
  exists k t, reg_get k reg t = Some (Some c).

(** A whole life of the process on the interfaces A, B, C: startup, the
    three workers are started, SIGINT arrives, every worker sees the
    cancelled context and returns, [main] closes the sockets and returns. *)
Definition spawn_abc : list Action := replicate 8 AMain.

Definition stop_worker (k : nat) : list Action := replicate 3 (AWorker k no_error_answer).

Definition signal_abc : list Action := spawn_abc ++ replicate 3 (AHandler SIGINT).

Definition wind_down_abc : list Action :=
  stop_worker 0 ++ stop_worker 1 ++ stop_worker 2 ++ replicate 9 AMain.

Definition lifecycle_abc : list Action := signal_abc ++ wind_down_abc.

(** No signal arrives, but the read of every worker fails. *)
Definition die_worker (k : nat) : list Action := replicate 5 (AWorker k no_error_answer).

Definition read_errors_abc : list Action :=
  spawn_abc ++ die_worker 0 ++ die_worker 1 ++ die_worker 2.

Definition startup_trace_abc : list Event :=
  trace (main_startup (toy_net 0 0) flags_abc toy_start).2.

(** Every read fails, [main] closes the sockets and prints its last line;
    only then SIGINT arrives, and the handler takes it before [main]
    returns. *)
Definition late_signal_abc : list Action :=
  read_errors_abc ++ replicate 8 AMain ++ [AHandler SIGINT; AMain].

Definition state_abc : Proc nat := (main_startup (toy_net 0 0) flags_abc toy_start).2.

Abbreviation run_abc sched :=
  (run config_abc registry_abc sched (init_sys config_abc (trace state_abc))).

Definition first_listen_abc : Event := default EvCancel (startup_trace_abc !! 0).

(** Worker A has started and is about to read. *)
Definition reading_abc : list Action :=
  spawn_abc ++ replicate 3 (AWorker 0 no_error_answer).

(** One interface, hence one worker: it is started, its first read fails, and
    [main] runs to its end.  No signal is delivered. *)
Definition flags_one : Flags := toy_flags "A" "1900" "239.255.255.250" "".

Definition config_one : Config :=
  {| groups := [runes "239.255.255.250"]; ifaces := [runes "A"];
     ports := [1900%Z]; destPorts := [1900%Z]; verbose := false |}.

Definition registry_one : Registry :=
  {| conns := [[[Some 0]]]; senders := [[[Some 1]]] |}.

Definition state_one : Proc nat := (main_startup (toy_net 0 0) flags_one toy_start).2.

Definition lone_read_error : list Action :=
  replicate 4 AMain ++ replicate 5 (AWorker 0 no_error_answer) ++ replicate 5 AMain.
(* ================================================================== *)
(** * Theorems                                                         *)
(* ================================================================== *)

Example parseCommaSeparated_ex :
  parseCommaSeparated (runes " eth0, eth1 ,,vlan3 ") = [runes "eth0"; runes "eth1"; runes "vlan3"].
Proof. reflexivity. Qed.

Example parsePorts_ex1 : parsePorts [runes "1900"; runes "1990"] = inr [1900%Z; 1990%Z].
Proof. vm_compute. reflexivity. Qed.

Example parsePorts_ex2 : parsePorts [runes "1900abc"] = inr [1900%Z].
Proof. vm_compute. reflexivity. Qed.

Example parsePorts_ex3 : parsePorts [runes "abc"] = inl (InvalidPort (runes "abc") ErrExpectedInteger).
Proof. vm_compute. reflexivity. Qed.

Example parsePorts_ex4 : parsePorts [runes "65536"] = inl (PortOutOfRange 65536).
Proof. vm_compute. reflexivity. Qed.

Example parsePorts_ex5 : parsePorts [runes "0"] = inl (PortOutOfRange 0).
Proof. vm_compute. reflexivity. Qed.

(** ** Parsing *)

Lemma TrimLeftSpace_all_space s :
  forallb isSpace s = true -> TrimLeftSpace s = [].
Proof.
  induction s as [|r s IH]; simpl; [reflexivity|].
  intros H. apply andb_prop in H as [Hr Hs]. rewrite Hr. auto.
Qed.





Lemma parsePorts_loop_spec portStrs : forall acc ps,
  parsePorts_loop portStrs acc = inr ps ->
  exists new, ps = acc ++ new /\ length new = length portStrs /\ Forall valid_port new.
Proof.
  induction portStrs as [|p rest IH]; simpl; intros acc ps H.
  - inversion H; subst. exists []. rewrite app_nil_r. repeat split; constructor.
  - destruct (Sscanf_d p) as [e|port]; [discriminate|].
    destruct ((port <=? 0) || (port >? 65535))%Z eqn:Hr; [discriminate|].
    apply IH in H as (new & -> & Hlen & Hall).
    exists (port :: new). rewrite <- app_assoc. simpl. repeat split; [congruence|].
    constructor; [|assumption].
    apply orb_false_elim in Hr as [H1 H2]. unfold valid_port. lia.
Qed.

Lemma parsePorts_length portStrs ps :
  parsePorts portStrs = inr ps -> length ps = length portStrs.
Proof.
  intros H. apply parsePorts_loop_spec in H as (new & -> & Hlen & _). exact Hlen.
Qed.

Lemma parsePorts_valid portStrs ps :
  parsePorts portStrs = inr ps -> Forall valid_port ps.
Proof.
  intros H. apply parsePorts_loop_spec in H as (new & -> & _ & Hall). exact Hall.
Qed.

(** ** Flags *)

Lemma parseFlags_lengths f cfg :
  parseFlags f = inr cfg -> length (destPorts cfg) = length (ports cfg).
Proof.
  unfold parseFlags. intros H.
  repeat match type of H with
         | (if ?b then _ else _) = _ => destruct b eqn:?; try discriminate
         | match ?x with _ => _ end = _ => destruct x eqn:?; try discriminate
         end; inversion H; subst; simpl; try reflexivity.
  apply Nat.eqb_eq. rewrite negb_false_iff in *. assumption.
Qed.


(** ** Grids *)

Lemma elem_of_triples G I P g i p :
  (g, i, p) ∈ triples G I P <-> g < G /\ i < I /\ p < P.
Proof.
  unfold triples. rewrite list_elem_of_bind. split.
  - intros (g' & Hin & Hg). apply list_elem_of_bind in Hin as (i' & Hin & Hi).
    apply list_elem_of_bind in Hin as (p' & Hin & Hp).
    apply list_elem_of_singleton in Hin. inversion Hin; subst.
    apply elem_of_seq in Hg, Hi, Hp. lia.
  - intros (Hg & Hi & Hp). exists g. split; [|apply elem_of_seq; lia].
    apply list_elem_of_bind. exists i. split; [|apply elem_of_seq; lia].
    apply list_elem_of_bind. exists p. split; [|apply elem_of_seq; lia].
    apply list_elem_of_singleton. reflexivity.
Qed.

Lemma make_grid_dims G I P : grid_dims (make_grid G I P) G I P.
Proof.
  unfold make_grid. split; [apply length_replicate|].
  intros g row Hrow. apply lookup_replicate in Hrow as [-> _].
  split; [apply length_replicate|].
  intros i cell Hcell. apply lookup_replicate in Hcell as [-> _].
  apply length_replicate.
Qed.

Lemma grid_get_in_dims gr G I P g i p :
  grid_dims gr G I P -> g < G -> i < I -> p < P -> is_Some (grid_get gr (g, i, p)).
Proof.
  intros [HG Hrows] Hg Hi Hp. unfold grid_get.
  destruct (lookup_lt_is_Some_2 gr g) as [row Hrow]; [lia|].
  destruct (Hrows g row Hrow) as [HI Hcells].
  destruct (lookup_lt_is_Some_2 row i) as [cell Hcell]; [lia|].
  pose proof (Hcells i cell Hcell) as HP.
  destruct (lookup_lt_is_Some_2 cell p) as [x Hx]; [lia|].
  rewrite Hrow. simpl. rewrite Hcell. simpl. rewrite Hx. eauto.
Qed.

Lemma grid_get_make G I P t :
  t ∈ triples G I P -> grid_get (make_grid G I P) t = Some None.
Proof.
  destruct t as [[g i] p]. rewrite elem_of_triples. intros (Hg & Hi & Hp).
  unfold grid_get, make_grid.
  rewrite lookup_replicate_2 by assumption. simpl.
  rewrite lookup_replicate_2 by assumption. simpl.
  rewrite lookup_replicate_2 by assumption. reflexivity.
Qed.

Lemma grid_set_spec gr G I P g i p c :
  grid_dims gr G I P -> g < G -> i < I -> p < P ->
  exists gr', grid_set gr (g, i, p) c = Some gr' /\ grid_dims gr' G I P /\
    grid_get gr' (g, i, p) = Some (Some c) /\
    forall t', t' <> (g, i, p) -> grid_get gr' t' = grid_get gr t'.
Proof.
  intros [HG Hrows] Hg Hi Hp. unfold grid_set.
  destruct (lookup_lt_is_Some_2 gr g) as [row Hrow]; [lia|].
  destruct (Hrows g row Hrow) as [HI Hcells].
  destruct (lookup_lt_is_Some_2 row i) as [cell Hcell]; [lia|].
  pose proof (Hcells i cell Hcell) as HP.
  destruct (lookup_lt_is_Some_2 cell p) as [x Hx]; [lia|].
  rewrite Hrow. simpl. rewrite Hcell. simpl. rewrite Hx. simpl.
  eexists. split; [reflexivity|]. split; [|split].
  - split; [rewrite length_insert; assumption|].
    intros g' row' Hrow'. apply list_lookup_insert_Some in Hrow' as [(-> & <- & _)|[Hne Hrow']].
    + split; [rewrite length_insert; assumption|].
      intros i' cell' Hcell'.
      apply list_lookup_insert_Some in Hcell' as [(-> & <- & _)|[Hne Hcell']].
      * rewrite length_insert. assumption.
      * eapply Hcells; eassumption.
    + apply (Hrows g' row' Hrow').
  - unfold grid_get. rewrite list_lookup_insert_eq by lia. simpl.
    rewrite list_lookup_insert_eq by lia. simpl.
    rewrite list_lookup_insert_eq by lia. reflexivity.
  - intros [[g' i'] p'] Hne. unfold grid_get.
    destruct (decide (g' = g)) as [->|Hg'].
    + rewrite list_lookup_insert_eq by lia. rewrite Hrow. simpl.
      destruct (decide (i' = i)) as [->|Hi'].
      * rewrite list_lookup_insert_eq by lia. rewrite Hcell. simpl.
        rewrite list_lookup_insert_ne by congruence. reflexivity.
      * rewrite list_lookup_insert_ne by congruence. reflexivity.
    + rewrite list_lookup_insert_ne by congruence. reflexivity.
Qed.

(** ** Provisioning *)

Lemma forRange_rule {W A Acc} (body : nat -> A -> Acc -> M W Acc)
    (Inv : nat -> Acc -> Proc W -> Prop) (Q : Res Acc -> Proc W -> Prop) xs :
  forall idx s st,
    Inv idx s st ->
    (forall j x s st, xs !! j = Some x -> Inv (idx + j) s st ->
       match body (idx + j) x s st with
       | (Ret s', st') => Inv (S (idx + j)) s' st'
       | (r, st') => Q r st'
       end) ->
    match forRange body idx xs s st with
    | (Ret s', st') => Inv (idx + length xs) s' st'
    | (r, st') => Q r st'
    end.
Proof.
  induction xs as [|x xs IH]; intros idx s st HI Hbody; simpl.
  - unfold ret. rewrite Nat.add_0_r. exact HI.
  - unfold bind. pose proof (Hbody 0 x s st eq_refl) as H0.
    rewrite Nat.add_0_r in H0. specialize (H0 HI).
    destruct (body idx x s st) as [[s1| |] st1]; try exact H0.
    replace (idx + S (length xs)) with (S idx + length xs) by lia.
    apply IH; [exact H0|].
    intros j y s' st' Hj HI'.
    replace (S idx + j) with (idx + S j) in * by lia.
    apply (Hbody (S j)); assumption.
Qed.

Lemma clean_app tr1 tr2 : clean (tr1 ++ tr2) <-> clean tr1 /\ clean tr2.
Proof. apply Forall_app. Qed.

Lemma created_app tr1 tr2 : created (tr1 ++ tr2) = created tr1 ++ created tr2.
Proof. apply omap_app. Qed.

Lemma pairs_of_app ts1 ts2 : pairs_of (ts1 ++ ts2) = pairs_of ts1 ++ pairs_of ts2.
Proof. apply bind_app. Qed.

Lemma elem_of_pairs_of k t ts : (k, t) ∈ pairs_of ts -> t ∈ ts.
Proof.
  unfold pairs_of. rewrite list_elem_of_bind. intros (t' & Hin & Ht').
  apply elem_of_cons in Hin as [Hin|Hin]; [congruence|].
  apply list_elem_of_singleton in Hin. congruence.
Qed.

Lemma created_keys_in_done delta done k t c :
  (created delta).*1 = pairs_of done -> (k, t, c) ∈ created delta -> t ∈ done.
Proof.
  intros Hkeys Hin. apply (elem_of_pairs_of k).
  rewrite <- Hkeys. apply list_elem_of_fmap. exists (k, t, c). split; [reflexivity|assumption].
Qed.

Arguments grid_set : simpl never.
Arguments grid_get : simpl never.

Ltac mred :=
  unfold bind, call, emit, ret, log_Fatalf, log_Printf, panic; simpl.

Lemma provision_port_spec {W} (net : NetLib W) cfg tr0 done g group mcastIP i ifName ifi
    localIP p port reg st :
  prov_inv cfg tr0 done reg st ->
  (g, i, p) ∉ done ->
  groups cfg !! g = Some group -> ifaces cfg !! i = Some ifName ->
  ports cfg !! p = Some port ->
  length (destPorts cfg) = length (ports cfg) ->
  match provision_port net (destPorts cfg) g group mcastIP i ifName ifi localIP p port reg st with
  | (Ret reg', st') => prov_inv cfg tr0 (done ++ [(g, i, p)]) reg' st'
  | (r, st') => prov_fatal cfg tr0 r st'
  end.
Proof.
  intros (Hdc & Hds & delta & Htr & Hclean & Hkeys & Hreg) Hfresh Hg Hi Hp Hlen.
  assert (Hgl : g < length (groups cfg)) by (eapply lookup_lt_Some; eassumption).
  assert (Hil : i < length (ifaces cfg)) by (eapply lookup_lt_Some; eassumption).
  assert (Hpl : p < length (ports cfg)) by (eapply lookup_lt_Some; eassumption).
  unfold provision_port. mred.
  destruct (ListenMulticastUDP net ifi _ (world st)) as [[err|lconn] w1]; simpl.
  - (* the listener could not be opened *)
    split; [reflexivity|].
    eexists delta, [_], _. rewrite Htr. split; [rewrite <- !app_assoc; reflexivity|].
    split; [assumption|]. right. eexists. split; [reflexivity|]. split; [reflexivity|].
    simpl. auto.
  - destruct (lookup_lt_is_Some_2 (destPorts cfg) p) as [destPort Hdp]; [lia|].
    rewrite Hdp. simpl.
    destruct (DialUDP net _ _ _) as [[err|senderConn] w2]; simpl.
    + (* the sender could not be opened *)
      split; [reflexivity|].
      eexists (delta ++ [_; _]), [_], _. rewrite Htr.
      split; [rewrite <- !app_assoc; reflexivity|].
      split; [apply clean_app; split; [assumption|repeat constructor]|].
      right. eexists. split; [reflexivity|]. split; [reflexivity|].
      simpl. auto.
    + destruct (grid_set_spec _ _ _ _ g i p lconn Hdc Hgl Hil Hpl)
        as (conns' & -> & Hdc' & Hgetc & Hotherc).
      destruct (grid_set_spec _ _ _ _ g i p senderConn Hds Hgl Hil Hpl)
        as (senders' & -> & Hds' & Hgets & Hothers).
      simpl. split; [assumption|]. split; [assumption|].
      eexists (delta ++ [_; _; _; _]). rewrite Htr.
      split; [rewrite <- !app_assoc; reflexivity|].
      split; [apply clean_app; split; [assumption|repeat constructor]|].
      split.
      * rewrite created_app, fmap_app, pairs_of_app, Hkeys. reflexivity.
      * intros k t c. rewrite created_app, elem_of_app. intros [Hold|Hnew].
        -- assert (t ∈ done) by (eapply created_keys_in_done; eassumption).
           assert (t <> (g, i, p)) by (intros ->; apply Hfresh; assumption).
           specialize (Hreg k t c Hold). unfold reg_get in *. destruct k; simpl in *.
           ++ rewrite Hotherc; assumption.
           ++ rewrite Hothers; assumption.
        -- simpl in Hnew. apply elem_of_cons in Hnew as [Hnew|Hnew].
           ++ inversion Hnew; subst. exact Hgetc.
           ++ apply list_elem_of_singleton in Hnew. inversion Hnew; subst. exact Hgets.
Qed.

Lemma prov_inv_trace {W} cfg tr0 done reg (st st' : Proc W) :
  trace st' = trace st -> prov_inv cfg tr0 done reg st -> prov_inv cfg tr0 done reg st'.
Proof.
  intros Heq (Hdc & Hds & delta & Htr & H). split; [assumption|]. split; [assumption|].
  exists delta. rewrite Heq. split; assumption.
Qed.

Lemma seq_0_S n : seq 0 (S n) = seq 0 n ++ [n].
Proof. rewrite seq_S. reflexivity. Qed.

Lemma provision_iface_spec {W} (net : NetLib W) cfg tr0 done g group mcastIP i ifName reg st :
  prov_inv cfg tr0 done reg st ->
  (forall p, (g, i, p) ∉ done) ->
  groups cfg !! g = Some group -> ifaces cfg !! i = Some ifName ->
  length (destPorts cfg) = length (ports cfg) ->
  match provision_iface net (ports cfg) (destPorts cfg) g group mcastIP i ifName reg st with
  | (Ret reg', st') =>
      prov_inv cfg tr0 (done ++ ((fun p => (g, i, p)) <$> seq 0 (length (ports cfg)))) reg' st'
  | (r, st') => prov_fatal cfg tr0 r st'
  end.
Proof.
  intros Hinv Hfresh Hg Hi Hlen.
  assert (Hin : ifName ∈ ifaces cfg) by (eapply list_elem_of_lookup_2; eassumption).
  unfold provision_iface, firstIPv4Addr. mred.
  destruct (InterfaceByName net ifName (world st)) as [[err|ifi] w1]; simpl.
  { destruct Hinv as (_ & _ & delta & Htr & Hclean & _).
    split; [reflexivity|]. exists delta, [], (CouldNotFindInterface ifName err).
    rewrite Htr. simpl. split; [rewrite <- app_assoc; reflexivity|].
    split; [assumption|]. left. auto. }
  destruct (Interface_Addrs net ifi w1) as [[err|addrs] w2]; simpl.
  { destruct Hinv as (_ & _ & delta & Htr & Hclean & _).
    split; [reflexivity|]. exists delta, [], (CouldNotDetermineIPv4 ifName err).
    rewrite Htr. simpl. split; [rewrite <- app_assoc; reflexivity|].
    split; [assumption|]. left. auto. }
  destruct (firstIPv4Addr_loop net ifi addrs) as [err|localIP]; simpl.
  { destruct Hinv as (_ & _ & delta & Htr & Hclean & _).
    split; [reflexivity|]. exists delta, [], (CouldNotDetermineIPv4 ifName err).
    rewrite Htr. simpl. split; [rewrite <- app_assoc; reflexivity|].
    split; [assumption|]. left. auto. }
  apply (forRange_rule _
           (fun idx reg st => prov_inv cfg tr0 (done ++ ((fun p => (g, i, p)) <$> seq 0 idx)) reg st)
           (prov_fatal cfg tr0) (ports cfg) 0).
  - simpl. rewrite app_nil_r. eapply prov_inv_trace; [|exact Hinv]. reflexivity.
  - intros j port reg1 st1 Hj Hinv1. cbv beta in *. change (0 + j) with j in *.
    rewrite seq_0_S, fmap_app, app_assoc. simpl.
    apply provision_port_spec; try assumption.
    rewrite not_elem_of_app. split; [apply Hfresh|].
    rewrite list_elem_of_fmap. intros (p' & Heq & Hp'). inversion Heq; subst.
    apply elem_of_seq in Hp'. lia.
Qed.

Lemma provision_group_spec {W} (net : NetLib W) cfg tr0 done g group reg st :
  prov_inv cfg tr0 done reg st ->
  (forall i p, (g, i, p) ∉ done) ->
  groups cfg !! g = Some group ->
  length (destPorts cfg) = length (ports cfg) ->
  match provision_group net (ifaces cfg) (ports cfg) (destPorts cfg) g group reg st with
  | (Ret reg', st') =>
      prov_inv cfg tr0
        (done ++ (i ← seq 0 (length (ifaces cfg));
                  (fun p => (g, i, p)) <$> seq 0 (length (ports cfg)))) reg' st'
  | (r, st') => prov_fatal cfg tr0 r st'
  end.
Proof.
  intros Hinv Hfresh Hg Hlen.
  assert (Hin : group ∈ groups cfg) by (eapply list_elem_of_lookup_2; eassumption).
  unfold provision_group.
  destruct (ParseIP net group) as [mcastIP|]; mred.
  2:{ destruct Hinv as (_ & _ & delta & Htr & Hclean & _).
      split; [reflexivity|]. exists delta, [], (FailedToParseGroup group).
      rewrite Htr. simpl. split; [rewrite <- app_assoc; reflexivity|].
    split; [assumption|]. left. auto. }
  apply (forRange_rule _
           (fun idx reg st =>
              prov_inv cfg tr0
                (done ++ (i ← seq 0 idx; (fun p => (g, i, p)) <$> seq 0 (length (ports cfg))))
                reg st)
           (prov_fatal cfg tr0) (ifaces cfg) 0).
  - simpl. rewrite app_nil_r. exact Hinv.
  - intros j ifName reg1 st1 Hj Hinv1. cbv beta in *. change (0 + j) with j in *.
    rewrite seq_0_S, bind_app, bind_singleton, app_assoc.
    apply provision_iface_spec; try assumption.
    intros p. rewrite not_elem_of_app. split; [apply Hfresh|].
    rewrite list_elem_of_bind. intros (i' & Hin' & Hi').
    apply list_elem_of_fmap in Hin' as (p' & Heq & _). inversion Heq; subst.
    apply elem_of_seq in Hi'. lia.
Qed.

Lemma triples_unfold G I P :
  triples G I P =
  g ← seq 0 G; i ← seq 0 I; (fun p => (g, i, p)) <$> seq 0 P.
Proof.
  unfold triples. induction (seq 0 G) as [|g gs IHg]; [reflexivity|].
  rewrite !bind_cons, IHg. f_equal.
Qed.

Lemma initializeConnections_spec {W} (net : NetLib W) cfg st :
  length (destPorts cfg) = length (ports cfg) ->
  match initializeConnections net (groups cfg) (ifaces cfg) (ports cfg) (destPorts cfg) st with
  | (Ret reg, st') => prov_inv cfg (trace st) (cfg_triples cfg) reg st'
  | (r, st') => prov_fatal cfg (trace st) r st'
  end.
Proof.
  intros Hlen. unfold initializeConnections, cfg_triples. rewrite triples_unfold.
  apply (forRange_rule _
           (fun idx reg st' =>
              prov_inv cfg (trace st)
                (g ← seq 0 idx; i ← seq 0 (length (ifaces cfg));
                 (fun p => (g, i, p)) <$> seq 0 (length (ports cfg)))
                reg st')
           (prov_fatal cfg (trace st)) (groups cfg) 0).
  - simpl. split; [apply make_grid_dims|]. split; [apply make_grid_dims|].
    exists []. rewrite app_nil_r. split; [reflexivity|]. split; [constructor|].
    split; [reflexivity|]. intros k t c Hin. inversion Hin.
  - intros j group reg1 st1 Hj Hinv1. cbv beta in *. change (0 + j) with j in *.
    rewrite seq_0_S, bind_app, bind_singleton.
    apply provision_group_spec; try assumption.
    intros i p. rewrite list_elem_of_bind. intros (g' & Hin' & Hg').
    apply list_elem_of_bind in Hin' as (i' & Hin' & _).
    apply list_elem_of_fmap in Hin' as (p' & Heq & _). inversion Heq; subst.
    apply elem_of_seq in Hg'. lia.
Qed.

(** What a run of the startup code can be. *)
Lemma main_startup_spec {W} (net : NetLib W) f st :
  match main_startup net f st with
  | (Ret (cfg, reg), st') =>
      parseFlags f = inr cfg /\ prov_inv cfg (trace st) (cfg_triples cfg) reg st'
  | (Exit n, st') =>
      n = 1%Z /\
      ((exists m, parseFlags f = inl m /\
                  st' = {| world := world st; trace := trace st ++ [EvLog m] |}) \/
       (exists cfg, parseFlags f = inr cfg /\ prov_fatal cfg (trace st) (Exit (A:=Registry) 1) st'))
  | (Panic, _) => False
  end.
Proof.
  unfold main_startup. destruct (parseFlags f) as [m|cfg] eqn:Hf.
  - unfold log_Fatalf. split; [reflexivity|]. left. eauto.
  - pose proof (initializeConnections_spec net cfg st (parseFlags_lengths f cfg Hf)) as H.
    unfold bind, ret.
    destruct (initializeConnections _ _ _ _ _ st) as [[reg|n|] st']; simpl.
    + auto.
    + destruct H as [Hn H]. inversion Hn; subst. split; [reflexivity|]. right.
      exists cfg. split; [reflexivity|]. split; [reflexivity|exact H].
    + destruct H as [Hn _]. discriminate.
Qed.

(** ** The process stopped during startup *)

Lemma run_not_running cfg reg sched s s' :
  status s <> Running -> run cfg reg sched s = Some s' -> sched = [] /\ s' = s.
Proof.
  intros Hst. destruct sched as [|a sched]; simpl.
  - intros H. inversion H. auto.
  - unfold step. destruct (status s); [contradiction| |]; discriminate.
Qed.

Lemma failed_split_unique pre0 : forall e0 l pre e post,
  clean pre0 -> failed_creation l = false -> failed_creation e = true ->
  pre0 ++ [e0; l] = pre ++ e :: post ->
  pre = pre0 /\ e = e0 /\ post = [l].
Proof.
  induction pre0 as [|x pre0 IH]; intros e0 l pre e post Hclean Hl He Heq.
  - destruct pre as [|y pre]; simpl in Heq.
    + inversion Heq; subst. auto.
    + inversion Heq as [[Hy Hrest]]. destruct pre as [|z pre]; simpl in Hrest.
      * inversion Hrest; subst. congruence.
      * inversion Hrest as [[Hz Hnil]]. destruct pre; discriminate.
  - inversion Hclean as [|? ? Hx Hclean']; subst.
    destruct pre as [|y pre]; simpl in Heq.
    + inversion Heq; subst. congruence.
    + inversion Heq as [[Hy Hrest]]. subst y.
      destruct (IH e0 l pre e post Hclean' Hl He Hrest) as (-> & -> & ->). auto.
Qed.

Lemma clean_no_failure tr pre e post :
  clean tr -> tr = pre ++ e :: post -> failed_creation e = true -> False.
Proof.
  intros Hclean -> He. apply clean_app in Hclean as [_ Hclean].
  inversion Hclean; subst. congruence.
Qed.

(** C3, as amended. During provisioning the first failed socket call
    ([ListenMulticastUDP] or [DialUDP]) for any triple ends the whole process:
    the run of the startup code is [Exit 1], no call failed before it, the only
    thing that follows it in the trace is the fatal message, and under no
    schedule does the process take a further step or own a worker.  The
    message carries the group, the interface and the error of the call, and
    one port: the listen port [ports[p]] of the triple when the listener could
    not be opened, the destination port [destPorts[p]] when the sender could
    not be created; in the second case the listen port of the triple is not
    reported. *)
Theorem provisioning_failure_is_fatal {W} (net : NetLib W) f w r st pre e post :
  main_startup net f {| world := w; trace := [] |} = (r, st) ->
  trace st = pre ++ e :: post ->
  failed_creation e = true ->
  r = Exit 1 /\ clean pre /\
  (exists cfg m, parseFlags f = inr cfg /\ post = [EvLog m] /\ reports cfg e m) /\
  (forall sched s, process net f w sched = Some s ->
     sched = [] /\ status s = Exited 1 /\ workers s = [] /\ sys_trace s = trace st).
Proof.
  intros Hrun Htr He.
  pose proof (main_startup_spec net f {| world := w; trace := [] |}) as Hspec.
  rewrite Hrun in Hspec. simpl in Hspec.
  destruct r as [[cfg reg]|n|].
  - destruct Hspec as (_ & _ & _ & delta & Hd & Hclean & _). simpl in Hd.
    exfalso. eapply clean_no_failure; [exact Hclean| |exact He].
    rewrite <- Hd. exact Htr.
  - destruct Hspec as [-> [(m & Hf & ->)|(cfg & Hf & _ & pre0 & tail & m & Hd & Hclean & Htail)]].
    + simpl in Htr. destruct pre as [|x pre]; simpl in Htr.
      * inversion Htr; subst. discriminate.
      * inversion Htr as [[Hx Hnil]]. destruct pre; discriminate.
    + simpl in Hd. destruct Htail as [[-> Hres]|(e0 & -> & He0 & Hrep)].
      * exfalso. simpl in Hd.
        eapply (clean_no_failure (pre0 ++ [EvLog m])); [|rewrite <- Hd; exact Htr|exact He].
        apply clean_app. split; [assumption|repeat constructor].
      * rewrite Htr in Hd. symmetry in Hd. simpl in Hd.
        destruct (failed_split_unique pre0 e0 (EvLog m) pre e post Hclean eq_refl He Hd)
          as (-> & -> & ->).
        split; [reflexivity|]. split; [assumption|]. split; [eauto|].
        intros sched s. unfold process. rewrite Hrun. intros Hs.
        apply run_not_running in Hs as [-> ->]; [|discriminate]. simpl. auto.
  - contradiction.
Qed.

Lemma provisioning_failure_is_fatal_witness :
  failed_creation failing_call = true /\ failing_startup.1 = Exit 1.
Proof.
  split; [reflexivity|].
  refine (proj1 (provisioning_failure_is_fatal (toy_net 0 2021) flags_dest_ports 0
                   failing_startup.1 failing_startup.2
                   (take 2 (trace failing_startup.2)) failing_call
                   (drop 3 (trace failing_startup.2)) _ _ _)).
  - symmetry. apply surjective_pairing.
  - vm_compute. reflexivity.
  - reflexivity.
Defined.

(** C3, the claim as stated fails. With [-p 1900 -d 2021] and a network on
    which dialling to port 2021 fails, the sender of the triple (0, 0, 0)
    cannot be created and startup ends in [Exit 1]; the fatal message is the
    last thing written, right after the failed call, and the port in it is
    2021, the destination port, while the port of the triple is 1900: the
    message does not name the failing (group, interface, port). *)
Lemma failed_sender_report_omits_listen_port :
  parseFlags flags_dest_ports = inr config_dest_ports /\
  failing_startup.1 = Exit 1 /\
  failing_call =
    EvDial (0, 0, 0) {| addr_IP := Some [10; 0; 0; 1]%N; addr_Port := 0 |}
      {| addr_IP := Some [239; 255; 255; 250]%N; addr_Port := 2021 |}
      (inl (toy_error "network unreachable")) /\
  trace failing_startup.2 =
    take 2 (trace failing_startup.2) ++ [failing_call; EvLog failing_message] /\
  ports config_dest_ports !! 0 = Some 1900%Z /\
  ~ reports_triple config_dest_ports failing_call failing_message.
Proof.
  split; [vm_compute; reflexivity|]. split; [vm_compute; reflexivity|].
  split; [vm_compute; reflexivity|]. split; [vm_compute; reflexivity|].
  split; [reflexivity|].
  intros H. vm_compute in H. destruct H as (_ & _ & H & _). discriminate H.
Qed.

(** C6. When [-d] is omitted (the flag is the empty string) and the flags are
    accepted, the destination ports handed to the core are the listen ports:
    the same list, hence the same port at every index. *)
Theorem dest_ports_default_to_listen_ports f cfg :
  destPortsFlag f = [] ->
  parseFlags f = inr cfg ->
  destPorts cfg = ports cfg /\ forall i, destPorts cfg !! i = ports cfg !! i.
Proof.
  intros Hd Hf. assert (H : destPorts cfg = ports cfg); [|split; [exact H|intros i; rewrite H; reflexivity]].
  unfold parseFlags in Hf. rewrite Hd in Hf. simpl in Hf.
  repeat match type of Hf with
         | (if ?b then _ else _) = _ => destruct b; try discriminate
         | match ?x with _ => _ end = _ => destruct x; try discriminate
         end; inversion Hf; reflexivity.
Qed.

Lemma dest_ports_default_to_listen_ports_witness :
  destPorts config_two_ifaces !! 1 = ports config_two_ifaces !! 1.
Proof.
  apply (dest_ports_default_to_listen_ports flags_two_ifaces config_two_ifaces).
  - reflexivity.
  - vm_compute. reflexivity.
Defined.

(** C8. When [-d] is given and its list has another length than the list of
    [-p], [main] stops in [log.Fatalf] with a configuration error before any
    call into the network library: exit status 1, the world untouched, the
    message the only event.  When the required flags are present and both
    lists parse, the message is the mismatch of the two lengths. *)
Theorem dest_ports_mismatch_is_fatal {W} (net : NetLib W) f w :
  destPortsFlag f <> [] ->
  length (parseCommaSeparated (destPortsFlag f)) <>
    length (parseCommaSeparated (portsFlag f)) ->
  exists m,
    config_error m /\
    main_startup net f {| world := w; trace := [] |} =
      (Exit 1, {| world := w; trace := [EvLog m] |}) /\
    (forall ps ds,
       ifacesFlag f <> [] -> portsFlag f <> [] -> groupsFlag f <> [] ->
       parsePorts (parseCommaSeparated (portsFlag f)) = inr ps ->
       parsePorts (parseCommaSeparated (destPortsFlag f)) = inr ds ->
       m = DestPortsMismatch (length ds) (length ps) /\ length ds <> length ps).
Proof.
  intros Hd Hlen.
  assert (Hne : forall s : gostring, s <> [] -> isEmpty s = false)
    by (intros [|] ?; [contradiction|reflexivity]).
  unfold main_startup, parseFlags.
  destruct (isEmpty (ifacesFlag f)) eqn:Hi.
  { eexists. split; [|split; [reflexivity|]]; [exact I|].
    intros ? ? H. rewrite (Hne _ H) in Hi. discriminate. }
  destruct (isEmpty (portsFlag f)) eqn:Hp.
  { eexists. split; [|split; [reflexivity|]]; [exact I|].
    intros ? ? _ H. rewrite (Hne _ H) in Hp. discriminate. }
  destruct (isEmpty (groupsFlag f)) eqn:Hg.
  { eexists. split; [|split; [reflexivity|]]; [exact I|].
    intros ? ? _ _ H. rewrite (Hne _ H) in Hg. discriminate. }
  destruct (parsePorts (parseCommaSeparated (portsFlag f))) as [err|ps] eqn:Hps.
  { eexists. split; [|split; [reflexivity|]]; [exact I|]. discriminate. }
  rewrite (Hne _ Hd). simpl.
  destruct (parsePorts (parseCommaSeparated (destPortsFlag f))) as [err|ds] eqn:Hds.
  { eexists. split; [|split; [reflexivity|]]; [exact I|]. discriminate. }
  apply parsePorts_length in Hps, Hds.
  destruct (length ds =? length ps) eqn:Heq.
  { apply Nat.eqb_eq in Heq. congruence. }
  simpl. eexists. split; [|split; [reflexivity|]]; [exact I|].
  intros ps' ds' _ _ _ Hps' Hds'. inversion Hps'; inversion Hds'; subst.
  split; [reflexivity|]. congruence.
Qed.

Lemma dest_ports_mismatch_is_fatal_witness :
  exists m,
    config_error m /\
    main_startup (toy_net 0 0) flags_mismatch toy_start =
      (Exit 1, {| world := 0; trace := [EvLog m] |}) /\
    m = DestPortsMismatch 1 2.
Proof.
  destruct (dest_ports_mismatch_is_fatal (toy_net 0 0) flags_mismatch 0)
    as (m & Hm & Hrun & Hmsg).
  - discriminate.
  - vm_compute. discriminate.
  - exists m. split; [exact Hm|]. split; [exact Hrun|].
    refine (proj1 (Hmsg [1900; 1990]%Z [2021%Z] _ _ _ _ _));
      first [discriminate | vm_compute; reflexivity].
Defined.

(** C9. [parsePorts] on the port string "1900abc": the scanner reads the
    leading digits and leaves the rest unread, so the string is accepted as
    port 1900, and [main] goes on with it. *)
Theorem parsePorts_accepts_trailing_text :
  parsePorts [runes "1900abc"] = inr [1900%Z] /\
  exists cfg, parseFlags (toy_flags "eth0,eth1" "1900abc" "239.255.255.250" "") = inr cfg /\
              ports cfg = [1900%Z].
Proof.
  split; [vm_compute; reflexivity|].
  eexists. split; [vm_compute; reflexivity|reflexivity].
Qed.

(** What [parsePorts] does guarantee: every port it returns lies in
    [1, 65535], and a string whose number lies outside is refused. *)
Lemma parsePorts_in_range portStrs ps port :
  parsePorts portStrs = inr ps -> port ∈ ps -> (1 <= port <= 65535)%Z.
Proof.
  intros H Hin. apply parsePorts_valid in H.
  rewrite Forall_forall in H. apply H. assumption.
Qed.

Lemma parsePorts_refuses_out_of_range p rest port :
  Sscanf_d p = inr port -> (port < 1 \/ 65535 < port)%Z ->
  parsePorts (p :: rest) = inl (PortOutOfRange port).
Proof.
  intros Hs Hr. unfold parsePorts. simpl. rewrite Hs.
  destruct ((port <=? 0) || (port >? 65535))%Z eqn:Hb; [reflexivity|].
  apply orb_false_elim in Hb as [H1 H2]. lia.
Qed.

Lemma parsePorts_refuses_unscannable p rest err :
  Sscanf_d p = inl err -> parsePorts (p :: rest) = inl (InvalidPort p err).
Proof. intros Hs. unfold parsePorts. simpl. rewrite Hs. reflexivity. Qed.

(** ** One worker *)

Lemma registry_ok_conn cfg reg t :
  registry_ok cfg reg -> t ∈ cfg_triples cfg ->
  exists lc, grid_get (conns reg) t = Some (Some lc).
Proof. intros (_ & _ & H) Ht. destruct (H t Ht) as (lc & sc & Hc & _). eauto. Qed.

Lemma registry_ok_sender cfg reg t :
  registry_ok cfg reg -> t ∈ cfg_triples cfg ->
  exists sc, grid_get (senders reg) t = Some (Some sc).
Proof. intros (_ & _ & H) Ht. destruct (H t Ht) as (lc & sc & _ & Hs). eauto. Qed.

Lemma elem_of_cfg_triples cfg g i p :
  (g, i, p) ∈ cfg_triples cfg <->
  g < length (groups cfg) /\ i < length (ifaces cfg) /\ p < length (ports cfg).
Proof. apply elem_of_triples. Qed.

Lemma read_into_length buf data :
  length (read_into buf data).2 = length buf /\
  (read_into buf data).1 = Nat.min (length data) (length buf) /\
  take (read_into buf data).1 (read_into buf data).2 = take (length buf) data.
Proof.
  unfold read_into. simpl.
  set (n := Nat.min (length data) (length buf)).
  assert (Hn : length (take n data) = n) by (rewrite length_take; lia).
  split; [|split].
  - rewrite length_app, length_drop, Hn. lia.
  - reflexivity.
  - rewrite take_app_length' by (symmetry; exact Hn).
    unfold n. destruct (Nat.le_ge_cases (length data) (length buf)).
    + rewrite Nat.min_l by assumption. rewrite !take_ge by lia. reflexivity.
    + rewrite Nat.min_r by assumption. reflexivity.
Qed.

Arguments read_into : simpl never.

(** A step of the fan-out loop at a peer index: one write on the peer's
    sender, with the payload unchanged, then the log line. *)
Lemma wstep_fanout_peer cfg reg c a w g i p n src pk j :
  wf_config cfg -> registry_ok cfg reg -> worker_inv cfg reg w ->
  w_triple w = (g, i, p) -> w_pc w = WFanout n src pk j ->
  j < length (ifaces cfg) -> j <> i ->
  exists sc from to dp,
    grid_get (senders reg) (g, j, p) = Some (Some sc) /\
    ifaces cfg !! i = Some from /\ ifaces cfg !! j = Some to /\
    destPorts cfg !! p = Some dp /\
    wstep cfg reg c a w =
      (at_pc w (WFanout n src pk (S j)),
       EvWrite (g, i, p) j (Some sc) pk (ans_write a) ::
       forward_log cfg (w_group w) from to dp n src (ans_write a)).
Proof.
  intros Hwf Hreg [Hin Hloc] Ht Hpc Hj Hne.
  rewrite Ht in Hin. apply elem_of_cfg_triples in Hin as (Hg & Hi & Hp).
  destruct (registry_ok_sender cfg reg (g, j, p) Hreg) as [sc Hsc];
    [apply elem_of_cfg_triples; auto|].
  destruct (lookup_lt_is_Some_2 (ifaces cfg) i Hi) as [from Hfrom].
  destruct (lookup_lt_is_Some_2 (ifaces cfg) j Hj) as [to Hto].
  destruct (lookup_lt_is_Some_2 (destPorts cfg) p) as [dp Hdp]; [unfold wf_config in Hwf; lia|].
  exists sc, from, to, dp. repeat (split; [assumption|]).
  unfold wstep. rewrite Ht, Hpc.
  apply Nat.ltb_lt in Hj. rewrite Hj.
  apply Nat.eqb_neq in Hne. rewrite Hne.
  rewrite Hsc, Hfrom, Hto, Hdp. unfold forward_log.
  destruct (ans_write a); [reflexivity|]. destruct (verbose cfg); reflexivity.
Qed.

Lemma wstep_fanout_self cfg reg c a w g i p n src pk :
  w_triple w = (g, i, p) -> w_pc w = WFanout n src pk i ->
  i < length (ifaces cfg) ->
  wstep cfg reg c a w = (at_pc w (WFanout n src pk (S i)), []).
Proof.
  intros Ht Hpc Hi. unfold wstep. rewrite Ht, Hpc.
  apply Nat.ltb_lt in Hi. rewrite Hi, Nat.eqb_refl. reflexivity.
Qed.

Lemma wstep_fanout_end cfg reg c a w g i p n src pk j :
  w_triple w = (g, i, p) -> w_pc w = WFanout n src pk j ->
  length (ifaces cfg) <= j ->
  wstep cfg reg c a w =
    (at_pc w WSelect,
     if verbose cfg
     then [EvLog (Received n src (w_group w) (w_ifaceName w) (w_port w))] else []).
Proof.
  intros Ht Hpc Hj. unfold wstep. rewrite Ht, Hpc.
  apply Nat.ltb_ge in Hj. rewrite Hj. reflexivity.
Qed.

Lemma worker_inv_at_pc cfg reg w pc :
  worker_inv cfg reg w ->
  match w_pc w with WStart | WPanicked => False | _ => True end ->
  worker_inv cfg reg (at_pc w pc).
Proof.
  intros [Hin Hloc] Hpc. split; [exact Hin|]. simpl.
  destruct (w_triple w) as [[g i] p].
  destruct (w_pc w); try contradiction; destruct pc; auto.
Qed.

Lemma at_pc_at_pc w pc pc' : at_pc (at_pc w pc) pc' = at_pc w pc'.
Proof. reflexivity. Qed.

Lemma writes_app evs1 evs2 : writes (evs1 ++ evs2) = writes evs1 ++ writes evs2.
Proof. apply omap_app. Qed.

Lemma writes_forward_log cfg group from to dp n src r :
  writes (forward_log cfg group from to dp n src r) = [].
Proof. unfold forward_log. destruct r; [reflexivity|]. destruct (verbose cfg); reflexivity. Qed.

Lemma worker_inv_fanout cfg reg w0 n src pk j j' :
  worker_inv cfg reg (at_pc w0 (WFanout n src pk j)) ->
  worker_inv cfg reg (at_pc w0 (WFanout n src pk j')).
Proof. intros H. exact H. Qed.

Lemma writes_cons_write t j c pk r evs :
  writes (EvWrite t j c pk r :: evs) = (t, j, c, pk) :: writes evs.
Proof. reflexivity. Qed.

(** The loop of lines 289-302 from index [j] on, one input per index. *)
Lemma wrun_fanout cfg reg w0 g i p n src pk :
  wf_config cfg -> registry_ok cfg reg -> w_triple w0 = (g, i, p) ->
  forall inputs j,
    worker_inv cfg reg (at_pc w0 (WFanout n src pk j)) ->
    j + length inputs = length (ifaces cfg) ->
    exists evs,
      wrun cfg reg inputs (at_pc w0 (WFanout n src pk j)) =
        (at_pc w0 (WFanout n src pk (length (ifaces cfg))), evs) /\
      writes evs =
        (fun j' => ((g, i, p), j', sender_at reg g j' p, pk)) <$>
          filter (fun j' => j' <> i) (seq j (length inputs)) /\
      forall k c a, inputs !! k = Some (c, a) -> j + k <> i ->
        exists sc from to dp pre post,
          grid_get (senders reg) (g, j + k, p) = Some (Some sc) /\
          ifaces cfg !! i = Some from /\ ifaces cfg !! (j + k) = Some to /\
          destPorts cfg !! p = Some dp /\
          evs = pre ++ EvWrite (g, i, p) (j + k) (Some sc) pk (ans_write a) ::
                  forward_log cfg (w_group w0) from to dp n src (ans_write a) ++ post.
Proof.
  intros Hwf Hreg Ht. induction inputs as [|[c a] inputs IH]; intros j Hinv Hlen.
  - simpl in *. rewrite Nat.add_0_r in Hlen. subst j.
    exists []. split; [reflexivity|]. split; [reflexivity|]. intros k c a Hk. discriminate.
  - simpl in Hlen.
    assert (Hj : j < length (ifaces cfg)) by lia.
    destruct (IH (S j) (worker_inv_fanout _ _ _ _ _ _ _ _ Hinv)) as (evs & Hrun & Hw & Hev); [lia|].
    cbn [wrun].
    destruct (decide (j = i)) as [->|Hne].
    + rewrite (wstep_fanout_self cfg reg c a _ g i p n src pk) by (assumption || reflexivity).
      rewrite at_pc_at_pc, Hrun. exists evs. split; [reflexivity|]. split.
      * rewrite Hw. cbn [length seq]. rewrite filter_cons.
        destruct (decide (i <> i)); [contradiction|reflexivity].
      * intros k c' a' Hk Hki. destruct k as [|k]; [rewrite Nat.add_0_r in Hki; contradiction|].
        simpl in Hk. replace (i + S k) with (S i + k) in * by lia.
        apply (Hev k c' a' Hk Hki).
    + destruct (wstep_fanout_peer cfg reg c a _ g i p n src pk j Hwf Hreg Hinv Ht eq_refl Hj Hne)
        as (sc & from & to & dp & Hsc & Hfrom & Hto & Hdp & Hstep).
      rewrite Hstep, at_pc_at_pc, Hrun. eexists. split; [reflexivity|]. split.
      * cbn [length seq]. rewrite filter_cons.
        destruct (decide (j <> i)); [|contradiction].
        rewrite fmap_cons, writes_app, writes_cons_write, writes_forward_log, Hw.
        unfold sender_at. rewrite Hsc. reflexivity.
      * intros k c' a' Hk Hki. destruct k as [|k].
        -- simpl in Hk. inversion Hk; subst. rewrite Nat.add_0_r in *.
           exists sc, from, to, dp, [], evs. repeat (split; [assumption|]).
           reflexivity.
        -- simpl in Hk. replace (j + S k) with (S j + k) in * by lia.
           destruct (Hev k c' a' Hk Hki)
             as (sc' & from' & to' & dp' & pre & post & H1 & H2 & H3 & H4 & ->).
           exists sc', from', to', dp',
             ((EvWrite (g, i, p) j (Some sc) pk (ans_write a) ::
               forward_log cfg (w_group (at_pc w0 (WFanout n src pk j))) from to dp n src
                 (ans_write a)) ++ pre), post.
           repeat (split; [assumption|]).
           apply app_assoc.
Qed.

Lemma wrun_app cfg reg l1 l2 w :
  wrun cfg reg (l1 ++ l2) w =
  let '(w1, e1) := wrun cfg reg l1 w in
  let '(w2, e2) := wrun cfg reg l2 w1 in
  (w2, e1 ++ e2).
Proof.
  revert w. induction l1 as [|[c a] l1 IH]; intros w; simpl.
  - destruct (wrun cfg reg l2 w). reflexivity.
  - destruct (wstep cfg reg c a w) as [w1 e1]. rewrite IH.
    destruct (wrun cfg reg l1 w1) as [w2 e2].
    destruct (wrun cfg reg l2 w2) as [w3 e3]. rewrite app_assoc. reflexivity.
Qed.

Lemma elem_of_peers cfg i j :
  j ∈ peers cfg i <-> j < length (ifaces cfg) /\ j <> i.
Proof.
  unfold peers. rewrite list_elem_of_filter, elem_of_seq. split; intros; intuition lia.
Qed.

(** One whole pass of the receive loop: the read that delivers [d], the
    fan-out, and the way back to the [select]. *)
Lemma wrun_receive cfg reg w g i p src d c0 a0 inputs :
  wf_config cfg -> registry_ok cfg reg -> worker_inv cfg reg w ->
  w_triple w = (g, i, p) -> w_pc w = WRead ->
  ans_read a0 = ReadOk d src ->
  length inputs = S (length (ifaces cfg)) ->
  exists w1 evs tail,
    wrun cfg reg ((c0, a0) :: inputs) w = (at_pc w1 WSelect, evs ++ tail) /\
    writes tail = [] /\
    worker_inv cfg reg (at_pc w1 WSelect) /\
    w_group w1 = w_group w /\
    writes evs =
      (fun j => ((g, i, p), j, sender_at reg g j p, take (Z.to_nat BufferLen) d)) <$> peers cfg i /\
    forall k c a, inputs !! k = Some (c, a) -> k < length (ifaces cfg) -> k <> i ->
      exists sc from to dp pre post,
        grid_get (senders reg) (g, k, p) = Some (Some sc) /\
        ifaces cfg !! i = Some from /\ ifaces cfg !! k = Some to /\
        destPorts cfg !! p = Some dp /\
        evs = pre ++ EvWrite (g, i, p) k (Some sc) (take (Z.to_nat BufferLen) d) (ans_write a) ::
                forward_log cfg (w_group w) from to dp
                  (Z.of_nat (Nat.min (length d) (Z.to_nat BufferLen))) src (ans_write a) ++ post.
Proof.
  intros Hwf Hreg Hinv Ht Hpc Hread Hlen.
  pose proof Hinv as [Hin Hloc]. rewrite Hpc, Ht in Hloc.
  destruct Hloc as (Hlc & Hgrp & Hport & Hif & Hbuf).
  destruct (registry_ok_conn cfg reg (g, i, p) Hreg) as [lc Hlc']; [rewrite <- Ht; exact Hin|].
  assert (Hl : w_lconn w = Some lc) by congruence.
  destruct (read_into_length (w_buf w) d) as (Hblen & Hn & Htake).
  rewrite <- (take_drop (length (ifaces cfg)) inputs).
  set (fan := take (length (ifaces cfg)) inputs).
  assert (Hfan : length fan = length (ifaces cfg)) by (unfold fan; rewrite length_take; lia).
  destruct (drop (length (ifaces cfg)) inputs) as [|[cl al] rest] eqn:Hdrop.
  { apply (f_equal length) in Hdrop. rewrite length_drop in Hdrop. simpl in Hdrop. lia. }
  assert (rest = []) as ->.
  { apply (f_equal length) in Hdrop. rewrite length_drop in Hdrop. simpl in Hdrop.
    destruct rest; [reflexivity|simpl in Hdrop; lia]. }
  cbn [wrun]. unfold wstep at 1. rewrite Ht, Hpc, Hl, Hread.
  destruct (read_into (w_buf w) d) as [n buf'] eqn:Hri. simpl in Hblen, Hn, Htake.
  set (pk := take n buf'). set (w1 := Build_Worker _ _ buf' _ _ _ _).
  assert (Hinv1 : worker_inv cfg reg (at_pc w1 (WFanout (Z.of_nat n) src pk 0))).
  { split; [simpl; rewrite <- Ht; exact Hin|]. simpl.
    repeat split; try assumption; congruence. }
  destruct (wrun_fanout cfg reg w1 g i p (Z.of_nat n) src pk Hwf Hreg eq_refl fan 0 Hinv1)
    as (evs & Hrun & Hw & Hev); [simpl; exact Hfan|].
  change w1 with (at_pc w1 (WFanout (Z.of_nat n) src pk 0)).
  rewrite wrun_app, Hrun. cbn [wrun].
  rewrite (wstep_fanout_end cfg reg cl al _ g i p (Z.of_nat n) src pk (length (ifaces cfg)))
    by (reflexivity || assumption || lia).
  rewrite at_pc_at_pc.
  eexists w1, (EvRead _ _ _ :: evs), _. split.
  { rewrite app_nil_r. reflexivity. }
  split. { simpl. destruct (verbose cfg); reflexivity. }
  split. { exact Hinv1. }
  split. { reflexivity. }
  assert (Hpk : pk = take (Z.to_nat BufferLen) d).
  { unfold pk. rewrite Htake, Hbuf. reflexivity. }
  split.
  - change (writes (EvRead (g, i, p) (Some lc) (ReadOk d src) :: evs)) with (writes evs).
    rewrite Hw, Hfan, Hpk. reflexivity.
  - intros k c a Hk Hkl Hki.
    assert (Hk' : fan !! k = Some (c, a)).
    { rewrite lookup_app_l in Hk; [exact Hk|]. fold fan. lia. }
    destruct (Hev k c a Hk' Hki) as (sc & from & to & dp & pre & post & H1 & H2 & H3 & H4 & ->).
    simpl in H1, H3. exists sc, from, to, dp, (EvRead (g, i, p) (Some lc) (ReadOk d src) :: pre), post.
    repeat (split; [assumption|]). rewrite Hpk, Hn, Hbuf. reflexivity.
Qed.

(** ** From startup to the running process *)

Lemma elem_of_pairs_of_2 k t ts : t ∈ ts -> (k, t) ∈ pairs_of ts.
Proof.
  intros Ht. unfold pairs_of. apply list_elem_of_bind. exists t. split; [|exact Ht].
  destruct k; [left|right; left].
Qed.

Lemma prov_inv_registry_ok {W} cfg tr0 reg (st : Proc W) :
  prov_inv cfg tr0 (cfg_triples cfg) reg st -> registry_ok cfg reg.
Proof.
  intros (Hdc & Hds & delta & _ & _ & Hkeys & Hreg).
  split; [exact Hdc|]. split; [exact Hds|].
  intros t Ht.
  assert (Hk : forall k, exists c, reg_get k reg t = Some (Some c)).
  { intros k. pose proof (elem_of_pairs_of_2 k t _ Ht) as Hin.
    rewrite <- Hkeys in Hin. apply list_elem_of_fmap in Hin as ([[k' t'] c] & Heq & Hin).
    simpl in Heq. inversion Heq; subst. exists c. apply Hreg. exact Hin. }
  destruct (Hk KListen) as [lc Hlc]. destruct (Hk KDial) as [sc Hsc]. eauto.
Qed.

Lemma main_startup_ok {W} (net : NetLib W) f st cfg reg st' :
  main_startup net f st = (Ret (cfg, reg), st') ->
  parseFlags f = inr cfg /\ wf_config cfg /\ registry_ok cfg reg /\
  prov_inv cfg (trace st) (cfg_triples cfg) reg st'.
Proof.
  intros Hrun. pose proof (main_startup_spec net f st) as H. rewrite Hrun in H.
  destruct H as [Hf Hinv]. split; [exact Hf|]. split; [|split].
  - apply (parseFlags_lengths f). exact Hf.
  - eapply prov_inv_registry_ok. exact Hinv.
  - exact Hinv.
Qed.

Lemma startup_abc :
  main_startup (toy_net 0 0) flags_abc toy_start =
    (Ret (config_abc, registry_abc), (main_startup (toy_net 0 0) flags_abc toy_start).2).
Proof. vm_compute. reflexivity. Qed.

Lemma config_abc_ok : wf_config config_abc /\ registry_ok config_abc registry_abc.
Proof.
  destruct (main_startup_ok _ _ _ _ _ _ startup_abc) as (_ & Hwf & Hreg & _). auto.
Qed.

Lemma worker_A_reading_inv : worker_inv config_abc registry_abc worker_A_reading.
Proof.
  split; [apply elem_of_cfg_triples; simpl; lia|].
  unfold worker_A_reading.
  cbn [w_pc w_triple w_lconn w_group w_port w_ifaceName w_buf].
  repeat (split; [reflexivity|]). apply length_replicate.
Qed.

(** C1. A worker for (group g, interface i, port index p) that reads a
    datagram [d] from its listen socket goes once through the interface list
    and is back at the [select]; the writes it makes on the way are exactly
    one per interface index other than [i], in list order, each on the sender
    of (g, j, p), each with the bytes that were read: [d] itself whenever it
    fits the buffer of 65535 bytes, the empty datagram included.  No write
    goes to index [i], and none is repeated. *)
Theorem datagram_forwarded_once_to_every_peer cfg reg w g i p src d c0 a0 inputs :
  wf_config cfg -> registry_ok cfg reg -> worker_inv cfg reg w ->
  w_triple w = (g, i, p) -> w_pc w = WRead ->
  ans_read a0 = ReadOk d src ->
  length inputs = S (length (ifaces cfg)) ->
  let packet := take (Z.to_nat BufferLen) d in
  (length d <= Z.to_nat BufferLen -> packet = d) /\
  length packet = Nat.min (length d) (Z.to_nat BufferLen) /\
  (forall j, j ∈ peers cfg i <-> j < length (ifaces cfg) /\ j <> i) /\
  NoDup (peers cfg i) /\
  (forall j, j ∈ peers cfg i -> exists sc, sender_at reg g j p = Some sc) /\
  exists w' evs,
    wrun cfg reg ((c0, a0) :: inputs) w = (w', evs) /\
    w_pc w' = WSelect /\
    writes evs = (fun j => ((g, i, p), j, sender_at reg g j p, packet)) <$> peers cfg i.
Proof.
  intros Hwf Hreg Hinv Ht Hpc Hread Hlen packet.
  split. { intros Hd. unfold packet. apply take_ge. exact Hd. }
  split. { unfold packet. rewrite length_take. lia. }
  split. { apply elem_of_peers. }
  split. { unfold peers. apply NoDup_filter, NoDup_seq. }
  split.
  { intros j Hj. apply elem_of_peers in Hj as [Hj _].
    destruct Hinv as [Hin _]. rewrite Ht in Hin.
    apply elem_of_cfg_triples in Hin as (Hg & _ & Hp).
    destruct (registry_ok_sender cfg reg (g, j, p) Hreg) as [sc Hsc];
      [apply elem_of_cfg_triples; auto|].
    exists sc. unfold sender_at. rewrite Hsc. reflexivity. }
  destruct (wrun_receive cfg reg w g i p src d c0 a0 inputs Hwf Hreg Hinv Ht Hpc Hread Hlen)
    as (w1 & evs & tail & Hrun & Htail & _ & _ & Hw & _).
  exists (at_pc w1 WSelect), (evs ++ tail). split; [exact Hrun|]. split; [reflexivity|].
  rewrite writes_app, Htail, app_nil_r. exact Hw.
Qed.

Lemma datagram_forwarded_once_to_every_peer_witness :
  exists w' evs,
    wrun config_abc registry_abc
      ((false, deliver "NOTIFY") :: replicate 4 (false, no_error_answer)) worker_A_reading
      = (w', evs) /\
    w_pc w' = WSelect /\
    writes evs = [((0, 0, 0), 1, Some 3, runes "NOTIFY"); ((0, 0, 0), 2, Some 5, runes "NOTIFY")].
Proof.
  destruct config_abc_ok as [Hwf Hreg].
  exact (proj2 (proj2 (proj2 (proj2 (proj2
    (datagram_forwarded_once_to_every_peer config_abc registry_abc worker_A_reading
       0 0 0 _ (runes "NOTIFY") false (deliver "NOTIFY") (replicate 4 (false, no_error_answer))
       Hwf Hreg worker_A_reading_inv eq_refl eq_refl eq_refl eq_refl)))))).
Defined.

(** C5. In the pass that follows the read of a datagram, a write that fails
    for the peer [j0] is followed at once by its "Forward error" log line, the
    sender of every peer (those after [j0] too) is still written to with the
    same payload, and the worker is back at the [select] of its loop, not on
    its way out. *)
Theorem failed_write_does_not_stop_fanout cfg reg w g i p src d c0 a0 inputs j0 cj aj err :
  wf_config cfg -> registry_ok cfg reg -> worker_inv cfg reg w ->
  w_triple w = (g, i, p) -> w_pc w = WRead ->
  ans_read a0 = ReadOk d src ->
  length inputs = S (length (ifaces cfg)) ->
  j0 ∈ peers cfg i -> inputs !! j0 = Some (cj, aj) -> ans_write aj = Some err ->
  let packet := take (Z.to_nat BufferLen) d in
  exists w' evs,
    wrun cfg reg ((c0, a0) :: inputs) w = (w', evs) /\
    (exists sc from to dp pre post,
       ifaces cfg !! i = Some from /\ ifaces cfg !! j0 = Some to /\
       destPorts cfg !! p = Some dp /\
       evs = pre ++ EvWrite (g, i, p) j0 (Some sc) packet (Some err) ::
                    EvLog (ForwardError (w_group w) from to dp err) :: post) /\
    (forall j, j ∈ peers cfg i ->
       exists sc r, sender_at reg g j p = Some sc /\
                    EvWrite (g, i, p) j (Some sc) packet r ∈ evs) /\
    w_pc w' = WSelect.
Proof.
  intros Hwf Hreg Hinv Ht Hpc Hread Hlen Hj0 Hin0 Herr packet.
  destruct (wrun_receive cfg reg w g i p src d c0 a0 inputs Hwf Hreg Hinv Ht Hpc Hread Hlen)
    as (w1 & evs & tail & Hrun & Htail & _ & _ & _ & Hev).
  exists (at_pc w1 WSelect), (evs ++ tail). split; [exact Hrun|]. split; [|split].
  - apply elem_of_peers in Hj0 as [Hlt Hne].
    destruct (Hev j0 cj aj Hin0 Hlt Hne)
      as (sc & from & to & dp & pre & post & _ & H2 & H3 & H4 & ->).
    rewrite Herr. simpl.
    exists sc, from, to, dp, pre, (post ++ tail). repeat (split; [assumption|]).
    rewrite <- app_assoc. reflexivity.
  - intros j Hj. apply elem_of_peers in Hj as [Hlt Hne].
    destruct (lookup_lt_is_Some_2 inputs j) as [[c a] Hja]; [lia|].
    destruct (Hev j c a Hja Hlt Hne)
      as (sc & from & to & dp & pre & post & H1 & _ & _ & _ & ->).
    exists sc, (ans_write a). split; [unfold sender_at; rewrite H1; reflexivity|].
    rewrite !elem_of_app. left. right. left.
  - reflexivity.
Qed.

Lemma failed_write_does_not_stop_fanout_witness :
  exists w' evs,
    wrun config_abc registry_abc
      ((false, deliver "NOTIFY") ::
       [(false, no_error_answer); (false, write_fails); (false, no_error_answer);
        (false, no_error_answer)]) worker_A_reading = (w', evs) /\
    (forall j, j ∈ peers config_abc 0 ->
       exists sc r, sender_at registry_abc 0 j 0 = Some sc /\
                    EvWrite (0, 0, 0) j (Some sc) (runes "NOTIFY") r ∈ evs) /\
    w_pc w' = WSelect.
Proof.
  destruct config_abc_ok as [Hwf Hreg].
  destruct (failed_write_does_not_stop_fanout config_abc registry_abc worker_A_reading
              0 0 0 _ (runes "NOTIFY") false (deliver "NOTIFY")
              [(false, no_error_answer); (false, write_fails); (false, no_error_answer);
               (false, no_error_answer)] 1 false write_fails (toy_error "network is down")
              Hwf Hreg worker_A_reading_inv eq_refl eq_refl eq_refl eq_refl)
    as (w' & evs & Hrun & _ & Hall & Hpc).
  - apply elem_of_peers. simpl. lia.
  - reflexivity.
  - reflexivity.
  - exists w', evs. auto.
Defined.

(** ** What a step of a worker can be *)

Opaque BufferLen.

Ltac no_done :=
  let t := fresh "t" in let Ht := fresh "Ht" in
  intros t Ht;
  repeat (apply elem_of_cons in Ht as [Ht|Ht]; [discriminate|]);
  apply elem_of_nil in Ht; exact Ht.

(** Leaves the invariant of the new worker state as the only goal. *)
Ltac wspec_go :=
  cbn [w_triple w_pc w_buf w_lconn w_group w_port w_ifaceName at_pc];
  split; [|
    split; [discriminate|];
    split; [reflexivity|];
    split; [repeat constructor|];
    split; [first [intros _; split; reflexivity | intros ?; discriminate]|];
    split; [first [intros _; split; [reflexivity|no_done]
                  | intros Hx; exfalso; apply Hx; reflexivity]|];
    first [intros ?; discriminate
          | intros _ ?; discriminate
          | intros _ _; cbn [wfuel]; lia] ].

Lemma wstep_spec cfg reg c a w :
  wf_config cfg -> registry_ok cfg reg ->
  worker_inv cfg reg w -> w_pc w <> WPanicked ->
  let '(w', evs) := wstep cfg reg c a w in
  worker_inv cfg reg w' /\ w_pc w' <> WPanicked /\ w_triple w' = w_triple w /\
  Forall (is_worker_output (w_triple w)) evs /\
  (w_pc w = WReturn -> w_pc w' = WDone /\ evs = [EvDone (w_triple w)]) /\
  (w_pc w <> WReturn ->
     (is_done (w_pc w') = is_done (w_pc w)) /\
     forall t, EvDone t ∉ evs) /\
  (c = true -> is_done (w_pc w) = false ->
     wfuel (length (ifaces cfg)) (w_pc w') < wfuel (length (ifaces cfg)) (w_pc w)).
Proof.
  intros Hwf Hreg [Hin Hloc] Hnp.
  destruct w as [[[g i] p] pc buf lconn group port ifName].
  cbn [w_triple w_pc w_buf w_lconn w_group w_port w_ifaceName] in *.
  pose proof Hin as Hin'. apply elem_of_cfg_triples in Hin' as (Hg & Hi & Hp).
  unfold wstep. cbn [w_triple w_pc w_buf w_lconn w_group w_port w_ifaceName].
  destruct pc; try contradiction.
  - (* WStart *)
    destruct (registry_ok_conn cfg reg (g, i, p) Hreg Hin) as [lc Hlc]. rewrite Hlc.
    destruct (lookup_lt_is_Some_2 (groups cfg) g Hg) as [group' Hgr]. rewrite Hgr.
    destruct (lookup_lt_is_Some_2 (ports cfg) p Hp) as [port' Hpo]. rewrite Hpo.
    destruct (lookup_lt_is_Some_2 (ifaces cfg) i Hi) as [ifName' Hif]. rewrite Hif.
    wspec_go.
    split; [exact Hin|]. cbn [w_triple w_pc w_buf w_lconn w_group w_port w_ifaceName].
    repeat (split; [assumption|]). apply length_replicate.
  - (* WSelect *)
    destruct c; [destruct (verbose cfg)|]; wspec_go; (split; [exact Hin|exact Hloc]).
  - (* WSetDeadline *)
    destruct (registry_ok_conn cfg reg (g, i, p) Hreg Hin) as [lc Hlc].
    assert (lconn = Some lc) as -> by (destruct Hloc as [Hl _]; congruence).
    wspec_go. split; [exact Hin|exact Hloc].
  - (* WRead *)
    destruct (registry_ok_conn cfg reg (g, i, p) Hreg Hin) as [lc Hlc0].
    assert (lconn = Some lc) as -> by (destruct Hloc as [Hl _]; congruence).
    destruct Hloc as (Hlc & Hgrp & Hport & Hif & Hbuf).
    destruct (ans_read a) as [d src|err].
    + destruct (read_into buf d) as [n buf'] eqn:Hri.
      pose proof (read_into_length buf d) as (Hblen & _ & _). rewrite Hri in Hblen.
      cbn [snd] in Hblen.
      wspec_go.
      split; [exact Hin|]. cbn [w_triple w_pc w_buf w_lconn w_group w_port w_ifaceName].
      repeat (split; [assumption|]). congruence.
    + destruct (err_isOpError err && err_timeout err); wspec_go;
        (split; [exact Hin|]); cbn [w_triple w_pc w_buf w_lconn w_group w_port w_ifaceName];
        repeat (split; [assumption|]); assumption.
  - (* WFanout *)
    destruct (otherIfIdx <? length (ifaces cfg)) eqn:Hlt.
    + apply Nat.ltb_lt in Hlt.
      destruct (otherIfIdx =? i) eqn:Heq.
      * wspec_go. split; [exact Hin|exact Hloc].
      * destruct (registry_ok_sender cfg reg (g, otherIfIdx, p) Hreg) as [sc Hsc];
          [apply elem_of_cfg_triples; auto|]. rewrite Hsc.
        destruct (lookup_lt_is_Some_2 (ifaces cfg) i Hi) as [from Hfrom]. rewrite Hfrom.
        destruct (lookup_lt_is_Some_2 (ifaces cfg) otherIfIdx Hlt) as [to Hto]. rewrite Hto.
        destruct (lookup_lt_is_Some_2 (destPorts cfg) p) as [dp Hdp];
          [unfold wf_config in Hwf; lia|]. rewrite Hdp.
        destruct (ans_write a); [|destruct (verbose cfg)]; wspec_go;
          (split; [exact Hin|exact Hloc]).
    + apply Nat.ltb_ge in Hlt.
      destruct (verbose cfg); wspec_go; (split; [exact Hin|exact Hloc]).
  - (* WReturn *)
    wspec_go. split; [exact Hin|exact Hloc].
  - (* WDone *)
    wspec_go. split; [exact Hin|exact Hloc].
Qed.

(* ================================================================== *)
(** * Further properties of the code                                   *)
(* ================================================================== *)

(** ** [strings.TrimSpace] and [strings.Split] as the program uses them *)

Lemma isSpace_comma : isSpace rune_comma = false.
Proof. reflexivity. Qed.

Lemma TrimLeftSpace_app_space l s :
  forallb isSpace l = true -> TrimLeftSpace (l ++ s) = TrimLeftSpace s.
Proof.
  induction l as [|r l IH]; simpl; [reflexivity|].
  intros H. apply andb_prop in H as [Hr Hl]. rewrite Hr. auto.
Qed.

Lemma TrimLeftSpace_fixed r s :
  isSpace r = false -> TrimLeftSpace (r :: s) = r :: s.
Proof. intros H. simpl. rewrite H. reflexivity. Qed.

Lemma TrimLeftSpace_split s :
  exists l, s = l ++ TrimLeftSpace s /\ forallb isSpace l = true /\
            starts_with_space (TrimLeftSpace s) = false.
Proof.
  induction s as [|r s (l & Hs & Hl & Hh)]; simpl.
  - exists []. auto.
  - destruct (isSpace r) eqn:Hr.
    + exists (r :: l). simpl. rewrite Hr, Hl. split; [congruence|auto].
    + exists []. simpl. rewrite Hr. auto.
Qed.

Lemma TrimLeftSpace_id s : starts_with_space s = false -> TrimLeftSpace s = s.
Proof. destruct s as [|r s]; simpl; [reflexivity|]. intros ->. reflexivity. Qed.

Lemma forallb_rev {A} (f : A -> bool) l : forallb f (rev l) = forallb f l.
Proof.
  induction l as [|x l IH]; [reflexivity|].
  simpl. rewrite forallb_app, IH. simpl. rewrite andb_true_r, andb_comm. reflexivity.
Qed.

Lemma starts_with_space_prefix s t :
  s <> [] -> starts_with_space (s ++ t) = starts_with_space s.
Proof. destruct s; [contradiction|reflexivity]. Qed.

(** [strings.TrimSpace] cuts white space off both ends and nothing else:
    the argument is the result between two runs of white space, and the result
    neither starts nor ends with white space. *)
Lemma TrimSpace_split s :
  exists l r, s = l ++ TrimSpace s ++ r /\
              forallb isSpace l = true /\ forallb isSpace r = true /\
              trimmed (TrimSpace s).
Proof.
  destruct (TrimLeftSpace_split s) as (l & Hs & Hl & Hh).
  destruct (TrimLeftSpace_split (rev (TrimLeftSpace s))) as (r' & Hr & Hr' & Hh').
  unfold TrimSpace. set (t := TrimLeftSpace s) in *.
  set (u := TrimLeftSpace (rev t)) in *.
  assert (Ht : t = rev u ++ rev r').
  { rewrite <- (rev_involutive t), Hr, rev_app_distr. reflexivity. }
  exists l, (rev r'). split; [rewrite <- Ht; exact Hs|].
  split; [exact Hl|]. split; [rewrite forallb_rev; exact Hr'|].
  split; [|rewrite rev_involutive; exact Hh'].
  destruct (rev u) as [|x ru] eqn:Hu; [reflexivity|].
  rewrite Ht in Hh. exact Hh.
Qed.

Lemma TrimSpace_trimmed s : trimmed s -> TrimSpace s = s.
Proof.
  intros [H1 H2]. unfold TrimSpace.
  rewrite (TrimLeftSpace_id s H1), (TrimLeftSpace_id (rev s) H2). apply rev_involutive.
Qed.

(** [strings.TrimSpace] is idempotent, and white space around a string
    that has none at its own ends is all it removes. *)
Lemma TrimSpace_padded l x r :
  forallb isSpace l = true -> forallb isSpace r = true -> trimmed x ->
  TrimSpace (l ++ x ++ r) = x /\ TrimSpace (TrimSpace (l ++ x ++ r)) = x.
Proof.
  intros Hl Hr [H1 H2].
  assert (H : TrimSpace (l ++ x ++ r) = x).
  { unfold TrimSpace. rewrite (TrimLeftSpace_app_space l _ Hl).
    destruct x as [|c x].
    - simpl. rewrite (TrimLeftSpace_all_space r Hr). reflexivity.
    - rewrite (TrimLeftSpace_id ((c :: x) ++ r)) by exact H1.
      rewrite rev_app_distr, TrimLeftSpace_app_space by (rewrite forallb_rev; exact Hr).
      rewrite (TrimLeftSpace_id _ H2). apply rev_involutive. }
  split; [exact H|]. rewrite H. apply TrimSpace_trimmed. split; assumption.
Qed.

Lemma TrimSpace_padded_witness :
  TrimSpace (runes "  " ++ runes "eth0" ++ runes " ") = runes "eth0".
Proof.
  refine (proj1 (TrimSpace_padded (runes "  ") (runes "eth0") (runes " ") _ _ _));
    [reflexivity|reflexivity|split; reflexivity].
Defined.

Lemma Split_no_sep s sep : sep ∉ s -> Split s sep = [s].
Proof.
  induction s as [|r s IH]; [reflexivity|].
  intros H. apply not_elem_of_cons in H as [Hne Hs]. simpl.
  destruct (N.eqb_spec r sep) as [->|_]; [contradiction|].
  rewrite (IH Hs). reflexivity.
Qed.

Lemma Split_app_sep p s sep :
  sep ∉ p -> Split (p ++ sep :: s) sep = p :: Split s sep.
Proof.
  induction p as [|r p IH]; intros H.
  - simpl. rewrite N.eqb_refl. reflexivity.
  - apply not_elem_of_cons in H as [Hne Hp]. simpl.
    destruct (N.eqb_spec r sep) as [->|_]; [contradiction|].
    rewrite (IH Hp). reflexivity.
Qed.

Lemma Split_Join ps sep :
  ps <> [] -> Forall (fun p => sep ∉ p) ps -> Split (Join ps sep) sep = ps.
Proof.
  induction ps as [|p ps IH]; [contradiction|].
  intros _ H. inversion H as [|? ? Hp Hps]; subst.
  destruct ps as [|q ps].
  - simpl. apply Split_no_sep. exact Hp.
  - change (Join (p :: q :: ps) sep) with (p ++ sep :: Join (q :: ps) sep).
    rewrite Split_app_sep by exact Hp. rewrite IH; [reflexivity|discriminate|exact Hps].
Qed.

Lemma Split_pieces s sep : Forall (fun p => sep ∉ p) (Split s sep) /\ Split s sep <> [].
Proof.
  induction s as [|r s [IH Hne]]; simpl.
  - split; [|discriminate]. repeat constructor. apply not_elem_of_nil.
  - destruct (N.eqb_spec r sep) as [->|Hr].
    + split; [|discriminate]. constructor; [apply not_elem_of_nil|exact IH].
    + destruct (Split s sep) as [|p ps]; [contradiction|].
      inversion IH; subst. split; [|discriminate].
      constructor; [|assumption]. apply not_elem_of_cons. auto.
Qed.

(** ** [parseCommaSeparated] *)

Lemma parseCommaSeparated_loop_eq parts : forall acc,
  parseCommaSeparated_loop parts acc =
  acc ++ filter (fun x => x <> []) (TrimSpace <$> parts).
Proof.
  induction parts as [|part parts IH]; intros acc.
  - simpl. rewrite app_nil_r. reflexivity.
  - cbn [parseCommaSeparated_loop]. rewrite fmap_cons, filter_cons.
    destruct (TrimSpace part) as [|r t] eqn:Ht.
    + rewrite IH. case_decide; [contradiction|reflexivity].
    + rewrite IH, <- app_assoc. case_decide as Hd; [reflexivity|].
      first [discriminate Hd | exfalso; apply Hd; discriminate].
Qed.

Lemma parseCommaSeparated_item input x :
  x ∈ parseCommaSeparated input -> list_item x.
Proof.
  unfold parseCommaSeparated. rewrite parseCommaSeparated_loop_eq. simpl.
  rewrite list_elem_of_filter, list_elem_of_fmap.
  intros [Hne (piece & -> & Hin)].
  destruct (TrimSpace_split piece) as (l & r & Hp & _ & _ & Htrim).
  destruct (Split_pieces input rune_comma) as [Hall _].
  rewrite Forall_forall in Hall. specialize (Hall piece Hin).
  split; [exact Hne|]. split; [|exact Htrim].
  intros Hc. apply Hall. rewrite Hp. rewrite !elem_of_app. auto.
Qed.

(** X1. Every string [parseCommaSeparated] returns is an item: it is not empty,
    has no comma in it and no white space at its ends. *)
Theorem parseCommaSeparated_items input x :
  x ∈ parseCommaSeparated input -> list_item x.
Proof. exact (parseCommaSeparated_item input x). Qed.

Lemma parseCommaSeparated_items_witness : list_item (runes "eth1").
Proof.
  apply (parseCommaSeparated_items (runes " eth0, eth1 ,,vlan3 ")).
  vm_compute. right. left.
Defined.

Lemma well_padded_no_comma item : well_padded item -> rune_comma ∉ padded item.
Proof.
  destruct item as [[l x] r]. intros (Hl & (_ & Hx & _) & Hr). simpl.
  assert (Hsp : forall s, forallb isSpace s = true -> rune_comma ∉ s).
  { intros s Hs Hin. rewrite forallb_forall in Hs.
    apply list_elem_of_In in Hin. apply Hs in Hin. discriminate. }
  rewrite !not_elem_of_app. auto.
Qed.

Lemma trim_padded items :
  Forall well_padded items ->
  filter (fun x => x <> []) (TrimSpace <$> (padded <$> items)) =
  (fun item => item.1.2) <$> items.
Proof.
  induction 1 as [|[[l x] r] items (Hl & (Hne & Hc & Htrim) & Hr) _ IH]; [reflexivity|].
  rewrite !fmap_cons, filter_cons. simpl padded.
  rewrite (proj1 (TrimSpace_padded l x r Hl Hr Htrim)).
  case_decide; [|contradiction].
  simpl. f_equal. exact IH.
Qed.

(** X2. Items written out with commas between them and any white space around
    them are read back unchanged and in order; an empty list is written as the
    empty string and read back as the empty list. *)
Theorem parseCommaSeparated_Join items :
  Forall well_padded items ->
  parseCommaSeparated (Join (padded <$> items) rune_comma) = (fun item => item.1.2) <$> items.
Proof.
  intros Hall. unfold parseCommaSeparated. rewrite parseCommaSeparated_loop_eq. simpl.
  destruct items as [|item items]; [reflexivity|].
  rewrite Split_Join.
  - apply trim_padded. exact Hall.
  - discriminate.
  - apply Forall_fmap. eapply Forall_impl; [exact Hall|].
    intros it Hit. apply well_padded_no_comma. exact Hit.
Qed.

Lemma parseCommaSeparated_Join_witness :
  parseCommaSeparated
    (Join (padded <$> [(runes " ", runes "eth0", []); ([], runes "eth1", runes "  ")]) rune_comma)
  = [runes "eth0"; runes "eth1"].
Proof.
  apply (parseCommaSeparated_Join [(runes " ", runes "eth0", []); ([], runes "eth1", runes "  ")]).
  repeat constructor; try discriminate;
    intros Hin; vm_compute in Hin;
    repeat (apply elem_of_cons in Hin as [Hin|Hin]; [discriminate|]);
    inversion Hin.
Defined.

(** ** [parsePorts] *)

Lemma parsePorts_loop_Forall2 portStrs : forall acc ps,
  parsePorts_loop portStrs acc = inr ps <->
  exists new, ps = acc ++ new /\ Forall2 port_of portStrs new.
Proof.
  induction portStrs as [|p rest IH]; intros acc ps; simpl.
  - split.
    + intros H. inversion H; subst. exists []. rewrite app_nil_r. split; [reflexivity|constructor].
    + intros (new & -> & H). inversion H; subst. rewrite app_nil_r. reflexivity.
  - split.
    + destruct (Sscanf_d p) as [e|port] eqn:Hs; [discriminate|].
      destruct ((port <=? 0) || (port >? 65535))%Z eqn:Hr; [discriminate|].
      intros H. apply IH in H as (new & -> & Hall).
      exists (port :: new). rewrite <- app_assoc. split; [reflexivity|].
      constructor; [|exact Hall]. split; [exact Hs|].
      apply orb_false_elim in Hr as [H1 H2]. unfold valid_port. lia.
    + intros (new & -> & H). inversion H as [|? port ? new' [Hs Hv] Hall]; subst.
      rewrite Hs. unfold valid_port in Hv.
      replace ((port <=? 0) || (port >? 65535))%Z with false
        by (symmetry; apply orb_false_intro; lia).
      apply IH. exists new'. rewrite <- app_assoc. split; [reflexivity|exact Hall].
Qed.

Lemma parsePorts_Forall2 portStrs ps :
  parsePorts portStrs = inr ps <-> Forall2 port_of portStrs ps.
Proof.
  unfold parsePorts. rewrite parsePorts_loop_Forall2. split.
  - intros (new & -> & H). exact H.
  - intros H. exists ps. split; [reflexivity|exact H].
Qed.

(** X3. [parsePorts] succeeds exactly when every string scans as an integer in
    [1, 65535]; the result then holds those integers, one per string, in
    order.  In particular the empty list gives the empty list. *)
Theorem parsePorts_success_iff portStrs ps :
  parsePorts portStrs = inr ps <-> Forall2 port_of portStrs ps.
Proof. exact (parsePorts_Forall2 portStrs ps). Qed.

Lemma parsePorts_loop_failure portStrs : forall acc e,
  parsePorts_loop portStrs acc = inl e ->
  exists pre p post good,
    portStrs = pre ++ p :: post /\ Forall2 port_of pre good /\
    ((exists err, Sscanf_d p = inl err /\ e = InvalidPort p err) \/
     (exists port, Sscanf_d p = inr port /\ ~ valid_port port /\ e = PortOutOfRange port)).
Proof.
  induction portStrs as [|p rest IH]; intros acc e; simpl; [discriminate|].
  destruct (Sscanf_d p) as [err|port] eqn:Hs.
  - intros H. inversion H; subst. exists [], p, rest, []. split; [reflexivity|].
    split; [constructor|]. left. eauto.
  - destruct ((port <=? 0) || (port >? 65535))%Z eqn:Hr.
    + intros H. inversion H; subst. exists [], p, rest, []. split; [reflexivity|].
      split; [constructor|]. right. exists port. split; [exact Hs|]. split; [|reflexivity].
      unfold valid_port. apply orb_prop in Hr as [Hr|Hr]; lia.
    + intros H. apply IH in H as (pre & q & post & good & -> & Hgood & He).
      exists (p :: pre), q, post, (port :: good). split; [reflexivity|].
      split; [|exact He]. constructor; [|exact Hgood]. split; [exact Hs|].
      apply orb_false_elim in Hr as [H1 H2]. unfold valid_port. lia.
Qed.

(** X4. [parsePorts] stops at the first string that does not scan or whose
    number is outside [1, 65535]: the strings before it are fine, and the error
    is about that string (the scanner's error, or the number out of range). *)
Theorem parsePorts_failure portStrs e :
  parsePorts portStrs = inl e ->
  exists pre p post good,
    portStrs = pre ++ p :: post /\ Forall2 port_of pre good /\
    ((exists err, Sscanf_d p = inl err /\ e = InvalidPort p err) \/
     (exists port, Sscanf_d p = inr port /\ ~ valid_port port /\ e = PortOutOfRange port)).
Proof. apply parsePorts_loop_failure. Qed.

Lemma parsePorts_failure_witness :
  exists pre p post good,
    [runes "1900"; runes "70000"; runes "x"] = pre ++ p :: post /\
    Forall2 port_of pre good /\
    ((exists err, Sscanf_d p = inl err /\ PortOutOfRange 70000 = InvalidPort p err) \/
     (exists port, Sscanf_d p = inr port /\ ~ valid_port port /\
                   PortOutOfRange 70000 = PortOutOfRange port)).
Proof.
  apply (parsePorts_failure [runes "1900"; runes "70000"; runes "x"]).
  vm_compute. reflexivity.
Defined.

(** ** The scanner *)

Lemma isDigit_cases r :
  isDigit r = true ->
  isSpace r = false /\ isSign r = false /\ (r =? rune_CR)%N = false /\ (r =? rune_LF)%N = false.
Proof.
  unfold isDigit. intros H. apply andb_prop in H as [H1 H2].
  apply N.leb_le in H1, H2.
  assert (Hr : (r = 48 \/ r = 49 \/ r = 50 \/ r = 51 \/ r = 52 \/ r = 53 \/ r = 54 \/
                r = 55 \/ r = 56 \/ r = 57)%N) by lia.
  repeat destruct Hr as [->|Hr]; try subst r; repeat split; reflexivity.
Qed.

Lemma takeN_all s : forall n, (N.of_nat (length s) <= n)%N -> takeN n s = s.
Proof.
  induction s as [|r s IH]; intros n Hn; [reflexivity|].
  simpl length in Hn. cbn [takeN].
  destruct (N.eqb_spec n 0) as [->|Hne]; [lia|].
  rewrite IH by lia. reflexivity.
Qed.

Lemma spanDigits_app ds rest :
  forallb isDigit ds = true -> no_digit_ahead rest -> spanDigits (ds ++ rest) = (ds, rest).
Proof.
  intros Hds Hrest. induction ds as [|d ds IH]; cbn [app spanDigits].
  - destruct rest as [|r rest]; [reflexivity|].
    cbn [spanDigits]. cbn [no_digit_ahead] in Hrest. rewrite Hrest. reflexivity.
  - cbn [forallb] in Hds. apply andb_prop in Hds as [Hd Hds]. rewrite Hd, (IH Hds). reflexivity.
Qed.

Lemma decimal_nonneg_from ds : forall acc,
  forallb isDigit ds = true -> (0 <= acc)%Z ->
  (0 <= fold_left (fun acc d => 10 * acc + (Z.of_N d - 48)) ds acc)%Z.
Proof.
  induction ds as [|d ds IH]; intros acc Hds Hacc; simpl; [exact Hacc|].
  simpl in Hds. apply andb_prop in Hds as [Hd Hds]. apply IH; [exact Hds|].
  unfold isDigit in Hd. apply andb_prop in Hd as [H1 H2]. apply N.leb_le in H1, H2. lia.
Qed.

Lemma decimal_nonneg ds : forallb isDigit ds = true -> (0 <= decimal ds)%Z.
Proof. intros H. apply decimal_nonneg_from; [exact H|lia]. Qed.

(** A string that begins with digits scans as the number those digits
    spell, whatever follows them, as long as it is not another digit. *)
Lemma Sscanf_d_leading_digits ds rest :
  ds <> [] -> forallb isDigit ds = true -> no_digit_ahead rest ->
  (N.of_nat (length (ds ++ rest)) <= hugeWid)%N ->
  (decimal ds < 2 ^ 63)%Z ->
  Sscanf_d (ds ++ rest) = inr (decimal ds).
Proof.
  intros Hne Hds Hrest Hlen Hval.
  pose proof (decimal_nonneg ds Hds) as Hpos.
  unfold Sscanf_d. rewrite takeN_all by exact Hlen.
  destruct ds as [|d ds']; [contradiction|].
  pose proof Hds as Hds'. simpl in Hds'. apply andb_prop in Hds' as [Hd _].
  destruct (isDigit_cases d Hd) as (Hsp & Hsg & Hcr & Hlf).
  assert (Hskip : SkipSpace ((d :: ds') ++ rest) = inr ((d :: ds') ++ rest)).
  { simpl. rewrite Hcr, Hlf, Hsp. reflexivity. }
  rewrite Hskip. unfold scanInt. rewrite Hskip.
  cbn [app]. rewrite Hsg, Hd.
  change (d :: ds' ++ rest) with ((d :: ds') ++ rest).
  rewrite (spanDigits_app (d :: ds') rest Hds Hrest).
  unfold ParseInt64. cbn [negb andb].
  replace (2 ^ 63 <=? decimal (d :: ds'))%Z with false by (symmetry; apply Z.leb_gt; lia).
  unfold intBits.
  replace ((- 2 ^ (64 - 1) <=? decimal (d :: ds')) && (decimal (d :: ds') <? 2 ^ (64 - 1)))%Z
    with true; [reflexivity|].
  symmetry. apply andb_true_intro. split; [apply Z.leb_le|apply Z.ltb_lt]; lia.
Qed.

(** X5. [parsePorts] takes a port string by its leading digits: when these
    spell a port in [1, 65535], the string is accepted as that port whatever
    text follows the digits. *)
Theorem parsePorts_leading_digits ds rest :
  ds <> [] -> forallb isDigit ds = true -> no_digit_ahead rest ->
  (N.of_nat (length (ds ++ rest)) <= hugeWid)%N ->
  valid_port (decimal ds) ->
  parsePorts [ds ++ rest] = inr [decimal ds].
Proof.
  intros Hne Hds Hrest Hlen Hv. apply parsePorts_Forall2.
  constructor; [|constructor]. split; [|exact Hv].
  apply Sscanf_d_leading_digits; try assumption. unfold valid_port in Hv. lia.
Qed.

Lemma parsePorts_leading_digits_witness :
  parsePorts [runes "80" ++ runes ".5"] = inr [decimal (runes "80")].
Proof.
  apply (parsePorts_leading_digits (runes "80") (runes ".5")).
  - discriminate.
  - reflexivity.
  - reflexivity.
  - vm_compute. discriminate.
  - unfold valid_port. vm_compute. split; discriminate.
Defined.

(** X6. A port string is refused when it is empty, or when the first thing in
    it is neither white space, a sign nor a digit. *)
Theorem parsePorts_refuses_non_numeric p rest :
  (p = [] \/ exists r p', p = r :: p' /\ isSpace r = false /\ isSign r = false /\
                          isDigit r = false) ->
  exists err, parsePorts (p :: rest) = inl (InvalidPort p err).
Proof.
  intros [->|(r & p' & -> & Hsp & Hsg & Hd)].
  - exists ErrEOF. reflexivity.
  - exists ErrExpectedInteger. apply parsePorts_refuses_unscannable.
    unfold Sscanf_d. cbn [takeN]. change (hugeWid =? 0)%N with false. cbv iota.
    assert (Hlf : (r =? rune_LF)%N = false).
    { destruct (N.eqb_spec r rune_LF) as [->|]; [discriminate Hsp|reflexivity]. }
    assert (Hskip : forall s, SkipSpace (r :: s) = inr (r :: s)).
    { intros s. simpl. rewrite Hlf, Hsp.
      destruct ((r =? rune_CR)%N) eqn:Hcr; [|reflexivity].
      apply N.eqb_eq in Hcr. subst r. discriminate Hsp. }
    rewrite Hskip. unfold scanInt. rewrite Hskip. rewrite Hsg, Hd. reflexivity.
Qed.

Lemma parsePorts_refuses_non_numeric_witness :
  exists err, parsePorts [runes "http"; runes "1900"] = inl (InvalidPort (runes "http") err).
Proof.
  apply (parsePorts_refuses_non_numeric (runes "http") [runes "1900"]).
  right. eexists _, _. split; [reflexivity|]. repeat split; reflexivity.
Defined.

(** ** Flag handling in [main] *)

Lemma isEmpty_true s : isEmpty s = true <-> s = [].
Proof. destruct s; simpl; split; congruence. Qed.

Lemma isEmpty_false s : isEmpty s = false <-> s <> [].
Proof. destruct s; simpl; split; congruence. Qed.

(** X7. The required flags are checked in the order -i, -p, -g, before
    anything is parsed: the first one that is empty decides the message. *)
Theorem parseFlags_missing_flag f :
  (ifacesFlag f = [] -> parseFlags f = inl NoInterfacesSpecified) /\
  (ifacesFlag f <> [] -> portsFlag f = [] -> parseFlags f = inl NoPortsSpecified) /\
  (ifacesFlag f <> [] -> portsFlag f <> [] -> groupsFlag f = [] ->
   parseFlags f = inl NoGroupsSpecified) /\
  (forall msg, parseFlags f = inl msg -> config_error msg).
Proof.
  unfold parseFlags. repeat split.
  - intros ->. reflexivity.
  - intros Hi ->. apply isEmpty_false in Hi. rewrite Hi. reflexivity.
  - intros Hi Hp ->. apply isEmpty_false in Hi, Hp. rewrite Hi, Hp. reflexivity.
  - intros msg.
    repeat match goal with
           | |- (if ?b then _ else _) = _ -> _ => destruct b
           | |- match ?x with _ => _ end = _ -> _ => destruct x
           end; intros H; inversion H; exact I.
Qed.

Lemma parseFlags_missing_flag_witness :
  parseFlags (toy_flags "eth0" "" "239.255.255.250" "") = inl NoPortsSpecified.
Proof.
  refine (proj1 (proj2 (parseFlags_missing_flag
                          (toy_flags "eth0" "" "239.255.255.250" ""))) _ _);
    [discriminate|reflexivity].
Defined.

Lemma Forall_TrimSpace_items l :
  Forall list_item l -> map TrimSpace l = l.
Proof.
  induction 1 as [|x l (_ & _ & Hx) _ IH]; [reflexivity|].
  simpl. rewrite IH, (TrimSpace_trimmed x Hx). reflexivity.
Qed.

Lemma parseCommaSeparated_Forall input : Forall list_item (parseCommaSeparated input).
Proof. apply Forall_forall. intros x. apply parseCommaSeparated_item. Qed.

(** X8. What [main] hands to the core when the flags are accepted: the names
    as [parseCommaSeparated] returns them (the second trimming of the groups at
    main.go:103-105 changes nothing), ports that all lie in [1, 65535], as
    many destination ports as listen ports, and the verbosity as given. *)
Theorem parseFlags_config f cfg :
  parseFlags f = inr cfg ->
  ifacesFlag f <> [] /\ portsFlag f <> [] /\ groupsFlag f <> [] /\
  ifaces cfg = parseCommaSeparated (ifacesFlag f) /\
  groups cfg = parseCommaSeparated (groupsFlag f) /\
  parsePorts (parseCommaSeparated (portsFlag f)) = inr (ports cfg) /\
  Forall valid_port (ports cfg) /\ Forall valid_port (destPorts cfg) /\
  length (destPorts cfg) = length (ports cfg) /\
  verbose cfg = verboseFlag f.
Proof.
  intros Hf. pose proof (parseFlags_lengths f cfg Hf) as Hlen. revert Hf.
  unfold parseFlags.
  destruct (isEmpty (ifacesFlag f)) eqn:Hi; [discriminate|].
  destruct (isEmpty (portsFlag f)) eqn:Hp; [discriminate|].
  destruct (isEmpty (groupsFlag f)) eqn:Hg; [discriminate|].
  apply isEmpty_false in Hi, Hp, Hg.
  destruct (parsePorts (parseCommaSeparated (portsFlag f))) as [|ps] eqn:Hps; [discriminate|].
  rewrite (Forall_TrimSpace_items _ (parseCommaSeparated_Forall (groupsFlag f))).
  pose proof (parsePorts_valid _ _ Hps) as Hv.
  destruct (negb (isEmpty (destPortsFlag f))).
  - destruct (parsePorts (parseCommaSeparated (destPortsFlag f))) as [|ds] eqn:Hds;
      [discriminate|].
    pose proof (parsePorts_valid _ _ Hds) as Hvd.
    destruct (negb (length ds =? length ps)); [discriminate|].
    intros H. inversion H; subst. simpl in *. repeat split; assumption.
  - intros H. inversion H; subst. simpl in *. repeat split; assumption.
Qed.

Lemma parseFlags_config_witness :
  ifaces config_two_ifaces = parseCommaSeparated (ifacesFlag flags_two_ifaces) /\
  Forall valid_port (destPorts config_two_ifaces).
Proof.
  destruct (parseFlags_config flags_two_ifaces config_two_ifaces)
    as (_ & _ & _ & H1 & _ & _ & _ & H2 & _).
  - vm_compute. reflexivity.
  - split; assumption.
Defined.

(** ** [firstIPv4Addr] *)

Lemma To4_length ip v : To4 ip = Some v -> length v = 4 /\ To4 v = Some v.
Proof.
  unfold To4. destruct (Nat.eqb_spec (length ip) 4) as [H4|_].
  - intros H. inversion H; subst. split; [exact H4|].
    rewrite H4. reflexivity.
  - destruct (Nat.eqb_spec (length ip) 16) as [H16|_]; [|discriminate].
    match goal with |- (if ?b then _ else _) = _ -> _ => destruct b end; [|discriminate].
    intros H. inversion H; subst.
    assert (Hl : length (drop 12 ip) = 4) by (rewrite length_drop; lia).
    split; [exact Hl|]. rewrite Hl. reflexivity.
Qed.

Lemma firstIPv4Addr_loop_step {W} (net : NetLib W) ifi addr rest :
  firstIPv4Addr_loop net ifi (addr :: rest) =
  match addr_ipv4 addr with
  | Some v4 => inr (IP_String net v4)
  | None => firstIPv4Addr_loop net ifi rest
  end.
Proof.
  unfold addr_ipv4, addr_ip. simpl.
  destruct addr as [[ip|]|[ip|]|]; try reflexivity; destruct (To4 ip); reflexivity.
Qed.

(** X9. [firstIPv4Addr] answers with the text of the first entry of
    [ifi.Addrs()] that is an IPv4 address (a 4-byte address, or the last four
    bytes of an IPv4-mapped 16-byte one); entries without an [IP], of another
    type, or not IPv4 are passed over.  It makes the one call [Addrs], writes
    nothing to the log and never exits. *)
Theorem firstIPv4Addr_first {W} (net : NetLib W) ifi st w' pre addr post v4 :
  Interface_Addrs net ifi (world st) = (inr (pre ++ addr :: post), w') ->
  Forall (fun a => addr_ipv4 a = None) pre ->
  addr_ipv4 addr = Some v4 ->
  firstIPv4Addr net ifi st =
    (Ret (inr (IP_String net v4)), {| world := w'; trace := trace st |}) /\
  length v4 = 4.
Proof.
  intros Hcall Hpre Haddr. split.
  - unfold firstIPv4Addr, bind, call, ret. rewrite Hcall. simpl. f_equal. f_equal.
    clear Hcall. induction Hpre as [|a pre Ha _ IH].
    + simpl app. rewrite firstIPv4Addr_loop_step, Haddr. reflexivity.
    + simpl app. rewrite firstIPv4Addr_loop_step, Ha. exact IH.
  - unfold addr_ipv4 in Haddr. destruct (addr_ip addr) as [ip|]; [|discriminate].
    apply To4_length in Haddr as [Hl _]. exact Hl.
Qed.

Lemma firstIPv4Addr_first_witness :
  firstIPv4Addr (toy_net 0 0) {| if_Index := 1; if_Name := runes "eth0" |} toy_start =
    (Ret (inr (runes "10.0.0.1")), toy_start).
Proof.
  refine (proj1 (firstIPv4Addr_first (toy_net 0 0) {| if_Index := 1; if_Name := runes "eth0" |}
                   toy_start 0 [AddrOther] (AddrIPNet (Some [10; 0; 0; 1]%N)) []
                   [10; 0; 0; 1]%N _ _ _));
    [reflexivity|repeat constructor|reflexivity].
Defined.

(** X10. [firstIPv4Addr] fails in exactly two ways: the error of [Addrs] is
    handed on unchanged, and a list without any IPv4 address (the empty list
    included) gives the error that names the interface. *)
Theorem firstIPv4Addr_errors {W} (net : NetLib W) ifi st :
  (forall err w', Interface_Addrs net ifi (world st) = (inl err, w') ->
     firstIPv4Addr net ifi st = (Ret (inl err), {| world := w'; trace := trace st |})) /\
  (forall addrs w', Interface_Addrs net ifi (world st) = (inr addrs, w') ->
     (Forall (fun a => addr_ipv4 a = None) addrs <->
      firstIPv4Addr net ifi st =
        (Ret (inl (no_ipv4_error ifi)), {| world := w'; trace := trace st |}))).
Proof.
  split.
  - intros err w' Hcall. unfold firstIPv4Addr, bind, call, ret. rewrite Hcall. reflexivity.
  - intros addrs w' Hcall. unfold firstIPv4Addr, bind, call, ret. rewrite Hcall. simpl.
    clear Hcall. split.
    + intros Hall. f_equal. f_equal.
      induction Hall as [|a addrs Ha _ IH]; [reflexivity|].
      rewrite firstIPv4Addr_loop_step, Ha. exact IH.
    + intros H. inversion H as [Hloop]. clear H.
      induction addrs as [|a addrs IH]; [constructor|].
      rewrite firstIPv4Addr_loop_step in Hloop.
      destruct (addr_ipv4 a) eqn:Ha; [discriminate|]. constructor; auto.
Qed.

(** ** [initializeConnections] *)

Lemma length_pairs_of ts : length (pairs_of ts) = 2 * length ts.
Proof.
  unfold pairs_of. induction ts as [|t ts IH]; [reflexivity|].
  rewrite bind_cons, length_app, IH. simpl. lia.
Qed.

Lemma length_triples G I P : length (triples G I P) = G * I * P.
Proof.
  rewrite triples_unfold.
  assert (Hrow : forall g i : nat, length ((fun p => (g, i, p)) <$> seq 0 P) = P).
  { intros. rewrite length_fmap, length_seq. reflexivity. }
  assert (Hgrp : forall (g : nat) (l : list nat),
            length (i ← l; (fun p => (g, i, p)) <$> seq 0 P) = length l * P).
  { intros g l. induction l as [|i l IH]; [reflexivity|].
    rewrite bind_cons, length_app, IH, Hrow. simpl. lia. }
  assert (Hall : forall l : list nat,
            length (g ← l; i ← seq 0 I; (fun p => (g, i, p)) <$> seq 0 P) = length l * I * P).
  { intros l. induction l as [|g l IH]; [reflexivity|].
    rewrite bind_cons, length_app, IH, Hgrp, length_seq. simpl. lia. }
  rewrite Hall, length_seq. reflexivity.
Qed.

(** X11. When [initializeConnections] returns, both registries have the size of
    the Cartesian product and hold a socket in every place; since the call,
    exactly one listener and one sender were opened per triple, in loop order,
    [2 * groups * interfaces * ports] in all, no call failed, and every socket
    opened is the one stored at its triple. *)
Theorem initializeConnections_complete {W} (net : NetLib W) cfg st reg st' :
  wf_config cfg ->
  initializeConnections net (groups cfg) (ifaces cfg) (ports cfg) (destPorts cfg) st
    = (Ret reg, st') ->
  registry_ok cfg reg /\
  exists delta,
    trace st' = trace st ++ delta /\ clean delta /\
    (created delta).*1 = pairs_of (cfg_triples cfg) /\
    length (created delta) =
      2 * (length (groups cfg) * length (ifaces cfg) * length (ports cfg)) /\
    forall k t c, (k, t, c) ∈ created delta -> reg_get k reg t = Some (Some c).
Proof.
  intros Hwf Hrun. pose proof (initializeConnections_spec net cfg st Hwf) as H.
  rewrite Hrun in H. split; [eapply prov_inv_registry_ok; exact H|].
  destruct H as (_ & _ & delta & Htr & Hclean & Hkeys & Hreg).
  exists delta. repeat split; try assumption.
  rewrite <- (length_fmap fst), Hkeys, length_pairs_of. unfold cfg_triples.
  rewrite length_triples. reflexivity.
Qed.

Lemma initializeConnections_complete_witness :
  registry_ok config_abc registry_abc.
Proof.
  refine (proj1 (initializeConnections_complete (toy_net 0 0) config_abc toy_start
                   registry_abc
                   (initializeConnections (toy_net 0 0) (groups config_abc) (ifaces config_abc)
                      (ports config_abc) (destPorts config_abc) toy_start).2 _ _)).
  - reflexivity.
  - vm_compute. reflexivity.
Defined.

Lemma main_startup_outcome {W} (net : NetLib W) f st :
  (main_startup net f st).1 <> Panic /\
  (forall n, (main_startup net f st).1 = Exit n ->
     n = 1%Z /\ exists m, last (trace (main_startup net f st).2) = Some (EvLog m)).
Proof.
  pose proof (main_startup_spec net f st) as H.
  destruct (main_startup net f st) as [[[cfg reg]|n|] st']; simpl.
  - split; [discriminate|]. intros n Hn. discriminate.
  - split; [discriminate|]. intros n' Hn. inversion Hn; subst n'.
    destruct H as [-> [(m & _ & ->)|(cfg & _ & _ & pre & tail & m & Htr & _)]].
    + split; [reflexivity|]. exists m. simpl. apply last_snoc.
    + split; [reflexivity|]. exists m. rewrite Htr, !app_assoc. apply last_snoc.
  - contradiction.
Qed.

(** X12. The startup code of [main] never raises a run-time panic, whatever the
    flags and whatever the network answers: it returns, or it exits with
    status 1 after a fatal log line. *)
Theorem main_startup_never_panics {W} (net : NetLib W) f st :
  (main_startup net f st).1 <> Panic /\
  (forall n, (main_startup net f st).1 = Exit n ->
     n = 1%Z /\ exists m, last (trace (main_startup net f st).2) = Some (EvLog m)).
Proof. exact (main_startup_outcome net f st). Qed.

Lemma quiet_since_refl {W} (st : Proc W) : quiet_since (trace st) st.
Proof. exists []. rewrite app_nil_r. split; [reflexivity|constructor]. Qed.

Lemma quiet_since_log {W} tr0 (st : Proc W) (w : W) m :
  quiet_since tr0 st ->
  quiet_since tr0 {| world := w; trace := trace st ++ [EvLog m] |}.
Proof.
  intros (delta & Htr & Hq). exists (delta ++ [EvLog m]). simpl.
  rewrite Htr, app_assoc. split; [reflexivity|].
  apply Forall_app. split; [exact Hq|repeat constructor].
Qed.

Lemma provision_iface_no_ports {W} (net : NetLib W) tr0 dests g group mcastIP i ifName reg st :
  quiet_since tr0 st ->
  match provision_iface net [] dests g group mcastIP i ifName reg st with
  | (Ret reg', st') => quiet_since tr0 st' /\ reg' = reg
  | (_, st') => quiet_since tr0 st'
  end.
Proof.
  intros Hq. unfold provision_iface, firstIPv4Addr. mred.
  destruct (InterfaceByName net ifName (world st)) as [[err|ifi] w1]; simpl.
  { apply quiet_since_log. exact Hq. }
  destruct (Interface_Addrs net ifi w1) as [[err|addrs] w2]; simpl.
  { apply (quiet_since_log tr0 st). exact Hq. }
  destruct (firstIPv4Addr_loop net ifi addrs) as [err|localIP]; simpl.
  { apply (quiet_since_log tr0 st). exact Hq. }
  split; [exact Hq|reflexivity].
Qed.

Lemma provision_group_empty {W} (net : NetLib W) tr0 ifs ps dests g group reg st :
  ifs = [] \/ ps = [] ->
  quiet_since tr0 st ->
  match provision_group net ifs ps dests g group reg st with
  | (Ret reg', st') => quiet_since tr0 st' /\ reg' = reg
  | (_, st') => quiet_since tr0 st'
  end.
Proof.
  intros Hempty Hq. unfold provision_group.
  destruct (ParseIP net group) as [mcastIP|]; [|apply quiet_since_log; exact Hq].
  destruct Hempty as [->| ->].
  - simpl. unfold ret. split; [destruct st; exact Hq|reflexivity].
  - apply (forRange_rule _ (fun _ reg' st' => quiet_since tr0 st' /\ reg' = reg)
             (fun _ st' => quiet_since tr0 st') ifs 0).
    + split; [exact Hq|reflexivity].
    + intros j ifName reg1 st1 _ [Hq1 ->].
      pose proof (provision_iface_no_ports net tr0 dests g group mcastIP (0 + j) ifName
                    reg st1 Hq1) as H.
      destruct (provision_iface _ _ _ _ _ _ _ _ _ _) as [[reg'| |] st']; exact H.
Qed.

Lemma grid_get_make_none G I P t c : grid_get (make_grid G I P) t <> Some (Some c).
Proof.
  destruct t as [[g i] p]. unfold grid_get, make_grid.
  destruct (replicate G _ !! g) as [row|] eqn:Hrow; [|discriminate].
  apply lookup_replicate in Hrow as [-> _]. simpl.
  destruct (replicate I _ !! i) as [cell|] eqn:Hcell; [|discriminate].
  apply lookup_replicate in Hcell as [-> _]. simpl.
  destruct (replicate P _ !! p) as [x|] eqn:Hx; [|discriminate].
  apply lookup_replicate in Hx as [-> _]. discriminate.
Qed.

Lemma initializeConnections_empty {W} (net : NetLib W) grs ifs ps dests st :
  grs = [] \/ ifs = [] \/ ps = [] ->
  match initializeConnections net grs ifs ps dests st with
  | (Ret reg', st') =>
      quiet_since (trace st) st' /\
      reg' = {| conns := make_grid (length grs) (length ifs) (length ps);
                senders := make_grid (length grs) (length ifs) (length ps) |}
  | (_, st') => quiet_since (trace st) st'
  end.
Proof.
  intros Hempty. unfold initializeConnections. destruct Hempty as [->|Hempty].
  - simpl. unfold ret. split; [apply quiet_since_refl|reflexivity].
  - apply (forRange_rule _
             (fun _ reg' st' =>
                quiet_since (trace st) st' /\
                reg' = {| conns := make_grid (length grs) (length ifs) (length ps);
                          senders := make_grid (length grs) (length ifs) (length ps) |})
             (fun _ st' => quiet_since (trace st) st') grs 0).
    + split; [apply quiet_since_refl|reflexivity].
    + intros j group reg1 st1 _ [Hq1 Hreg1].
      pose proof (provision_group_empty net (trace st) ifs ps dests (0 + j) group reg1 st1
                    Hempty Hq1) as H.
      destruct (provision_group _ _ _ _ _ _ _ _) as [[reg'| |] st']; try exact H.
      destruct H as [H ->]. split; assumption.
Qed.

(** X13. With an empty list of groups, of interfaces or of ports,
    [initializeConnections] makes no socket call at all, whether it returns
    or stops at a name that does not resolve, and the registries it returns
    hold no socket. *)
Theorem initializeConnections_empty_product {W} (net : NetLib W) grs ifs ps dests st :
  grs = [] \/ ifs = [] \/ ps = [] ->
  quiet_since (trace st) (initializeConnections net grs ifs ps dests st).2 /\
  forall reg, (initializeConnections net grs ifs ps dests st).1 = Ret reg ->
    forall k t c, reg_get k reg t <> Some (Some c).
Proof.
  intros Hempty.
  pose proof (initializeConnections_empty net grs ifs ps dests st Hempty) as H.
  destruct (initializeConnections net grs ifs ps dests st) as [[reg'| |] st']; simpl.
  - destruct H as [Hq ->]. split; [exact Hq|].
    intros reg Hr k t c. inversion Hr; subst. destruct k; apply grid_get_make_none.
  - split; [exact H|]. intros reg Hr. discriminate.
  - split; [exact H|]. intros reg Hr. discriminate.
Qed.

Lemma initializeConnections_empty_product_witness :
  quiet_since []
    (initializeConnections (toy_net 0 0) [runes "239.255.255.250"] [] [1900%Z] [1900%Z]
       toy_start).2.
Proof.
  refine (proj1 (initializeConnections_empty_product (toy_net 0 0) [runes "239.255.255.250"]
                   [] [1900%Z] [1900%Z] toy_start _)).
  right. left. reflexivity.
Defined.

Lemma groups_parse_on_return {W} (net : NetLib W) grs ifs ps dests st :
  match initializeConnections net grs ifs ps dests st with
  | (Ret _, _) => Forall (fun group => is_Some (ParseIP net group)) grs
  | _ => True
  end.
Proof.
  unfold initializeConnections.
  pose proof (forRange_rule (provision_group net ifs ps dests)
                (fun idx _ _ => Forall (fun group => is_Some (ParseIP net group)) (take idx grs))
                (fun _ _ => True) grs 0
                {| conns := make_grid (length grs) (length ifs) (length ps);
                   senders := make_grid (length grs) (length ifs) (length ps) |} st) as H.
  cbv beta in H. change (0 + length grs) with (length grs) in H.
  rewrite (take_ge grs (length grs)) in H by apply Nat.le_refl.
  destruct (forRange _ 0 grs _ st) as [[reg| |] st'].
  - apply H; [constructor|]. clear H.
    intros j group reg1 st1 Hj Hinv. simpl in *. unfold provision_group.
    destruct (ParseIP net group) as [ip|] eqn:Hip; [|exact I].
    destruct (forRange _ 0 ifs reg1 st1) as [[reg2| |] st2]; try exact I.
    rewrite (take_S_r _ _ _ Hj). apply Forall_app. split; [exact Hinv|].
    constructor; [rewrite Hip; eauto|constructor].
  - exact I.
  - exact I.
Qed.

(** X14. A group that [net.ParseIP] refuses keeps [main] from ever reaching the
    forwarding stage: the startup code ends in exit status 1.  When it is the
    first group, this happens before any call into the network library, with
    "Failed to parse multicast group" as the only output. *)
Theorem unparsable_group_is_fatal {W} (net : NetLib W) f cfg group st :
  parseFlags f = inr cfg ->
  group ∈ groups cfg ->
  ParseIP net group = None ->
  (main_startup net f st).1 = Exit 1 /\
  (head (groups cfg) = Some group ->
   main_startup net f st =
     (Exit 1, {| world := world st;
                 trace := trace st ++ [EvLog (FailedToParseGroup group)] |})).
Proof.
  intros Hf Hin Hnone. split.
  - pose proof (main_startup_outcome net f st) as [Hnp Hexit].
    pose proof (groups_parse_on_return net (groups cfg) (ifaces cfg) (ports cfg)
                  (destPorts cfg) st) as Hg.
    unfold main_startup in *. rewrite Hf in *. unfold bind, ret in *.
    destruct (initializeConnections _ _ _ _ _ st) as [[reg|n|] st']; simpl in *.
    + rewrite Forall_forall in Hg. specialize (Hg group Hin).
      rewrite Hnone in Hg. destruct Hg as [? Hg]. discriminate.
    + destruct (Hexit n eq_refl) as [-> _]. reflexivity.
    + contradiction.
  - intros Hhead. unfold main_startup. rewrite Hf. unfold bind, initializeConnections.
    destruct (groups cfg) as [|g0 rest]; [discriminate|].
    inversion Hhead; subst g0. simpl. unfold bind, provision_group. rewrite Hnone.
    reflexivity.
Qed.

Lemma unparsable_group_is_fatal_witness :
  (main_startup (toy_net 0 0) (toy_flags "eth0" "1900" "not-an-ip" "") toy_start).1 = Exit 1.
Proof.
  refine (proj1 (unparsable_group_is_fatal (toy_net 0 0)
                   (toy_flags "eth0" "1900" "not-an-ip" "")
                   {| groups := [runes "not-an-ip"]; ifaces := [runes "eth0"];
                      ports := [1900%Z]; destPorts := [1900%Z]; verbose := false |}
                   (runes "not-an-ip") toy_start _ _ _)).
  - vm_compute. reflexivity.
  - left.
  - reflexivity.
Defined.

(** ** The life of a worker *)

Lemma wrun_inv cfg reg :
  wf_config cfg -> registry_ok cfg reg ->
  forall inputs w,
    worker_inv cfg reg w -> w_pc w <> WPanicked ->
    worker_inv cfg reg (wrun cfg reg inputs w).1 /\
    w_pc (wrun cfg reg inputs w).1 <> WPanicked /\
    w_triple (wrun cfg reg inputs w).1 = w_triple w /\
    Forall (is_worker_output (w_triple w)) (wrun cfg reg inputs w).2.
Proof.
  intros Hwf Hreg. induction inputs as [|[c a] inputs IH]; intros w Hinv Hnp.
  - simpl. split; [exact Hinv|]. split; [exact Hnp|]. split; [reflexivity|constructor].
  - cbn [wrun]. pose proof (wstep_spec cfg reg c a w Hwf Hreg Hinv Hnp) as Hs.
    destruct (wstep cfg reg c a w) as [w1 evs1].
    destruct Hs as (Hinv1 & Hnp1 & Ht1 & Hev1 & _).
    specialize (IH w1 Hinv1 Hnp1).
    destruct (wrun cfg reg inputs w1) as [w2 evs2]. simpl in *.
    destruct IH as (Hinv2 & Hnp2 & Ht2 & Hev2). rewrite Ht1 in *.
    split; [exact Hinv2|]. split; [exact Hnp2|]. split; [exact Ht2|].
    apply Forall_app. split; assumption.
Qed.

Lemma new_worker_inv cfg reg t : t ∈ cfg_triples cfg -> worker_inv cfg reg (new_worker t).
Proof. intros Ht. split; [exact Ht|exact I]. Qed.

(** X15. A worker started for a triple of the configuration never raises a
    run-time panic (no index is out of range, whatever the network answers),
    keeps its triple, and puts nothing into the trace but its own socket
    operations, its own [wg.Done()] and its log lines. *)
Theorem worker_never_panics cfg reg t inputs :
  wf_config cfg -> registry_ok cfg reg -> t ∈ cfg_triples cfg ->
  w_pc (wrun cfg reg inputs (new_worker t)).1 <> WPanicked /\
  w_triple (wrun cfg reg inputs (new_worker t)).1 = t /\
  Forall (is_worker_output t) (wrun cfg reg inputs (new_worker t)).2.
Proof.
  intros Hwf Hreg Ht.
  destruct (wrun_inv cfg reg Hwf Hreg inputs (new_worker t) (new_worker_inv cfg reg t Ht))
    as (_ & H1 & H2 & H3); [discriminate|]. auto.
Qed.

Lemma worker_never_panics_witness :
  w_pc (wrun config_abc registry_abc
          [(false, no_error_answer); (false, no_error_answer); (false, no_error_answer);
           (false, deliver "M-SEARCH"); (false, write_fails)] (new_worker (0, 1, 0))).1
    <> WPanicked.
Proof.
  destruct config_abc_ok as [Hwf Hreg].
  refine (proj1 (worker_never_panics config_abc registry_abc (0, 1, 0) _ Hwf Hreg _)).
  apply elem_of_cfg_triples. simpl. lia.
Defined.

Lemma wfuel_zero n pc : wfuel n pc = 0 -> pc <> WPanicked -> pc = WDone.
Proof. destruct pc; simpl; intros H Hp; try lia; [reflexivity|contradiction]. Qed.

Lemma wrun_cancelled cfg reg :
  wf_config cfg -> registry_ok cfg reg ->
  forall inputs w,
    worker_inv cfg reg w -> w_pc w <> WPanicked ->
    Forall (fun input => input.1 = true) inputs ->
    wfuel (length (ifaces cfg)) (w_pc w) <= length inputs ->
    w_pc (wrun cfg reg inputs w).1 = WDone.
Proof.
  intros Hwf Hreg. induction inputs as [|[c a] inputs IH]; intros w Hinv Hnp Hall Hfuel.
  - simpl in *. apply (wfuel_zero (length (ifaces cfg))); [lia|exact Hnp].
  - inversion Hall as [|? ? Hc Hall']; subst. simpl in Hc. subst c.
    cbn [wrun]. pose proof (wstep_spec cfg reg true a w Hwf Hreg Hinv Hnp) as Hs.
    destruct (wstep cfg reg true a w) as [w1 evs1] eqn:Hstep.
    destruct Hs as (Hinv1 & Hnp1 & _ & _ & _ & _ & Hdec).
    specialize (IH w1 Hinv1 Hnp1 Hall').
    destruct (wrun cfg reg inputs w1) as [w2 evs2]. simpl in *. apply IH.
    destruct (is_done (w_pc w)) eqn:Hd.
    + destruct (w_pc w) eqn:Hpc; try discriminate.
      unfold wstep in Hstep. rewrite Hpc in Hstep.
      destruct (w_triple w) as [[g i] p]. inversion Hstep; subst. rewrite Hpc. simpl. lia.
    + specialize (Hdec eq_refl eq_refl). lia.
Qed.

Lemma wfuel_bound n pc : wfuel n pc <= n + 5.
Proof. destruct pc; simpl; lia. Qed.

(** X16. Once the context is cancelled, a worker is finished after at most
    [number of interfaces + 5] of its steps, wherever it stands: it completes
    the fan-out it is in, reaches the [select], returns and calls
    [wg.Done()]. *)
Theorem worker_stops_when_cancelled cfg reg w inputs :
  wf_config cfg -> registry_ok cfg reg ->
  worker_inv cfg reg w -> w_pc w <> WPanicked ->
  Forall (fun input => input.1 = true) inputs ->
  length (ifaces cfg) + 5 <= length inputs ->
  w_pc (wrun cfg reg inputs w).1 = WDone.
Proof.
  intros Hwf Hreg Hinv Hnp Hall Hlen. apply wrun_cancelled; try assumption.
  pose proof (wfuel_bound (length (ifaces cfg)) (w_pc w)). lia.
Qed.

Lemma worker_stops_when_cancelled_witness :
  w_pc (wrun config_abc registry_abc (replicate 8 (true, deliver "NOTIFY")) worker_A_reading).1
    = WDone.
Proof.
  destruct config_abc_ok as [Hwf Hreg].
  apply (worker_stops_when_cancelled config_abc registry_abc worker_A_reading
           (replicate 8 (true, deliver "NOTIFY")) Hwf Hreg worker_A_reading_inv).
  - discriminate.
  - repeat constructor.
  - simpl. lia.
Defined.

Lemma wrun_done cfg reg inputs w :
  w_pc w = WDone -> wrun cfg reg inputs w = (w, []).
Proof.
  intros Hpc. induction inputs as [|[c a] inputs IH]; [reflexivity|].
  cbn [wrun]. unfold wstep. rewrite Hpc. destruct (w_triple w) as [[g i] p].
  rewrite IH. reflexivity.
Qed.

Lemma worker_inv_lconn cfg reg w :
  registry_ok cfg reg -> worker_inv cfg reg w ->
  in_loop (w_pc w) = true -> w_pc w <> WStart ->
  exists lc, w_lconn w = Some lc.
Proof.
  intros Hreg [Hin Hloc] Hloop Hstart.
  destruct (registry_ok_conn cfg reg _ Hreg Hin) as [lc Hlc].
  destruct (w_triple w) as [[g i] p].
  exists lc. destruct (w_pc w); try discriminate; try contradiction;
    destruct Hloc as [Hl _]; congruence.
Qed.

(** X17. A read error that is not a timeout ends the worker for good: the error
    is logged with the group, the interface name and the listen port of the
    worker's triple, [wg.Done()] is called, and whatever happens afterwards the
    worker takes no further step: the read is not tried again. *)
Theorem read_error_ends_worker cfg reg w g i p a err c c' a' rest :
  registry_ok cfg reg -> worker_inv cfg reg w ->
  w_triple w = (g, i, p) -> w_pc w = WRead ->
  ans_read a = ReadErr err ->
  err_isOpError err && err_timeout err = false ->
  exists lc,
    w_lconn w = Some lc /\
    groups cfg !! g = Some (w_group w) /\ ifaces cfg !! i = Some (w_ifaceName w) /\
    ports cfg !! p = Some (w_port w) /\
    wrun cfg reg ((c, a) :: (c', a') :: rest) w =
      (at_pc w WDone,
       [EvRead (g, i, p) (Some lc) (ReadErr err);
        EvLog (ReadError (w_group w) (w_ifaceName w) (w_port w) err);
        EvDone (g, i, p)]).
Proof.
  intros Hreg Hinv Ht Hpc Hread Herr.
  destruct (worker_inv_lconn cfg reg w Hreg Hinv) as [lc Hlc];
    [rewrite Hpc; reflexivity|rewrite Hpc; discriminate|].
  pose proof Hinv as [_ Hloc]. rewrite Hpc, Ht in Hloc.
  destruct Hloc as (_ & Hgrp & Hport & Hif & _).
  exists lc. repeat (split; [assumption|]).
  cbn [wrun]. unfold wstep at 1. rewrite Ht, Hpc, Hlc, Hread, Herr.
  unfold wstep at 1. cbn [w_triple w_pc at_pc]. rewrite Ht.
  rewrite wrun_done by reflexivity. reflexivity.
Qed.

Lemma read_error_ends_worker_witness :
  exists lc,
    wrun config_abc registry_abc
      [(false, write_fails); (false, no_error_answer); (false, deliver "late")] worker_A_reading
    = (at_pc worker_A_reading WDone,
       [EvRead (0, 0, 0) (Some lc) (ReadErr EINVAL);
        EvLog (ReadError (runes "239.255.255.250") (runes "A") 1900 EINVAL);
        EvDone (0, 0, 0)]).
Proof.
  destruct config_abc_ok as [Hwf Hreg].
  destruct (read_error_ends_worker config_abc registry_abc worker_A_reading 0 0 0
              write_fails EINVAL false false no_error_answer [(false, deliver "late")]
              Hreg worker_A_reading_inv eq_refl eq_refl eq_refl eq_refl)
    as (lc & _ & _ & _ & _ & Hrun).
  exists lc. exact Hrun.
Defined.

(** X18. A read that times out is not an error for the worker: nothing is
    logged, the worker is back at the [select]; if the context is not
    cancelled there, it sets a new deadline and reads again, and if it is, the
    worker returns. *)
Theorem read_timeout_retries cfg reg w g i p a err c a1 c2 a2 :
  registry_ok cfg reg -> worker_inv cfg reg w ->
  w_triple w = (g, i, p) -> w_pc w = WRead ->
  ans_read a = ReadErr err ->
  err_isOpError err && err_timeout err = true ->
  exists lc,
    w_lconn w = Some lc /\
    wrun cfg reg [(c, a)] w = (at_pc w WSelect, [EvRead (g, i, p) (Some lc) (ReadErr err)]) /\
    wrun cfg reg [(c, a); (false, a1); (c2, a2)] w =
      (at_pc w WRead,
       [EvRead (g, i, p) (Some lc) (ReadErr err); EvSetReadDeadline (g, i, p) (Some lc)]) /\
    w_pc (wrun cfg reg [(c, a); (true, a1); (c2, a2)] w).1 = WDone.
Proof.
  intros Hreg Hinv Ht Hpc Hread Herr.
  destruct (worker_inv_lconn cfg reg w Hreg Hinv) as [lc Hlc];
    [rewrite Hpc; reflexivity|rewrite Hpc; discriminate|].
  exists lc. split; [exact Hlc|].
  assert (Hstep : forall c, wstep cfg reg c a w =
                            (at_pc w WSelect, [EvRead (g, i, p) (Some lc) (ReadErr err)])).
  { intros c0. unfold wstep. rewrite Ht, Hpc, Hlc, Hread, Herr. reflexivity. }
  split; [|split].
  - cbn [wrun]. rewrite Hstep. reflexivity.
  - cbn [wrun]. rewrite Hstep. cbv beta iota.
    unfold wstep at 1. cbn [w_triple w_pc w_lconn at_pc]. rewrite Ht. cbv beta iota.
    unfold wstep at 1. cbn [w_triple w_pc w_lconn at_pc]. rewrite Ht, Hlc. reflexivity.
  - cbn [wrun]. rewrite Hstep. cbv beta iota.
    unfold wstep at 1. cbn [w_triple w_pc w_lconn at_pc]. rewrite Ht. cbv beta iota.
    unfold wstep at 1. cbn [w_triple w_pc w_lconn at_pc]. rewrite Ht.
    destruct (verbose cfg); reflexivity.
Qed.

Lemma read_timeout_retries_witness :
  exists lc,
    wrun config_abc registry_abc
      [(false, {| ans_read := ReadErr {| err_text := runes "i/o timeout";
                                         err_isOpError := true; err_timeout := true |};
                  ans_write := None |})] worker_A_reading
    = (at_pc worker_A_reading WSelect,
       [EvRead (0, 0, 0) (Some lc)
          (ReadErr {| err_text := runes "i/o timeout";
                      err_isOpError := true; err_timeout := true |})]).
Proof.
  destruct config_abc_ok as [Hwf Hreg].
  destruct (read_timeout_retries config_abc registry_abc worker_A_reading 0 0 0
              {| ans_read := ReadErr {| err_text := runes "i/o timeout";
                                        err_isOpError := true; err_timeout := true |};
                 ans_write := None |}
              {| err_text := runes "i/o timeout"; err_isOpError := true; err_timeout := true |}
              false no_error_answer false no_error_answer
              Hreg worker_A_reading_inv eq_refl eq_refl eq_refl eq_refl)
    as (lc & _ & Hrun & _).
  exists lc. exact Hrun.
Defined.

Lemma wstep_in_loop cfg reg a w :
  wf_config cfg -> registry_ok cfg reg -> worker_inv cfg reg w ->
  in_loop (w_pc w) = true -> read_goes_on a ->
  in_loop (w_pc (wstep cfg reg false a w).1) = true.
Proof.
  intros Hwf Hreg Hinv Hloop Hread.
  pose proof (wstep_spec cfg reg false a w Hwf Hreg Hinv) as Hs.
  assert (Hnp : w_pc w <> WPanicked) by (intros Hp; rewrite Hp in Hloop; discriminate).
  specialize (Hs Hnp).
  destruct (w_pc w) eqn:Hpc; try discriminate.
  - (* WStart *)
    destruct (wstep cfg reg false a w) as [w1 evs] eqn:Hstep.
    destruct Hs as (_ & Hnp1 & _ & _ & _ & Hnd & _). simpl.
    unfold wstep in Hstep. rewrite Hpc in Hstep. destruct (w_triple w) as [[g i] p].
    repeat match type of Hstep with
           | context [match ?x with _ => _ end] => destruct x
           end; inversion Hstep; subst; simpl in *; congruence.
  - unfold wstep. rewrite Hpc. destruct (w_triple w) as [[g i] p]. reflexivity.
  - (* WSetDeadline *)
    destruct (worker_inv_lconn cfg reg w Hreg Hinv) as [lc Hlc];
      [rewrite Hpc; reflexivity|rewrite Hpc; discriminate|].
    unfold wstep. rewrite Hpc, Hlc. destruct (w_triple w) as [[g i] p]. reflexivity.
  - (* WRead *)
    destruct (worker_inv_lconn cfg reg w Hreg Hinv) as [lc Hlc];
      [rewrite Hpc; reflexivity|rewrite Hpc; discriminate|].
    unfold wstep. rewrite Hpc, Hlc. destruct (w_triple w) as [[g i] p].
    unfold read_goes_on in Hread. destruct (ans_read a) as [d src|err].
    + destruct (read_into (w_buf w) d). reflexivity.
    + rewrite Hread. reflexivity.
  - (* WFanout *)
    destruct (wstep cfg reg false a w) as [w1 evs] eqn:Hstep.
    destruct Hs as (_ & Hnp1 & _ & _ & _ & Hnd & _). simpl.
    unfold wstep in Hstep. rewrite Hpc in Hstep. destruct (w_triple w) as [[g i] p].
    repeat match type of Hstep with
           | context [match ?x with _ => _ end] => destruct x
           | context [if ?x then _ else _] => destruct x
           end; inversion Hstep; subst; simpl in *; congruence.
Qed.

(** X19. A worker leaves its loop only when it sees the context cancelled or a
    read fails with an error that is not a timeout: as long as neither
    happens it stays in the loop, whatever its writes answer. *)
Theorem worker_keeps_going cfg reg inputs w :
  wf_config cfg -> registry_ok cfg reg -> worker_inv cfg reg w ->
  in_loop (w_pc w) = true ->
  Forall (fun input => input.1 = false /\ read_goes_on input.2) inputs ->
  in_loop (w_pc (wrun cfg reg inputs w).1) = true.
Proof.
  intros Hwf Hreg. revert w.
  induction inputs as [|[c a] inputs IH]; intros w Hinv Hloop Hall; [exact Hloop|].
  inversion Hall as [|? ? [Hc Hread] Hall']; subst. simpl in Hc, Hread. subst c.
  cbn [wrun].
  pose proof (wstep_in_loop cfg reg a w Hwf Hreg Hinv Hloop Hread) as Hl1.
  assert (Hnp : w_pc w <> WPanicked) by (intros Hp; rewrite Hp in Hloop; discriminate).
  pose proof (wstep_spec cfg reg false a w Hwf Hreg Hinv Hnp) as Hs.
  destruct (wstep cfg reg false a w) as [w1 evs1].
  destruct Hs as (Hinv1 & _). simpl in Hl1.
  specialize (IH w1 Hinv1 Hl1 Hall').
  destruct (wrun cfg reg inputs w1) as [w2 evs2]. exact IH.
Qed.

Lemma worker_keeps_going_witness :
  in_loop (w_pc (wrun config_abc registry_abc
                   [(false, deliver "NOTIFY"); (false, deliver_write_fails);
                    (false, deliver_write_fails)]
                   worker_A_reading).1) = true.
Proof.
  destruct config_abc_ok as [Hwf Hreg].
  apply (worker_keeps_going config_abc registry_abc
           [(false, deliver "NOTIFY"); (false, deliver_write_fails);
            (false, deliver_write_fails)]
           worker_A_reading Hwf Hreg worker_A_reading_inv eq_refl).
  repeat constructor.
Defined.

(** ** [closeConnections] *)

Lemma elem_of_grid_cells gr t c : (t, c) ∈ grid_cells gr <-> grid_get gr t = Some c.
Proof.
  destruct t as [[g i] p]. unfold grid_cells, grid_get. split.
  - intros H. apply list_elem_of_join in H as (l1 & Hin1 & Hl1).
    apply elem_of_lookup_imap in Hl1 as (g' & row & -> & Hrow).
    apply list_elem_of_join in Hin1 as (l2 & Hin2 & Hl2).
    apply elem_of_lookup_imap in Hl2 as (i' & cell & -> & Hcell).
    apply elem_of_lookup_imap in Hin2 as (p' & c' & Heq & Hc).
    inversion Heq; subst. rewrite Hrow. simpl. rewrite Hcell. simpl. exact Hc.
  - intros H.
    destruct (gr !! g) as [row|] eqn:Hrow; [|discriminate]. simpl in H.
    destruct (row !! i) as [cell|] eqn:Hcell; [|discriminate]. simpl in H.
    apply list_elem_of_join. eexists. split; [|apply (elem_of_lookup_imap_2 _ _ _ _ Hrow)].
    apply list_elem_of_join. eexists. split; [|apply (elem_of_lookup_imap_2 _ _ _ _ Hcell)].
    apply (elem_of_lookup_imap_2 (fun p c => ((g, i, p), c)) _ _ _ H).
Qed.

Lemma elem_of_closeConnections reg op :
  op ∈ closeConnections reg <->
  exists t lc, grid_get (conns reg) t = Some lc /\
    ((exists c, lc = Some c /\ op = DoClose c) \/
     (exists c, grid_get (senders reg) t = Some (Some c) /\ op = DoClose c) \/
     (grid_get (senders reg) t = None /\ op = DoPanic)).
Proof.
  unfold closeConnections. rewrite list_elem_of_bind. split.
  - intros ([t lc] & Hin & Hcell). apply elem_of_grid_cells in Hcell.
    exists t, lc. split; [exact Hcell|].
    apply elem_of_app in Hin as [Hin|Hin].
    + destruct lc as [c|]; [|inversion Hin].
      apply list_elem_of_singleton in Hin. left. eauto.
    + destruct (grid_get (senders reg) t) as [[c|]|] eqn:Hs.
      * apply list_elem_of_singleton in Hin. right. left. eauto.
      * inversion Hin.
      * apply list_elem_of_singleton in Hin. right. right. auto.
  - intros (t & lc & Hcell & Hop). exists (t, lc).
    split; [|apply elem_of_grid_cells; exact Hcell].
    apply elem_of_app.
    destruct Hop as [(c & -> & ->)|[(c & Hs & ->)|(Hs & ->)]].
    + left. left.
    + right. rewrite Hs. left.
    + right. rewrite Hs. left.
Qed.

Lemma grid_get_dims_inv gr G I P g i p :
  grid_dims gr G I P -> is_Some (grid_get gr (g, i, p)) -> g < G /\ i < I /\ p < P.
Proof.
  intros [HG Hrows] [c H]. unfold grid_get in H.
  destruct (gr !! g) as [row|] eqn:Hrow; [|discriminate]. simpl in H.
  destruct (row !! i) as [cell|] eqn:Hcell; [|discriminate]. simpl in H.
  destruct (Hrows g row Hrow) as [HI Hcells]. pose proof (Hcells i cell Hcell) as HP.
  apply lookup_lt_Some in Hrow, Hcell, H. lia.
Qed.

Lemma closeConnections_spec cfg reg :
  registry_ok cfg reg ->
  (DoPanic ∉ closeConnections reg) /\
  forall c, DoClose c ∈ closeConnections reg <->
            exists k t, reg_get k reg t = Some (Some c).
Proof.
  intros (Hdc & Hds & Hfull). split.
  - intros H. apply elem_of_closeConnections in H as (t & lc & Hcell & Hop).
    destruct Hop as [(c & _ & Hc)|[(c & _ & Hc)|(Hs & _)]]; try discriminate.
    destruct t as [[g i] p].
    destruct (grid_get_dims_inv _ _ _ _ g i p Hdc) as (Hg & Hi & Hp); [eauto|].
    destruct (grid_get_in_dims _ _ _ _ g i p Hds Hg Hi Hp) as [x Hx]. congruence.
  - intros c. rewrite elem_of_closeConnections. split.
    + intros (t & lc & Hcell & Hop).
      destruct Hop as [(c' & -> & Hc)|[(c' & Hs & Hc)|(_ & Hc)]]; try discriminate;
        inversion Hc; subst.
      * exists KListen, t. exact Hcell.
      * exists KDial, t. exact Hs.
    + intros (k & t & Hget). destruct k; simpl in Hget.
      * exists t, (Some c). split; [exact Hget|]. left. eauto.
      * destruct t as [[g i] p].
        destruct (grid_get_dims_inv _ _ _ _ g i p Hds) as (Hg & Hi & Hp); [eauto|].
        destruct (grid_get_in_dims _ _ _ _ g i p Hdc Hg Hi Hp) as [lc Hlc].
        exists (g, i, p), lc. split; [exact Hlc|]. right. left. eauto.
Qed.

Lemma closeConnections_no_panic cfg reg :
  registry_ok cfg reg -> DoPanic ∉ closeConnections reg.
Proof. intros Hreg. exact (proj1 (closeConnections_spec cfg reg Hreg)). Qed.

(** X20. On registries as [initializeConnections] returns them,
    [closeConnections] closes every socket they hold, listeners and senders
    alike, closes nothing else, and never runs out of range. *)
Theorem closeConnections_closes_registry cfg reg :
  registry_ok cfg reg ->
  (DoPanic ∉ closeConnections reg) /\
  forall c, DoClose c ∈ closeConnections reg <->
            exists k t, reg_get k reg t = Some (Some c).
Proof.
  exact (closeConnections_spec cfg reg).
Qed.

Lemma closeConnections_closes_registry_witness :
  DoClose 3 ∈ closeConnections registry_abc.
Proof.
  destruct config_abc_ok as [_ Hreg].
  apply (proj2 (closeConnections_closes_registry config_abc registry_abc Hreg) 3).
  exists KDial, (0, 1, 0). reflexivity.
Defined.


(** ** The running process: what holds of every reachable state *)

Lemma live_count_app ws1 ws2 :
  live_count (ws1 ++ ws2) = live_count ws1 + live_count ws2.
Proof. induction ws1 as [|w ws1 IH]; simpl; [reflexivity|]. rewrite IH. lia. Qed.

Lemma live_count_insert ws : forall k w w',
  ws !! k = Some w ->
  live_count (<[k := w']> ws) + (if is_done (w_pc w) then 0 else 1) =
  live_count ws + (if is_done (w_pc w') then 0 else 1).
Proof.
  induction ws as [|x ws IH]; intros k w w' Hk; [discriminate|].
  destruct k as [|k]; simpl in *.
  - inversion Hk; subst. lia.
  - specialize (IH k w w' Hk). lia.
Qed.

Lemma live_count_zero ws k w :
  live_count ws = 0 -> ws !! k = Some w -> w_pc w = WDone.
Proof.
  revert k. induction ws as [|x ws IH]; intros k H Hk; [discriminate|].
  simpl in H. destruct k as [|k]; simpl in Hk.
  - inversion Hk; subst. destruct (w_pc w); simpl in H; try lia. reflexivity.
  - apply (IH k); [lia|exact Hk].
Qed.

Lemma workers_fuel_insert n ws : forall k w w',
  ws !! k = Some w ->
  workers_fuel n (<[k := w']> ws) + wfuel n (w_pc w) =
  workers_fuel n ws + wfuel n (w_pc w').
Proof.
  induction ws as [|x ws IH]; intros k w w' Hk; [discriminate|].
  destruct k as [|k]; simpl in *.
  - inversion Hk; subst. lia.
  - specialize (IH k w w' Hk). lia.
Qed.

Lemma fmap_triple_insert (ws : list Worker) (k : nat) w w' :
  ws !! k = Some w -> w_triple w' = w_triple w ->
  w_triple <$> <[k := w']> ws = w_triple <$> ws.
Proof.
  intros Hk Ht. rewrite list_fmap_insert, Ht. apply list_insert_id.
  rewrite list_lookup_fmap, Hk. reflexivity.
Qed.

Lemma init_sys_state_inv cfg reg tr : state_inv cfg reg (init_sys cfg tr).
Proof.
  unfold state_inv, init_sys. simpl. repeat split; try reflexivity; try constructor.
  - discriminate.
  - discriminate.
Qed.

Ltac inv5 := split; [|split; [|split; [|split]]].

Lemma main_step_state_inv cfg reg s s' :
  registry_ok cfg reg -> state_inv cfg reg s ->
  main_step reg s = Some s' -> state_inv cfg reg s'.
Proof.
  intros Hreg (Hpc & Hwg & Hws & Hcn & Hst) Hstep.
  destruct s as [st pc h ws cn wgv tr]. unfold main_step in Hstep. simpl in *.
  destruct pc as [[|t todo]|t todo| | |[|[c|] todo]| |];
    try match type of Hstep with
        | context [(wgv =? 0)%Z] => destruct (wgv =? 0)%Z eqn:Hz
        end; try discriminate;
    injection Hstep as <-; unfold state_inv; simpl.
  - (* the loops of startForwarding are over *)
    destruct Hpc as [Hpc Hh]. rewrite app_nil_r in Hpc. inv5; auto.
  - (* wg.Add(1) *)
    destruct Hpc as [Hpc Hh]. inv5; auto. lia.
  - (* go *)
    destruct Hpc as [Hpc Hh]. inv5; auto.
    + split; [|exact Hh]. rewrite fmap_app, <- app_assoc. exact Hpc.
    + rewrite live_count_app. simpl. lia.
    + apply Forall_app. split; [exact Hws|]. constructor; [|constructor].
      split; [|discriminate]. apply new_worker_inv. rewrite <- Hpc.
      apply elem_of_app. right. left.
  - (* handleShutdown *)
    destruct Hpc as [Hpc Hh]. subst h. inv5; auto.
    split; [|discriminate]. intros Hc. apply Hcn in Hc. discriminate.
  - (* wg.Wait() returns *)
    apply Z.eqb_eq in Hz. destruct Hpc as [Hpc Hh]. inv5; auto.
    split; [exact Hpc|]. split; [exact Hh|]. split; [lia|]. exists []. reflexivity.
  - (* closeConnections is over, line 141 *)
    destruct Hpc as (Hpc & Hh & Hlive & _). inv5; auto.
  - (* Close *)
    destruct Hpc as (Hpc & Hh & Hlive & closed & Hplan). inv5; auto.
    split; [exact Hpc|]. split; [exact Hh|]. split; [exact Hlive|].
    exists (closed ++ [DoClose c]). rewrite <- app_assoc. exact Hplan.
  - (* out of range: excluded *)
    destruct Hpc as (Hpc & Hh & Hlive & closed & Hplan).
    exfalso. apply (closeConnections_no_panic cfg reg Hreg).
    rewrite Hplan. apply elem_of_app. right. left.
  - (* main returns *)
    destruct Hpc as (Hpc & Hh & Hlive). inv5; auto.
Qed.

Lemma handler_step_state_inv cfg reg sig s s' :
  state_inv cfg reg s -> handler_step sig s = Some s' -> state_inv cfg reg s'.
Proof.
  intros (Hpc & Hwg & Hws & Hcn & Hst) Hstep.
  destruct s as [st pc h ws cn wgv tr]. unfold handler_step in Hstep. simpl in *.
  assert (Hspawn : h <> HNone ->
                   match pc with
                   | MSpawnAdd _ | MSpawnGo _ _ | MHandleShutdown => False
                   | _ => True
                   end).
  { intros Hh. destruct pc; try exact I; destruct Hpc as [_ Hn]; contradiction. }
  destruct h; try discriminate; injection Hstep as <-; unfold state_inv; simpl;
    specialize (Hspawn ltac:(discriminate));
    (inv5; auto;
     [ destruct pc; try contradiction; simpl in *;
       repeat match goal with H : _ /\ _ |- _ => destruct H end;
       repeat split; auto; try discriminate; eauto
     | split; try discriminate; try reflexivity;
       intros Hc; apply Hcn in Hc; discriminate ]).
Qed.

Lemma worker_step_state_inv cfg reg k a s s' :
  wf_config cfg -> registry_ok cfg reg -> state_inv cfg reg s ->
  status s = Running ->
  worker_step cfg reg k a s = Some s' -> state_inv cfg reg s'.
Proof.
  intros Hwf Hreg (Hpc & Hwg & Hws & Hcn & Hst) Hrun Hstep.
  destruct s as [st pc h ws cn wgv tr]. unfold worker_step in Hstep. simpl in *.
  destruct (ws !! k) as [w|] eqn:Hk; [|discriminate].
  destruct (is_finished (w_pc w)) eqn:Hfin; [discriminate|].
  destruct (Forall_lookup_1 _ _ _ _ Hws Hk) as [Hinv Hnp].
  pose proof (wstep_spec cfg reg cn a w Hwf Hreg Hinv Hnp) as Hs.
  destruct (wstep cfg reg cn a w) as [w' evs].
  destruct Hs as (Hinv' & Hnp' & Ht' & _ & Hret & Hnret & _).
  injection Hstep as <-.
  pose proof (live_count_insert ws k w w' Hk) as Hlive.
  pose proof (fmap_triple_insert ws k w w' Hk Ht') as Hfm.
  assert (Hnd : is_done (w_pc w) = false) by (destruct (w_pc w); try reflexivity; discriminate).
  rewrite Hnd in Hlive.
  assert (Hafter : after_wait pc = false).
  { destruct pc; try reflexivity; exfalso;
      [destruct Hpc as (_ & _ & Hz & _)|destruct Hpc as (_ & _ & Hz)|destruct Hpc as (_ & _ & Hz)];
      pose proof (live_count_zero ws k w Hz Hk) as Hd; rewrite Hd in Hnd; discriminate. }
  assert (Hwg' : match w_pc w with WReturn => (wgv - 1)%Z | _ => wgv end =
                 (Z.of_nat (live_count (<[k := w']> ws)) +
                  match pc with MSpawnGo _ _ => 1 | _ => 0 end)%Z).
  { destruct (w_pc w) eqn:Hw; try discriminate;
      try (destruct (Hnret ltac:(discriminate)) as [Hd _]; rewrite Hd in Hlive; simpl in Hlive;
           rewrite Hwg; destruct pc; lia).
    destruct (Hret eq_refl) as [Hd _]. rewrite Hd in Hlive. simpl in Hlive.
    rewrite Hwg. destruct pc; lia. }
  unfold state_inv. simpl. rewrite Hfm. inv5.
  - destruct pc; try discriminate; exact Hpc.
  - exact Hwg'.
  - apply Forall_insert; [exact Hws|]. split; assumption.
  - exact Hcn.
  - rewrite Hwg'.
    replace (_ <? 0)%Z with false by (symmetry; apply Z.ltb_ge; destruct pc; lia).
    destruct (w_pc w'); try contradiction; exact Hst.
Qed.

Lemma step_state_inv cfg reg a s s' :
  wf_config cfg -> registry_ok cfg reg -> state_inv cfg reg s ->
  step cfg reg a s = Some s' -> state_inv cfg reg s'.
Proof.
  intros Hwf Hreg Hinv Hstep. unfold step in Hstep.
  destruct (status s) eqn:Hst; try discriminate.
  destruct a as [|sig|k ans].
  - eapply main_step_state_inv; eassumption.
  - eapply handler_step_state_inv; eassumption.
  - eapply worker_step_state_inv; eassumption.
Qed.

Lemma run_invariant cfg reg (P : Sys -> Prop) :
  (forall a s s', P s -> step cfg reg a s = Some s' -> P s') ->
  forall sched s s', P s -> run cfg reg sched s = Some s' -> P s'.
Proof.
  intros Hstep. induction sched as [|a sched IH]; intros s s' HP Hrun; simpl in Hrun.
  - injection Hrun as <-. exact HP.
  - destruct (step cfg reg a s) as [s1|] eqn:Hs; [|discriminate].
    apply (IH s1 s'); [|exact Hrun]. eapply Hstep; eassumption.
Qed.


Lemma worker_output_kind t e :
  is_worker_output t e ->
  is_startup_event e = false /\ e <> EvCancel /\ e <> EvLog AllDone /\
  (forall c, e <> EvClose c) /\ (forall sig, e <> EvSignal sig) /\
  (forall t', e = EvDone t' -> t' = t).
Proof.
  destruct e as [m| | | | | | | | | |]; simpl; try contradiction;
    try (intros ->); try (destruct m; try contradiction; intros _);
    repeat split; try discriminate; try (intros; discriminate);
    intros t' Heq; inversion Heq; reflexivity.
Qed.

Lemma init_sys_trace_inv cfg reg tr : trace_inv cfg reg tr (init_sys cfg tr).
Proof.
  exists []. split; [simpl; rewrite app_nil_r; reflexivity|].
  constructor; simpl; try discriminate; try (intros; discriminate); try exact I.
  - constructor.
  - intros c _. exact I.
Qed.

Lemma lookup_snoc_inv {A} (l : list A) (x e : A) j :
  (l ++ [x]) !! j = Some e -> l !! j = Some e \/ (j = length l /\ e = x).
Proof.
  intros H. apply lookup_app_Some in H as [H|[Hle H]]; [left; exact H|right].
  destruct (j - length l) as [|n] eqn:Hn; simpl in H; [|discriminate].
  injection H as <-. split; [lia|reflexivity].
Qed.

Lemma main_step_trace_inv cfg reg tr0 s s' :
  registry_ok cfg reg -> state_inv cfg reg s -> status s = Running ->
  trace_inv cfg reg tr0 s -> main_step reg s = Some s' -> trace_inv cfg reg tr0 s'.
Proof.
  intros Hreg (Hpc & Hwg & Hws & Hcn & Hst) Hrun (delta & Htr & [T1 T2 T3 T4 T5 T6 T7 T8 T9 T10 T11 T12]) Hstep.
  destruct s as [st pc h ws cn wgv tr]. unfold main_step in Hstep. simpl in *.
  destruct pc as [[|t todo]|t todo| | |[|[c|] todo]| |];
    try match type of Hstep with
        | context [(wgv =? 0)%Z] => destruct (wgv =? 0)%Z eqn:Hz
        end; try discriminate;
    injection Hstep as <-; unfold trace_inv; simpl.
  all: try (exists delta; split; [exact Htr|]; constructor; simpl; auto;
            try (intros j c0 Hj; specialize (T3 _ _ Hj); simpl in T3; first [discriminate|reflexivity]);
            try (intros j Hj; destruct (T11 j Hj) as [Hpc' Hafter]; simpl in Hpc';
                 first [discriminate Hpc'|split; [reflexivity|exact Hafter]]);
            try discriminate).
  - (* go *)
    intros k w Hk Hd. apply lookup_snoc_inv in Hk as [Hk|[_ ->]]; [eauto|discriminate].
  - destruct Hpc as [_ ->]. intros j sig Hj. exact (T8 j sig Hj).
  - destruct Hpc as [_ ->]. intros j Hj. destruct (T10 j Hj) as [Hh _]. discriminate.
  - (* closeConnections is over, the line All done is printed *)
    destruct Hpc as (Hpc & Hh & Hlive & _).
    exists (delta ++ [EvLog AllDone]). split; [rewrite Htr, app_assoc; reflexivity|].
    constructor; simpl.
    + apply Forall_app. split; [exact T1|]. repeat constructor.
    + intros k w Hk Hd. apply elem_of_app. left. eauto.
    + reflexivity.
    + intros j c0 Hj. apply lookup_snoc_inv in Hj as [Hj|[_ Hj]]; [eauto|discriminate].
    + intros i j c0 e Hj Hi He.
      apply lookup_snoc_inv in Hi as [Hi|[_ ->]]; [|discriminate].
      apply lookup_snoc_inv in Hj as [Hj|[_ Hj]]; [eauto|discriminate].
    + intros j c0 t Hj Ht.
      apply lookup_snoc_inv in Hj as [Hj|[_ Hj]]; [|discriminate].
      destruct (T6 j c0 t Hj Ht) as (i & Hi & Hd). exists i. split; [exact Hi|].
      apply lookup_app_l_Some. exact Hd.
    + intros c0 Hc0. apply elem_of_app. left.
      destruct (T7 c0 Hc0) as [H|H]; [exact H|]. apply elem_of_nil in H. contradiction.
    + intros j sig Hj. apply lookup_snoc_inv in Hj as [Hj|[_ Hj]]; [eauto|discriminate].
    + destruct h; try exact I; try (apply elem_of_app; left; exact T9);
      destruct T9 as [sg H]; exists sg; apply elem_of_app; left; exact H.
    + intros j Hj. apply lookup_snoc_inv in Hj as [Hj|[_ Hj]]; [|discriminate].
      destruct (T10 j Hj) as (Hh' & i & sig & Hi & Hs). split; [exact Hh'|].
      exists i, sig. split; [exact Hi|]. apply lookup_app_l_Some. exact Hs.
    + intros j Hj. apply lookup_snoc_inv in Hj as [Hj|[-> _]].
      * destruct (T11 j Hj) as [H _]. discriminate H.
      * split; [reflexivity|]. intros i e Hi Hlt.
        apply lookup_lt_Some in Hi. rewrite length_app in Hi. simpl in Hi. lia.
    + intros _. apply elem_of_app. right. left.
  - (* Close *)
    destruct Hpc as (Hpc & Hh & Hlive & closed & Hplan).
    exists (delta ++ [EvClose c]). split; [rewrite Htr, app_assoc; reflexivity|].
    constructor; simpl.
    + apply Forall_app. split; [exact T1|]. repeat constructor.
    + intros k w Hk Hd. apply elem_of_app. left. eauto.
    + reflexivity.
    + intros j c0 Hj. apply lookup_snoc_inv in Hj as [Hj|[_ Hj]]; [eauto|].
      injection Hj as ->. rewrite Hplan. apply elem_of_app. right. left.
    + intros i j c0 e Hj Hi He.
      apply lookup_snoc_inv in Hi as [Hi|[_ ->]]; [|discriminate].
      apply lookup_snoc_inv in Hj as [Hj|[-> _]]; [eauto|].
      apply lookup_lt_Some in Hi. exact Hi.
    + intros j c0 t Hj Ht.
      apply lookup_snoc_inv in Hj as [Hj|[-> _]].
      * destruct (T6 j c0 t Hj Ht) as (i & Hi & Hd). exists i. split; [exact Hi|].
        apply lookup_app_l_Some. exact Hd.
      * rewrite <- Hpc in Ht. apply list_elem_of_fmap in Ht as (w & -> & Hw).
        apply list_elem_of_lookup in Hw as [k Hk].
        pose proof (T2 k w Hk (live_count_zero ws k w Hlive Hk)) as Hd.
        apply list_elem_of_lookup in Hd as [i Hi]. exists i.
        split; [apply lookup_lt_Some in Hi; exact Hi|]. apply lookup_app_l_Some. exact Hi.
    + intros c0 Hc0. destruct (T7 c0 Hc0) as [H|H].
      * left. apply elem_of_app. left. exact H.
      * apply elem_of_cons in H as [H|H]; [|right; exact H].
        injection H as ->. left. apply elem_of_app. right. left.
    + intros j sig Hj. apply lookup_snoc_inv in Hj as [Hj|[_ Hj]]; [eauto|discriminate].
    + destruct h; try exact I; try (apply elem_of_app; left; exact T9);
      destruct T9 as [sg H]; exists sg; apply elem_of_app; left; exact H.
    + intros j Hj. apply lookup_snoc_inv in Hj as [Hj|[_ Hj]]; [|discriminate].
      destruct (T10 j Hj) as (Hh' & i & sig & Hi & Hs). split; [exact Hh'|].
      exists i, sig. split; [exact Hi|]. apply lookup_app_l_Some. exact Hs.
    + intros j Hj. apply lookup_snoc_inv in Hj as [Hj|[_ Hj]]; [|discriminate].
      destruct (T11 j Hj) as [H _]. discriminate H.
    + discriminate.
  - (* out of range: excluded *)
    destruct Hpc as (Hpc & Hh & Hlive & closed & Hplan).
    exfalso. apply (closeConnections_no_panic cfg reg Hreg).
    rewrite Hplan. apply elem_of_app. right. left.
Qed.

Lemma handler_step_trace_inv cfg reg tr0 sig s s' :
  state_inv cfg reg s -> status s = Running ->
  trace_inv cfg reg tr0 s -> handler_step sig s = Some s' -> trace_inv cfg reg tr0 s'.
Proof.
  intros (Hpc & Hwg & Hws & Hcn & Hst) Hrun (delta & Htr & [T1 T2 T3 T4 T5 T6 T7 T8 T9 T10 T11 T12]) Hstep.
  destruct s as [st pc h ws cn wgv tr]. unfold handler_step in Hstep. simpl in *.
  assert (Hnr : pc <> MReturned) by (intros ->; rewrite Hst in Hrun; discriminate).
  destruct h as [| |sig'| |]; try discriminate; injection Hstep as <-; unfold trace_inv; simpl;
    (eexists; split; [rewrite Htr, <- app_assoc; reflexivity|]); constructor; simpl.
  all: try (apply Forall_app; split; [exact T1|]; repeat constructor).
  all: try (intros k w Hk Hd; apply elem_of_app; left; eauto).
  all: try (intros j c0 Hj; apply lookup_snoc_inv in Hj as [Hj|[_ Hj]]; [eauto|discriminate]).
  all: try (intros i j c0 e Hj Hi He;
            apply lookup_snoc_inv in Hi as [Hi|[_ ->]]; [|discriminate];
            apply lookup_snoc_inv in Hj as [Hj|[_ Hj]]; [eauto|discriminate]).
  all: try (intros j c0 t Hj Ht;
            apply lookup_snoc_inv in Hj as [Hj|[_ Hj]]; [|discriminate];
            destruct (T6 j c0 t Hj Ht) as (i & Hi & Hd); exists i; split; [exact Hi|];
            apply lookup_app_l_Some; exact Hd).
  all: try (intros c0 Hc0; specialize (T7 c0 Hc0); destruct pc; try exact I;
            [destruct T7 as [H|H]; [left; apply elem_of_app; left; exact H|right; exact H]
            |apply elem_of_app; left; exact T7..]).
  all: try (intros j Hj; apply lookup_snoc_inv in Hj as [Hj|[_ Hj]]; [|discriminate];
            destruct (T11 j Hj) as [Hp Hafter]; split; [exact Hp|];
            intros i e Hi Hlt; apply lookup_snoc_inv in Hi as [Hi|[_ ->]];
            [exact (Hafter i e Hi Hlt)|reflexivity]).
  all: try (intros Hp; apply elem_of_app; left; exact (T12 Hp)).
  all: try exact I.
  all: try (intros j sg Hj; reflexivity).
  - exists sig. apply elem_of_app. right. left.
  - intros j Hj. apply lookup_snoc_inv in Hj as [Hj|[_ Hj]]; [|discriminate].
    destruct (T10 j Hj) as [H _]. discriminate.
  - destruct T9 as [sg H]. exists sg. apply elem_of_app. left. exact H.
  - intros j Hj. apply lookup_snoc_inv in Hj as [Hj|[_ Hj]]; [|discriminate].
    destruct (T10 j Hj) as [H _]. discriminate.
  - apply elem_of_app. right. left.
  - intros j Hj. split; [reflexivity|].
    apply lookup_snoc_inv in Hj as [Hj|[-> _]].
    + destruct (T10 j Hj) as [H _]. discriminate.
    + destruct T9 as [sg H]. apply list_elem_of_lookup in H as [i Hi]. exists i, sg.
      split; [apply lookup_lt_Some in Hi; exact Hi|]. apply lookup_app_l_Some. exact Hi.
Qed.

Lemma worker_step_trace_inv cfg reg tr0 k a s s' :
  wf_config cfg -> registry_ok cfg reg -> state_inv cfg reg s -> status s = Running ->
  trace_inv cfg reg tr0 s -> worker_step cfg reg k a s = Some s' -> trace_inv cfg reg tr0 s'.
Proof.
  intros Hwf Hreg (Hpc & Hwg & Hws & Hcn & Hst) Hrun
         (delta & Htr & [T1 T2 T3 T4 T5 T6 T7 T8 T9 T10 T11 T12]) Hstep.
  destruct s as [st pc h ws cn wgv tr]. unfold worker_step in Hstep. simpl in *.
  destruct (ws !! k) as [w|] eqn:Hk; [|discriminate].
  destruct (is_finished (w_pc w)) eqn:Hfin; [discriminate|].
  destruct (Forall_lookup_1 _ _ _ _ Hws Hk) as [Hinv Hnp].
  pose proof (wstep_spec cfg reg cn a w Hwf Hreg Hinv Hnp) as Hs.
  destruct (wstep cfg reg cn a w) as [w' evs].
  destruct Hs as (Hinv' & Hnp' & Ht' & Hout & Hret & Hnret & _).
  injection Hstep as <-.
  assert (Hnd : is_done (w_pc w) = false) by (destruct (w_pc w); try reflexivity; discriminate).
  assert (Hafter : after_wait pc = false).
  { destruct pc; try reflexivity; exfalso;
      [destruct Hpc as (_ & _ & Hz & _)|destruct Hpc as (_ & _ & Hz)|destruct Hpc as (_ & _ & Hz)];
      pose proof (live_count_zero ws k w Hz Hk) as Hd; rewrite Hd in Hnd; discriminate. }
  assert (Hnc : forall j c, delta !! j = Some (EvClose c) -> False).
  { intros j c Hj. rewrite (T3 j c Hj) in Hafter. discriminate. }
  assert (Hkind : forall j e, evs !! j = Some e ->
            is_startup_event e = false /\ e <> EvCancel /\ e <> EvLog AllDone /\
            (forall c, e <> EvClose c) /\ (forall sg, e <> EvSignal sg)).
  { intros j e Hj. pose proof (Forall_lookup_1 _ _ _ _ Hout Hj) as He.
    apply worker_output_kind in He. tauto. }
  assert (Hold : forall j e, (delta ++ evs) !! j = Some e ->
            (e = EvCancel \/ e = EvLog AllDone \/ (exists c, e = EvClose c) \/
             (exists sg, e = EvSignal sg)) -> delta !! j = Some e).
  { intros j e Hj He. apply lookup_app_Some in Hj as [Hj|[_ Hj]]; [exact Hj|].
    destruct (Hkind _ _ Hj) as (_ & H1 & H2 & H3 & H4).
    destruct He as [->|[->|[[c ->]|[sg ->]]]]; exfalso;
      [apply H1|apply H2|apply (H3 c)|apply (H4 sg)]; reflexivity. }
  unfold trace_inv. simpl. exists (delta ++ evs).
  split; [rewrite Htr, app_assoc; reflexivity|]. constructor; simpl.
  - apply Forall_app. split; [exact T1|]. apply Forall_lookup_2. intros j e Hj.
    apply (Hkind j e Hj).
  - intros k' w0 Hk' Hd. apply elem_of_app.
    destruct (decide (k' = k)) as [->|Hne].
    + rewrite list_lookup_insert_eq in Hk' by (apply lookup_lt_Some in Hk; exact Hk).
      injection Hk' as <-. right. rewrite Ht'.
      destruct (w_pc w) eqn:Hw; try discriminate;
        try (destruct (Hnret ltac:(discriminate)) as [Hd' _]; rewrite Hd in Hd'; discriminate).
      destruct (Hret eq_refl) as [_ ->]. left.
    + rewrite list_lookup_insert_ne in Hk' by congruence. left. eauto.
  - intros j c Hj. exfalso. apply (Hnc j c). apply Hold; eauto.
  - intros j c Hj. exfalso. apply (Hnc j c). apply Hold; eauto.
  - intros i j c e Hj _ _. exfalso. apply (Hnc j c). apply Hold; eauto.
  - intros j c t Hj _. exfalso. apply (Hnc j c). apply Hold; eauto.
  - intros c Hc. specialize (T7 c Hc). destruct pc; try exact I; discriminate.
  - intros j sg Hj. apply (T8 j sg). apply Hold; eauto.
  - destruct h; try exact I; try (apply elem_of_app; left; exact T9);
      destruct T9 as [sg H]; exists sg; apply elem_of_app; left; exact H.
  - intros j Hj. destruct (T10 j) as (Hh & i & sg & Hi & Hs); [apply Hold; eauto|].
    split; [exact Hh|]. exists i, sg. split; [exact Hi|]. apply lookup_app_l_Some. exact Hs.
  - intros j Hj. destruct (T11 j) as [Hr _]; [apply Hold; eauto|].
    destruct pc; discriminate.
  - intros Hp. destruct pc; discriminate.
Qed.

Lemma step_trace_inv cfg reg tr0 a s s' :
  wf_config cfg -> registry_ok cfg reg -> state_inv cfg reg s ->
  trace_inv cfg reg tr0 s -> step cfg reg a s = Some s' -> trace_inv cfg reg tr0 s'.
Proof.
  intros Hwf Hreg Hinv Htr Hstep. unfold step in Hstep.
  destruct (status s) eqn:Hst; try discriminate.
  destruct a as [|sig|k ans].
  - eapply main_step_trace_inv; eassumption.
  - eapply handler_step_trace_inv; eassumption.
  - eapply worker_step_trace_inv; eassumption.
Qed.

Lemma run_trace_inv cfg reg tr sched s :
  wf_config cfg -> registry_ok cfg reg ->
  run cfg reg sched (init_sys cfg tr) = Some s ->
  state_inv cfg reg s /\ trace_inv cfg reg tr s.
Proof.
  intros Hwf Hreg.
  apply (run_invariant cfg reg (fun s => state_inv cfg reg s /\ trace_inv cfg reg tr s)).
  - intros a s0 s1 [H1 H2] Hstep. split.
    + eapply step_state_inv; eassumption.
    + eapply step_trace_inv; eassumption.
  - split; [apply init_sys_state_inv|apply init_sys_trace_inv].
Qed.

(** ** Startup that succeeds creates sockets and reports them, nothing else *)

Lemma startup_since_refl {W} (st : Proc W) : startup_since (trace st) st.
Proof. exists []. split; [rewrite app_nil_r; reflexivity|constructor]. Qed.

Lemma startup_since_snoc {W} tr0 (w w' : W) tr e :
  is_startup_event e = true ->
  startup_since tr0 {| world := w; trace := tr |} ->
  startup_since tr0 {| world := w'; trace := tr ++ [e] |}.
Proof.
  intros He (delta & Htr & Hall). exists (delta ++ [e]). simpl in *.
  split; [rewrite Htr, app_assoc; reflexivity|].
  apply Forall_app. split; [exact Hall|]. constructor; [exact He|constructor].
Qed.

Lemma startup_since_world {W} tr0 (st : Proc W) (w : W) :
  startup_since tr0 st ->
  startup_since tr0 {| world := w; trace := trace st |}.
Proof. intros (delta & Htr & Hall). exists delta. simpl. auto. Qed.

Lemma forRange_ret {W A Acc} (body : nat -> A -> Acc -> M W Acc) (P : Proc W -> Prop) :
  (forall j x s st s' st', P st -> body j x s st = (Ret s', st') -> P st') ->
  forall xs idx s st s' st', P st -> forRange body idx xs s st = (Ret s', st') -> P st'.
Proof.
  intros Hbody. induction xs as [|x xs IH]; intros idx s st s' st' HP Hrun; simpl in Hrun.
  - unfold ret in Hrun. injection Hrun as _ <-. exact HP.
  - unfold bind in Hrun. destruct (body idx x s st) as [[s1|n|] st1] eqn:Hb; try discriminate.
    eapply IH; [|exact Hrun]. eapply Hbody; eassumption.
Qed.

Lemma provision_port_events {W} (net : NetLib W) tr0 dests g group mcastIP i ifName ifi
    localIP p port reg st reg' st' :
  startup_since tr0 st ->
  provision_port net dests g group mcastIP i ifName ifi localIP p port reg st = (Ret reg', st') ->
  startup_since tr0 st'.
Proof.
  intros Hq. unfold provision_port. mred.
  destruct (ListenMulticastUDP net ifi _ (world st)) as [[err|lconn] w1]; simpl;
    [discriminate|].
  destruct (dests !! p) as [destPort|]; simpl; [|discriminate].
  destruct (DialUDP net _ _ _) as [[err|senderConn] w2]; simpl; [discriminate|].
  destruct (grid_set (conns reg) (g, i, p) lconn); simpl; [|discriminate].
  destruct (grid_set (senders reg) (g, i, p) senderConn); simpl; [|discriminate].
  intros H. injection H as _ <-.
  repeat (apply (startup_since_snoc _ w1); [reflexivity|]).
  apply startup_since_world. exact Hq.
Qed.

Lemma main_startup_events {W} (net : NetLib W) f st cfg reg st' :
  main_startup net f st = (Ret (cfg, reg), st') -> startup_since (trace st) st'.
Proof.
  unfold main_startup. destruct (parseFlags f) as [m|cfg0]; [discriminate|].
  unfold bind, ret.
  destruct (initializeConnections _ _ _ _ _ st) as [[reg0|n|] st0] eqn:Hinit; try discriminate.
  intros H. injection H as _ _ <-. revert Hinit. unfold initializeConnections.
  apply (forRange_ret _ (startup_since (trace st))); [|apply startup_since_refl].
  intros g group reg1 st1 reg1' st1' H1. unfold provision_group.
  destruct (ParseIP net group) as [mcastIP|]; [|discriminate].
  apply (forRange_ret _ (startup_since (trace st))); [|exact H1].
  intros i ifName reg2 st2 reg2' st2' H2. unfold provision_iface, firstIPv4Addr. mred.
  destruct (InterfaceByName net ifName (world st2)) as [[err|ifi] w1]; simpl; [discriminate|].
  destruct (Interface_Addrs net ifi w1) as [[err|addrs] w2]; simpl; [discriminate|].
  destruct (firstIPv4Addr_loop net ifi addrs) as [err|localIP]; simpl; [discriminate|].
  apply (forRange_ret _ (startup_since (trace st)));
    [|apply startup_since_world; exact H2].
  intros p port reg3 st3 reg3' st3' H3. apply provision_port_events. exact H3.
Qed.

(** ** The process as [main] starts it *)

Lemma reachable_inv {W} (net : NetLib W) f st0 cfg reg st sched s :
  main_startup net f st0 = (Ret (cfg, reg), st) ->
  run cfg reg sched (init_sys cfg (trace st)) = Some s ->
  wf_config cfg /\ registry_ok cfg reg /\ state_inv cfg reg s /\
  trace_inv cfg reg (trace st) s.
Proof.
  intros Hstart Hrun.
  destruct (main_startup_ok net f st0 cfg reg st Hstart) as (_ & Hwf & Hreg & _).
  destruct (run_trace_inv cfg reg (trace st) sched s Hwf Hreg Hrun) as [H1 H2]. auto.
Qed.

Lemma startup_prefix {W} (net : NetLib W) f w cfg reg st :
  main_startup net f {| world := w; trace := [] |} = (Ret (cfg, reg), st) ->
  Forall (fun e => is_startup_event e = true) (trace st).
Proof.
  intros Hstart.
  destruct (main_startup_events net f _ cfg reg st Hstart) as (delta & Htr & Hall).
  simpl in Htr. rewrite Htr. exact Hall.
Qed.

Lemma lookup_run_part (tr0 delta : list Event) j e :
  Forall (fun e => is_startup_event e = true) tr0 ->
  (tr0 ++ delta) !! j = Some e -> is_startup_event e = false ->
  length tr0 <= j /\ delta !! (j - length tr0) = Some e.
Proof.
  intros Hall Hj He. apply lookup_app_Some in Hj as [Hj|Hj]; [|exact Hj].
  pose proof (Forall_lookup_1 _ _ _ _ Hall Hj) as H. simpl in H. congruence.
Qed.

Lemma lookup_startup_part (tr0 delta : list Event) i e :
  Forall (fun e => is_startup_event e = false) delta ->
  (tr0 ++ delta) !! i = Some e -> is_startup_event e = true ->
  tr0 !! i = Some e.
Proof.
  intros Hall Hi He. apply lookup_app_Some in Hi as [Hi|[_ Hi]]; [exact Hi|].
  pose proof (Forall_lookup_1 _ _ _ _ Hall Hi) as H. simpl in H. congruence.
Qed.

Lemma live_count_pos ws :
  live_count ws <> 0 -> exists k w, ws !! k = Some w /\ is_done (w_pc w) = false.
Proof.
  induction ws as [|x ws IH]; simpl; intros H; [contradiction|].
  destruct (is_done (w_pc x)) eqn:Hx.
  - destruct IH as (k & w & Hk & Hw); [lia|]. exists (S k), w. auto.
  - exists 0, x. auto.
Qed.

Lemma live_count_all_done ws :
  live_count ws = 0 <-> Forall (fun w => w_pc w = WDone) ws.
Proof.
  induction ws as [|x ws IH]; simpl.
  - split; [constructor|reflexivity].
  - rewrite Forall_cons, <- IH. destruct (w_pc x); simpl; split;
      try (intros H; lia); try (intros [H _]; discriminate).
    intros H. split; [reflexivity|exact H].
Qed.

Lemma workers_fuel_bound n ws : workers_fuel n ws <= length ws * (n + 5).
Proof.
  induction ws as [|x ws IH]; simpl; [lia|]. pose proof (wfuel_bound n (w_pc x)). lia.
Qed.

Lemma step_fuel cfg reg a s s' :
  wf_config cfg -> registry_ok cfg reg -> state_inv cfg reg s ->
  cancelled s = true -> step cfg reg a s = Some s' ->
  fuel cfg reg s' < fuel cfg reg s /\ cancelled s' = true.
Proof.
  intros Hwf Hreg (Hpc & Hwg & Hws & Hcn & Hst) Hc Hstep.
  apply Hcn in Hc as Hh. unfold step in Hstep.
  destruct (status s) eqn:Hrun; try discriminate.
  destruct s as [st pc h ws cn wgv tr]. simpl in *. subst h cn.
  destruct a as [|sig|k ans].
  - unfold main_step in Hstep. simpl in Hstep.
    destruct pc as [[|t todo]|t todo| | |[|[c|] todo]| |];
      try (destruct Hpc as [_ Hn]; discriminate);
      try match type of Hstep with
          | context [(wgv =? 0)%Z] => destruct (wgv =? 0)%Z eqn:Hz
          end; try discriminate;
      injection Hstep as <-; unfold fuel; simpl; split; try reflexivity; lia.
  - discriminate.
  - unfold worker_step in Hstep. simpl in Hstep.
    destruct (ws !! k) as [w|] eqn:Hk; [|discriminate].
    destruct (is_finished (w_pc w)) eqn:Hfin; [discriminate|].
    destruct (Forall_lookup_1 _ _ _ _ Hws Hk) as [Hinv Hnp].
    pose proof (wstep_spec cfg reg true ans w Hwf Hreg Hinv Hnp) as Hs.
    destruct (wstep cfg reg true ans w) as [w' evs].
    destruct Hs as (_ & _ & _ & _ & _ & _ & Hdec).
    injection Hstep as <-. unfold fuel. simpl. split; [|reflexivity].
    pose proof (workers_fuel_insert (length (ifaces cfg)) ws k w w' Hk) as Hf.
    assert (Hnd : is_done (w_pc w) = false)
      by (destruct (w_pc w); try reflexivity; discriminate).
    specialize (Hdec eq_refl Hnd). lia.
Qed.

Lemma run_fuel cfg reg :
  wf_config cfg -> registry_ok cfg reg ->
  forall sched s s',
    state_inv cfg reg s -> cancelled s = true ->
    run cfg reg sched s = Some s' ->
    length sched + fuel cfg reg s' <= fuel cfg reg s /\ cancelled s' = true.
Proof.
  intros Hwf Hreg. induction sched as [|a sched IH]; intros s s' Hinv Hc Hrun; simpl in *.
  - injection Hrun as <-. split; [lia|exact Hc].
  - destruct (step cfg reg a s) as [s1|] eqn:Hs; [|discriminate].
    destruct (step_fuel cfg reg a s s1 Hwf Hreg Hinv Hc Hs) as [Hlt Hc1].
    pose proof (step_state_inv cfg reg a s s1 Hwf Hreg Hinv Hs) as Hinv1.
    destruct (IH s1 s' Hinv1 Hc1 Hrun) as [Hle Hc']. split; [lia|exact Hc'].
Qed.

Lemma run_app cfg reg sched1 sched2 s :
  run cfg reg (sched1 ++ sched2) s =
  match run cfg reg sched1 s with
  | Some s1 => run cfg reg sched2 s1
  | None => None
  end.
Proof.
  revert s. induction sched1 as [|a sched1 IH]; intros s; simpl; [reflexivity|].
  destruct (step cfg reg a s); [apply IH|reflexivity].
Qed.

Lemma step_progress cfg reg s :
  state_inv cfg reg s -> registry_ok cfg reg ->
  status s = Exited 0 \/
  (exists k a s', step cfg reg (AWorker k a) s = Some s') \/
  (live_count (workers s) = 0 /\ exists s', step cfg reg AMain s = Some s').
Proof.
  intros (Hpc & Hwg & Hws & Hcn & Hst) Hreg.
  destruct s as [st pc h ws cn wgv tr]. simpl in *.
  assert (Hcase : pc = MReturned \/ (pc <> MReturned /\ st = Running)).
  { destruct pc; try (right; split; [discriminate|exact Hst]). left. reflexivity. }
  destruct Hcase as [->|[Hnr Hrun]]; [left; exact Hst|right].
  destruct (decide (live_count ws = 0)) as [Hz|Hnz].
  - right. split; [exact Hz|]. unfold step, main_step. simpl. rewrite Hrun.
    destruct pc as [[|t todo]|t todo| | |[|[c|] todo]| |]; eauto; try contradiction.
    rewrite Hwg, Hz. simpl. eauto.
  - left. destruct (live_count_pos ws Hnz) as (k & w & Hk & Hw).
    exists k, no_error_answer. unfold step, worker_step. simpl. rewrite Hrun, Hk.
    destruct (Forall_lookup_1 _ _ _ _ Hws Hk) as [_ Hnp].
    destruct (w_pc w) eqn:Hpcw; try discriminate; try contradiction; simpl;
      destruct (wstep cfg reg cn no_error_answer w) as [w' evs]; eauto.
Qed.

Lemma run_close cfg reg : forall todo s,
  status s = Running -> mainpc s = MClose todo -> DoPanic ∉ todo ->
  exists s', run cfg reg (replicate (length todo + 2) AMain) s = Some s' /\
             status s' = Exited 0 /\ cancelled s' = cancelled s /\
             handler s' = handler s /\ workers s' = workers s.
Proof.
  induction todo as [|[c|] todo IH]; intros s Hrun Hpc Hnp.
  - simpl. unfold step, main_step. rewrite Hrun, Hpc. simpl. eauto 10.
  - cbn [length Nat.add replicate run]. unfold step at 1, main_step. rewrite Hrun, Hpc.
    destruct (IH {| status := Running; mainpc := MClose todo; handler := handler s;
                    workers := workers s; cancelled := cancelled s; wg := wg s;
                    sys_trace := sys_trace s ++ [EvClose c] |}) as (s' & H & Hs);
      [reflexivity|reflexivity| |].
    + intros H. apply Hnp. right. exact H.
    + exists s'. split; [exact H|exact Hs].
  - exfalso. apply Hnp. left.
Qed.

(** X21. The process never crashes, whatever the flags, the network and the
    scheduling: no goroutine indexes a slice out of range or uses a missing
    socket, [closeConnections] stays inside the registries, and the
    [WaitGroup] counter never goes below zero.  The only ends of the process
    are the fatal exits of startup and the return of [main]. *)
Theorem process_never_crashes {W} (net : NetLib W) f (w : W) sched s :
  process net f w sched = Some s ->
  status s <> Crashed /\ (0 <= wg s)%Z /\
  Forall (fun wk => w_pc wk <> WPanicked) (workers s).
Proof.
  unfold process. intros Hrun.
  pose proof (main_startup_spec net f {| world := w; trace := [] |}) as Hspec.
  destruct (main_startup net f {| world := w; trace := [] |}) as [[[cfg reg]|n|] st] eqn:Hstart.
  - destruct (reachable_inv net f _ cfg reg st sched s Hstart Hrun)
      as (_ & _ & (Hpc & Hwg & Hws & _ & Hst) & _).
    split; [|split].
    + rewrite Hst. destruct (mainpc s); discriminate.
    + rewrite Hwg. destruct (mainpc s); lia.
    + eapply Forall_impl; [exact Hws|]. intros wk [_ H]. exact H.
  - apply run_not_running in Hrun as [_ ->]; [|discriminate]. simpl.
    split; [discriminate|]. split; [lia|constructor].
  - contradiction.
Qed.

(** X22. [startForwarding] starts one goroutine per triple of the Cartesian
    product, in the order of its three loops; [handleShutdown] is called only
    when all of them exist, and from then on the [WaitGroup] counter is the
    number of goroutines that have not yet returned. *)
Theorem one_worker_per_triple {W} (net : NetLib W) f st0 cfg reg st sched s :
  main_startup net f st0 = (Ret (cfg, reg), st) ->
  run cfg reg sched (init_sys cfg (trace st)) = Some s ->
  (exists todo, (w_triple <$> workers s) ++ todo =
                triples (length (groups cfg)) (length (ifaces cfg)) (length (ports cfg))) /\
  (handler s <> HNone ->
     w_triple <$> workers s =
       triples (length (groups cfg)) (length (ifaces cfg)) (length (ports cfg)) /\
     wg s = Z.of_nat (live_count (workers s))).
Proof.
  intros Hstart Hrun.
  destruct (reachable_inv net f _ cfg reg st sched s Hstart Hrun)
    as (_ & _ & (Hpc & Hwg & _) & _).
  fold (cfg_triples cfg). split.
  - destruct (mainpc s); try (destruct Hpc as [Hpc _]; eauto; fail);
      destruct Hpc as [Hpc _]; exists []; rewrite app_nil_r; exact Hpc.
  - intros Hh. destruct (mainpc s); try (destruct Hpc as [_ Hn]; contradiction);
      destruct Hpc as [Hpc _]; (split; [exact Hpc|rewrite Hwg; lia]).
Qed.

(** X23. [main] gets past [wg.Wait()] only when every goroutine has called
    [wg.Done()]: while one of them is still running, [main] cannot move
    from line 136, and whenever [main] is beyond it all goroutines are
    finished. *)
Theorem main_waits_for_workers {W} (net : NetLib W) f st0 cfg reg st sched s :
  main_startup net f st0 = (Ret (cfg, reg), st) ->
  run cfg reg sched (init_sys cfg (trace st)) = Some s ->
  (mainpc s = MWait -> live_count (workers s) <> 0 -> step cfg reg AMain s = None) /\
  (after_wait (mainpc s) = true ->
     length (workers s) = length (cfg_triples cfg) /\
     Forall (fun wk => w_pc wk = WDone) (workers s)).
Proof.
  intros Hstart Hrun.
  destruct (reachable_inv net f _ cfg reg st sched s Hstart Hrun)
    as (_ & _ & (Hpc & Hwg & _ & _ & Hst) & _).
  split.
  - intros Hw Hlive. unfold step, main_step. rewrite Hw in *.
    destruct (status s); try reflexivity.
    replace (wg s =? 0)%Z with false; [reflexivity|]. symmetry. apply Z.eqb_neq. lia.
  - intros Hafter.
    assert (H : w_triple <$> workers s = cfg_triples cfg /\ live_count (workers s) = 0).
    { destruct (mainpc s); try discriminate; tauto. }
    destruct H as [Ht Hz]. split.
    + rewrite <- Ht. rewrite length_fmap. reflexivity.
    + apply live_count_all_done. exact Hz.
Qed.

(** X24. Sockets are closed only when forwarding is over: every [Close] is applied
    to a socket of the registries, comes after every socket operation of
    every goroutine, and after the [wg.Done()] of each of them. *)
Theorem sockets_closed_after_workers_done {W} (net : NetLib W) f w cfg reg st sched s j c :
  main_startup net f {| world := w; trace := [] |} = (Ret (cfg, reg), st) ->
  run cfg reg sched (init_sys cfg (trace st)) = Some s ->
  sys_trace s !! j = Some (EvClose c) ->
  holds reg c /\
  (forall i e, sys_trace s !! i = Some e -> is_worker_event e = true -> i < j) /\
  (forall t, t ∈ cfg_triples cfg -> exists i, i < j /\ sys_trace s !! i = Some (EvDone t)).
Proof.
  intros Hstart Hrun Hj.
  destruct (reachable_inv net f _ cfg reg st sched s Hstart Hrun)
    as (_ & Hreg & _ & delta & Htr & [T1 T2 T3 T4 T5 T6 T7 T8 T9 T10 T11 T12]).
  pose proof (startup_prefix net f w cfg reg st Hstart) as Hpre.
  rewrite Htr in *.
  apply lookup_run_part in Hj as [Hle Hj]; [|exact Hpre|reflexivity].
  split; [|split].
  - apply (closeConnections_spec cfg reg Hreg). eauto.
  - intros i e Hi He.
    apply lookup_run_part in Hi as [Hle' Hi]; [|exact Hpre|destruct e; try discriminate; reflexivity].
    pose proof (T5 _ _ _ _ Hj Hi He). lia.
  - intros t Ht. destruct (T6 _ _ t Hj Ht) as (i & Hi & Hd).
    exists (length (trace st) + i). split; [lia|].
    rewrite lookup_app_r by lia.
    replace (length (trace st) + i - length (trace st)) with i by lia. exact Hd.
Qed.

(** X25. When [main] has returned, the exit status is 0, every forwarding
    goroutine is finished (the goroutine of [handleShutdown] need not be: it
    may still be waiting for a signal), and the line All done was printed
    exactly once, after every socket of the registries had been closed.  The
    line need not be the last thing the process wrote: between line 141 and
    the return of [main] the signal handler can still take a signal, log it
    and cancel, and nothing else can follow the line. *)
Theorem exit_is_clean {W} (net : NetLib W) f w cfg reg st sched s :
  main_startup net f {| world := w; trace := [] |} = (Ret (cfg, reg), st) ->
  run cfg reg sched (init_sys cfg (trace st)) = Some s ->
  status s <> Running ->
  status s = Exited 0 /\
  Forall (fun wk => w_pc wk = WDone) (workers s) /\
  exists pre post, sys_trace s = pre ++ EvLog AllDone :: post /\
                   (EvLog AllDone ∉ pre) /\
                   (forall c', holds reg c' -> EvClose c' ∈ pre) /\
                   Forall (fun e => is_handler_event e = true) post.
Proof.
  intros Hstart Hrun Hend.
  destruct (reachable_inv net f _ cfg reg st sched s Hstart Hrun)
    as (_ & Hreg & (Hpc & Hwg & _ & _ & Hst) & delta & Htr &
        [T1 T2 T3 T4 T5 T6 T7 T8 T9 T10 T11 T12]).
  pose proof (startup_prefix net f w cfg reg st Hstart) as Hpre.
  destruct (mainpc s) eqn:Hm; try contradiction.
  split; [exact Hst|]. destruct Hpc as (_ & _ & Hz). split.
  { apply live_count_all_done. exact Hz. }
  specialize (T12 eq_refl). apply list_elem_of_lookup in T12 as [j Hj].
  destruct (T11 j Hj) as [_ Hafter].
  exists (trace st ++ take j delta), (drop (S j) delta). split; [|split; [|split]].
  - rewrite Htr, <- app_assoc, (take_drop_middle delta j _ Hj). reflexivity.
  - intros Hin. apply elem_of_app in Hin as [Hin|Hin].
    + rewrite Forall_forall in Hpre. specialize (Hpre _ Hin). discriminate Hpre.
    + apply elem_of_take in Hin as (i & Hi & Hlt).
      destruct (T11 i Hi) as [_ Hafter']. specialize (Hafter' j _ Hj Hlt). discriminate Hafter'.
  - intros c' Hc'. apply (closeConnections_spec cfg reg Hreg) in Hc'.
    specialize (T7 c' Hc'). apply elem_of_app. right.
    apply list_elem_of_lookup in T7 as [i Hi]. apply elem_of_take. exists i.
    split; [exact Hi|].
    destruct (Nat.lt_trichotomy i j) as [Hlt|[->|Hgt]]; [exact Hlt| |].
    + rewrite Hj in Hi. discriminate Hi.
    + specialize (Hafter i _ Hi Hgt). discriminate Hafter.
  - apply Forall_lookup_2. intros k e Hk. rewrite lookup_drop in Hk.
    apply (Hafter _ e Hk). lia.
Qed.

(** X26. The context is cancelled by the signal handler only: [ctx.Done()] is
    closed exactly when [cancel()] has been called, and every call of
    [cancel()] comes after a signal was taken from the channel. *)
Theorem cancel_follows_signal {W} (net : NetLib W) f w cfg reg st sched s :
  main_startup net f {| world := w; trace := [] |} = (Ret (cfg, reg), st) ->
  run cfg reg sched (init_sys cfg (trace st)) = Some s ->
  (cancelled s = true <-> EvCancel ∈ sys_trace s) /\
  (forall j, sys_trace s !! j = Some EvCancel ->
     exists i sig, i < j /\ sys_trace s !! i = Some (EvSignal sig)).
Proof.
  intros Hstart Hrun.
  destruct (reachable_inv net f _ cfg reg st sched s Hstart Hrun)
    as (_ & Hreg & (_ & _ & _ & Hcn & _) & delta & Htr &
        [T1 T2 T3 T4 T5 T6 T7 T8 T9 T10 T11 T12]).
  pose proof (startup_prefix net f w cfg reg st Hstart) as Hpre.
  rewrite Htr. split; [split|].
  - intros Hc. apply Hcn in Hc. rewrite Hc in T9. apply elem_of_app. right. exact T9.
  - intros Hin. apply list_elem_of_lookup in Hin as [j Hj].
    apply lookup_run_part in Hj as [_ Hj]; [|exact Hpre|reflexivity].
    apply Hcn. apply (T10 _ Hj).
  - intros j Hj. apply lookup_run_part in Hj as [Hle Hj]; [|exact Hpre|reflexivity].
    destruct (T10 _ Hj) as (_ & i & sig & Hi & Hs).
    exists (length (trace st) + i), sig. split; [lia|].
    rewrite lookup_app_r by lia.
    replace (length (trace st) + i - length (trace st)) with i by lia. exact Hs.
Qed.

(** X27. All sockets are made before forwarding starts: every call of
    [ListenMulticastUDP] and [DialUDP] belongs to startup, and comes before
    every socket operation and every [wg.Done()] of the goroutines. *)
Theorem sockets_created_before_workers_run {W} (net : NetLib W) f w cfg reg st sched s i e :
  main_startup net f {| world := w; trace := [] |} = (Ret (cfg, reg), st) ->
  run cfg reg sched (init_sys cfg (trace st)) = Some s ->
  sys_trace s !! i = Some e -> is_creation_call e = true ->
  trace st !! i = Some e /\
  forall j e', sys_trace s !! j = Some e' -> is_worker_event e' = true -> i < j.
Proof.
  intros Hstart Hrun Hi He.
  destruct (reachable_inv net f _ cfg reg st sched s Hstart Hrun)
    as (_ & _ & _ & delta & Htr & [T1 T2 T3 T4 T5 T6 T7 T8 T9 T10 T11 T12]).
  pose proof (startup_prefix net f w cfg reg st Hstart) as Hpre.
  rewrite Htr in *.
  assert (Hi0 : trace st !! i = Some e).
  { apply (lookup_startup_part _ delta); [exact T1|exact Hi|].
    destruct e; try discriminate; reflexivity. }
  split; [exact Hi0|]. intros j e' Hj He'.
  apply lookup_run_part in Hj as [Hle _]; [|exact Hpre|destruct e'; try discriminate; reflexivity].
  apply lookup_lt_Some in Hi0. lia.
Qed.

(** X28. Graceful shutdown is bounded: once the context is cancelled the process
    takes at most [fuel] more steps, whatever the scheduling and whatever
    the network answers, and [fuel] is at most the number of sockets to close
    plus 3 plus (number of interfaces + 5) per goroutine. *)
Theorem shutdown_is_bounded {W} (net : NetLib W) f st0 cfg reg st sched s sched' s' :
  main_startup net f st0 = (Ret (cfg, reg), st) ->
  run cfg reg sched (init_sys cfg (trace st)) = Some s ->
  cancelled s = true ->
  run cfg reg sched' s = Some s' ->
  length sched' <= fuel cfg reg s /\
  fuel cfg reg s <= length (closeConnections reg) + 3 +
                    length (cfg_triples cfg) * (length (ifaces cfg) + 5).
Proof.
  intros Hstart Hrun Hc Hrun'.
  destruct (reachable_inv net f _ cfg reg st sched s Hstart Hrun)
    as (Hwf & Hreg & Hinv & _).
  destruct (run_fuel cfg reg Hwf Hreg sched' s s' Hinv Hc Hrun') as [Hle _].
  split; [lia|].
  destruct Hinv as (Hpc & _ & _ & Hcn & _). apply Hcn in Hc.
  unfold fuel.
  pose proof (workers_fuel_bound (length (ifaces cfg)) (workers s)) as Hb.
  assert (Hlen : length (workers s) = length (cfg_triples cfg) /\
                 mfuel (length (closeConnections reg)) (mainpc s) <=
                 length (closeConnections reg) + 3).
  { destruct (mainpc s); try (destruct Hpc as [_ Hn]; congruence);
      (split; [destruct Hpc as [<- _]; rewrite length_fmap; reflexivity|simpl; try lia]).
    destruct Hpc as (_ & _ & _ & closed & ->). rewrite length_app. lia. }
  destruct Hlen as [Hlen Hm]. rewrite Hlen in Hb. lia.
Qed.

(** X29. The process never deadlocks: as long as [main] has not returned, some
    goroutine can move, a forwarding goroutine while one is still running,
    and [main] itself once they are all finished. *)
Theorem process_never_deadlocks {W} (net : NetLib W) f st0 cfg reg st sched s :
  main_startup net f st0 = (Ret (cfg, reg), st) ->
  run cfg reg sched (init_sys cfg (trace st)) = Some s ->
  status s = Exited 0 \/
  (exists k a s', step cfg reg (AWorker k a) s = Some s') \/
  (live_count (workers s) = 0 /\ exists s', step cfg reg AMain s = Some s').
Proof.
  intros Hstart Hrun.
  destruct (reachable_inv net f _ cfg reg st sched s Hstart Hrun)
    as (Hwf & Hreg & Hinv & _).
  apply step_progress; assumption.
Qed.

Lemma wait_runs_to_exit cfg reg s :
  registry_ok cfg reg -> state_inv cfg reg s ->
  mainpc s = MWait -> live_count (workers s) = 0 ->
  exists s', run cfg reg (replicate (length (closeConnections reg) + 3) AMain) s = Some s' /\
             status s' = Exited 0 /\ cancelled s' = cancelled s /\ handler s' = handler s.
Proof.
  intros Hreg (Hpc & Hwg & _ & _ & Hst) Hpcw Hz.
  rewrite Hpcw in *. rewrite Hz in Hwg. simpl in Hwg.
  replace (length (closeConnections reg) + 3) with (S (length (closeConnections reg) + 2)) by lia.
  cbn [replicate run]. unfold step at 1, main_step. rewrite Hst, Hpcw, Hwg. simpl Z.eqb. cbv iota.
  destruct (run_close cfg reg (closeConnections reg)
              {| status := Running; mainpc := MClose (closeConnections reg);
                 handler := handler s; workers := workers s; cancelled := cancelled s;
                 wg := 0; sys_trace := sys_trace s |})
    as (s' & H & Hs1 & Hs2 & Hs3 & _); [reflexivity|reflexivity| |].
  - apply (closeConnections_no_panic cfg reg Hreg).
  - exists s'. auto.
Qed.

(** X30. [main] does not wait for a signal: as soon as every goroutine has
    returned, be it after a read error and with the handler still waiting,
    [wg.Wait()] returns, the sockets are closed and the process exits with
    status 0, the context never having been cancelled. *)
Theorem process_ends_when_all_workers_return {W} (net : NetLib W) f st0 cfg reg st sched s :
  main_startup net f st0 = (Ret (cfg, reg), st) ->
  run cfg reg sched (init_sys cfg (trace st)) = Some s ->
  mainpc s = MWait -> live_count (workers s) = 0 ->
  exists s', run cfg reg (replicate (length (closeConnections reg) + 3) AMain) s = Some s' /\
             status s' = Exited 0 /\ cancelled s' = cancelled s /\ handler s' = handler s.
Proof.
  intros Hstart Hrun Hpcw Hz.
  destruct (reachable_inv net f _ cfg reg st sched s Hstart Hrun)
    as (Hwf & Hreg & Hinv & _).
  apply wait_runs_to_exit; assumption.
Qed.

(** ** The system theorems on the interfaces A, B, C *)

Lemma startup_state_abc :
  main_startup (toy_net 0 0) flags_abc {| world := 0; trace := [] |} =
    (Ret (config_abc, registry_abc), state_abc).
Proof. exact startup_abc. Qed.

Ltac abc_state sched s H :=
  let Hc := fresh "Hc" in
  assert (Hc : option_map (fun _ => tt) (run_abc sched) = Some tt)
    by (vm_compute; reflexivity);
  destruct (run_abc sched) as [s|] eqn:H; [clear Hc|discriminate Hc].

Lemma process_never_crashes_witness :
  exists s, process (toy_net 0 0) flags_abc 0 lifecycle_abc = Some s /\
            status s <> Crashed /\ (0 <= wg s)%Z /\
            Forall (fun wk => w_pc wk <> WPanicked) (workers s).
Proof.
  assert (Hc : option_map status (process (toy_net 0 0) flags_abc 0 lifecycle_abc) =
               Some (Exited 0)) by (vm_compute; reflexivity).
  destruct (process (toy_net 0 0) flags_abc 0 lifecycle_abc) as [s|] eqn:H;
    [|discriminate Hc].
  exists s. split; [reflexivity|].
  exact (process_never_crashes (toy_net 0 0) flags_abc 0 lifecycle_abc s H).
Defined.

Lemma one_worker_per_triple_witness :
  exists s, run_abc spawn_abc = Some s /\
            w_triple <$> workers s = [(0, 0, 0); (0, 1, 0); (0, 2, 0)] /\
            wg s = Z.of_nat (live_count (workers s)).
Proof.
  assert (Hh : option_map handler (run_abc spawn_abc) = Some HWaiting)
    by (vm_compute; reflexivity).
  abc_state spawn_abc s H. exists s. split; [reflexivity|].
  apply (proj2 (one_worker_per_triple (toy_net 0 0) flags_abc _ config_abc registry_abc
                  state_abc spawn_abc s startup_state_abc H)).
  simpl in Hh. injection Hh as ->. discriminate.
Defined.

Lemma main_waits_for_workers_witness :
  exists s, run_abc spawn_abc = Some s /\
            step config_abc registry_abc AMain s = None.
Proof.
  assert (Hh : option_map (fun s => (mainpc s, live_count (workers s))) (run_abc spawn_abc) =
               Some (MWait, 3)) by (vm_compute; reflexivity).
  abc_state spawn_abc s H. exists s. split; [reflexivity|].
  simpl in Hh. injection Hh as Hpc Hlive.
  apply (proj1 (main_waits_for_workers (toy_net 0 0) flags_abc _ config_abc registry_abc
                  state_abc spawn_abc s startup_state_abc H)); [exact Hpc|].
  rewrite Hlive. discriminate.
Defined.

Lemma sockets_closed_after_workers_done_witness :
  exists s, run_abc lifecycle_abc = Some s /\
            sys_trace s !! 18 = Some (EvClose 0) /\
            holds registry_abc 0 /\
            exists i, i < 18 /\ sys_trace s !! i = Some (EvDone (0, 2, 0)).
Proof.
  assert (Hh : option_map (fun s => sys_trace s !! 18) (run_abc lifecycle_abc) =
               Some (Some (EvClose 0))) by (vm_compute; reflexivity).
  abc_state lifecycle_abc s H. exists s. split; [reflexivity|].
  simpl in Hh. injection Hh as Hj. split; [exact Hj|].
  destruct (sockets_closed_after_workers_done (toy_net 0 0) flags_abc 0 config_abc
              registry_abc state_abc lifecycle_abc s 18 0 startup_state_abc H Hj)
    as (Hholds & _ & Hdone).
  split; [exact Hholds|]. apply Hdone. vm_compute. right. right. left.
Defined.

Lemma exit_is_clean_witness :
  exists s, run_abc late_signal_abc = Some s /\ status s = Exited 0 /\
            last (sys_trace s) = Some (EvSignal SIGINT) /\
            exists pre post, sys_trace s = pre ++ EvLog AllDone :: post /\
                             EvClose 5 ∈ pre /\
                             Forall (fun e => is_handler_event e = true) post.
Proof.
  assert (Hh : option_map (fun s => (status s, last (sys_trace s))) (run_abc late_signal_abc) =
               Some (Exited 0, Some (EvSignal SIGINT)))
    by (vm_compute; reflexivity).
  abc_state late_signal_abc s H. exists s. split; [reflexivity|].
  simpl in Hh. injection Hh as Hst Hlast.
  destruct (exit_is_clean (toy_net 0 0) flags_abc 0 config_abc registry_abc state_abc
              late_signal_abc s startup_state_abc H)
    as (Hexit & _ & pre & post & Htr & _ & Hclosed & Hpost).
  { rewrite Hst. discriminate. }
  split; [exact Hexit|]. split; [exact Hlast|].
  exists pre, post. split; [exact Htr|]. split; [|exact Hpost].
  apply Hclosed. exists KDial, (0, 2, 0). reflexivity.
Defined.

Lemma cancel_follows_signal_witness :
  exists s, run_abc signal_abc = Some s /\ cancelled s = true /\
            EvCancel ∈ sys_trace s.
Proof.
  assert (Hh : option_map cancelled (run_abc signal_abc) = Some true)
    by (vm_compute; reflexivity).
  abc_state signal_abc s H. exists s. split; [reflexivity|].
  simpl in Hh. injection Hh as Hc. split; [exact Hc|].
  apply (proj1 (cancel_follows_signal (toy_net 0 0) flags_abc 0 config_abc registry_abc
                  state_abc signal_abc s startup_state_abc H)). exact Hc.
Defined.

Lemma sockets_created_before_workers_run_witness :
  exists s, run_abc lifecycle_abc = Some s /\
            sys_trace s !! 0 = Some first_listen_abc /\
            forall j e', sys_trace s !! j = Some e' -> is_worker_event e' = true -> 0 < j.
Proof.
  assert (Hh : option_map (fun s => sys_trace s !! 0) (run_abc lifecycle_abc) =
               Some (Some first_listen_abc)) by (vm_compute; reflexivity).
  abc_state lifecycle_abc s H. exists s. split; [reflexivity|].
  simpl in Hh. injection Hh as Hi. split; [exact Hi|].
  apply (sockets_created_before_workers_run (toy_net 0 0) flags_abc 0 config_abc
           registry_abc state_abc lifecycle_abc s 0 first_listen_abc startup_state_abc H Hi).
  vm_compute. reflexivity.
Defined.

Lemma shutdown_is_bounded_witness :
  exists s s', run_abc signal_abc = Some s /\
               run config_abc registry_abc wind_down_abc s = Some s' /\
               length wind_down_abc <= fuel config_abc registry_abc s.
Proof.
  assert (Hc : option_map cancelled (run_abc signal_abc) = Some true)
    by (vm_compute; reflexivity).
  assert (Hh : option_map status (run_abc lifecycle_abc) = Some (Exited 0))
    by (vm_compute; reflexivity).
  unfold lifecycle_abc in Hh. rewrite run_app in Hh.
  destruct (run_abc signal_abc) as [s|] eqn:H; [|discriminate Hc].
  destruct (run config_abc registry_abc wind_down_abc s) as [s'|] eqn:H'; [|discriminate Hh].
  exists s, s'. split; [reflexivity|]. split; [exact H'|].
  simpl in Hc. injection Hc as Hc.
  apply (shutdown_is_bounded (toy_net 0 0) flags_abc _ config_abc registry_abc state_abc
           signal_abc s wind_down_abc s' startup_state_abc H Hc H').
Defined.

Lemma process_never_deadlocks_witness :
  exists s, run_abc spawn_abc = Some s /\
    (status s = Exited 0 \/
     (exists k a s', step config_abc registry_abc (AWorker k a) s = Some s') \/
     (live_count (workers s) = 0 /\
      exists s', step config_abc registry_abc AMain s = Some s')).
Proof.
  abc_state spawn_abc s H. exists s. split; [reflexivity|].
  exact (process_never_deadlocks (toy_net 0 0) flags_abc _ config_abc registry_abc state_abc
           spawn_abc s startup_state_abc H).
Defined.

Lemma process_ends_when_all_workers_return_witness :
  exists s s', run_abc read_errors_abc = Some s /\ cancelled s = false /\
    run config_abc registry_abc (replicate (length (closeConnections registry_abc) + 3) AMain) s
      = Some s' /\
    status s' = Exited 0 /\ cancelled s' = false.
Proof.
  assert (Hh : option_map (fun s => (mainpc s, live_count (workers s), cancelled s))
                 (run_abc read_errors_abc) = Some (MWait, 0, false))
    by (vm_compute; reflexivity).
  abc_state read_errors_abc s H.
  simpl in Hh. injection Hh as Hpc Hlive Hc.
  destruct (process_ends_when_all_workers_return (toy_net 0 0) flags_abc _ config_abc
              registry_abc state_abc read_errors_abc s startup_state_abc H Hpc Hlive)
    as (s' & Hrun & Hst & Hc' & _).
  exists s, s'. rewrite Hc in Hc'. auto.
Defined.

(* ================================================================== *)
(** * The registry and the order of shutdown                           *)
(* ================================================================== *)

Lemma registry_ok_exact cfg reg t :
  registry_ok cfg reg ->
  (t ∈ cfg_triples cfg <->
   exists lc sc, grid_get (conns reg) t = Some (Some lc) /\
                 grid_get (senders reg) t = Some (Some sc)) /\
  (t ∉ cfg_triples cfg ->
   grid_get (conns reg) t = None /\ grid_get (senders reg) t = None).
Proof.
  intros (Hdc & Hds & Hfull). destruct t as [[g i] p].
  assert (Hin : forall gr, grid_dims gr (length (groups cfg)) (length (ifaces cfg))
                             (length (ports cfg)) ->
                           is_Some (grid_get gr (g, i, p)) -> (g, i, p) ∈ cfg_triples cfg).
  { intros gr Hd Hs. apply elem_of_cfg_triples. eapply grid_get_dims_inv; eassumption. }
  split; [split|].
  - apply Hfull.
  - intros (lc & sc & Hc & _). apply (Hin (conns reg) Hdc). eauto.
  - intros Hout. split.
    + destruct (grid_get (conns reg) (g, i, p)) eqn:H; [|reflexivity].
      exfalso. apply Hout, (Hin (conns reg) Hdc). rewrite H. eauto.
    + destruct (grid_get (senders reg) (g, i, p)) eqn:H; [|reflexivity].
      exfalso. apply Hout, (Hin (senders reg) Hds). rewrite H. eauto.
Qed.

(** C7. After successful provisioning the registry is exactly the Cartesian
    product: every triple (group, interface, port index) of the three lists
    has one listener and one sender, and there is no place outside the
    product.  These sockets are the ones startup created, one listener and
    one sender per triple in loop order, each stored at its triple.  The
    registries are not written after startup, and in every run of the
    process every socket is created before any worker does anything, and a
    socket is closed only when every worker has finished: each [Close] is on
    a socket of the registry, after every socket operation of the workers and
    after the [wg.Done()] of each of them. *)
Theorem registry_is_the_cartesian_product {W} (net : NetLib W) f w cfg reg st :
  main_startup net f {| world := w; trace := [] |} = (Ret (cfg, reg), st) ->
  (forall t,
     (t ∈ triples (length (groups cfg)) (length (ifaces cfg)) (length (ports cfg)) <->
      exists lc sc, grid_get (conns reg) t = Some (Some lc) /\
                    grid_get (senders reg) t = Some (Some sc)) /\
     (t ∉ triples (length (groups cfg)) (length (ifaces cfg)) (length (ports cfg)) ->
      grid_get (conns reg) t = None /\ grid_get (senders reg) t = None)) /\
  (created (trace st)).*1 =
    pairs_of (triples (length (groups cfg)) (length (ifaces cfg)) (length (ports cfg))) /\
  (forall k t c, (k, t, c) ∈ created (trace st) <-> reg_get k reg t = Some (Some c)) /\
  forall sched s, run cfg reg sched (init_sys cfg (trace st)) = Some s ->
    (forall i e, sys_trace s !! i = Some e -> is_creation_call e = true ->
       trace st !! i = Some e /\
       forall j e', sys_trace s !! j = Some e' -> is_worker_event e' = true -> i < j) /\
    (forall j c, sys_trace s !! j = Some (EvClose c) ->
       holds reg c /\
       Forall (fun wk => w_pc wk = WDone) (workers s) /\
       (forall i e, sys_trace s !! i = Some e -> is_worker_event e = true -> i < j) /\
       forall t, t ∈ triples (length (groups cfg)) (length (ifaces cfg)) (length (ports cfg)) ->
                 exists i, i < j /\ sys_trace s !! i = Some (EvDone t)).
Proof.
  intros Hstart. fold (cfg_triples cfg).
  destruct (main_startup_ok net f _ cfg reg st Hstart)
    as (_ & Hwf & Hreg & _ & _ & delta & Hd & _ & Hkeys & Hstored).
  simpl in Hd. subst delta.
  pose proof (startup_prefix net f w cfg reg st Hstart) as Hpre.
  split; [intros t; apply registry_ok_exact; exact Hreg|].
  split; [exact Hkeys|]. split.
  - intros k t c. split; [apply Hstored|]. intros Hget.
    assert (Ht : t ∈ cfg_triples cfg).
    { destruct (decide (t ∈ cfg_triples cfg)) as [Hin|Hout]; [exact Hin|exfalso].
      destruct (proj2 (registry_ok_exact cfg reg t Hreg) Hout) as [Hc Hs].
      unfold reg_get in Hget. destruct k; congruence. }
    apply (elem_of_pairs_of_2 k) in Ht. rewrite <- Hkeys in Ht.
    apply list_elem_of_fmap in Ht as ([[k' t'] c'] & Heq & Hin). simpl in Heq.
    injection Heq as <- <-. pose proof (Hstored _ _ _ Hin) as Hget'.
    rewrite Hget in Hget'. injection Hget' as <-. exact Hin.
  - intros sched s Hrun.
    destruct (run_trace_inv cfg reg (trace st) sched s Hwf Hreg Hrun)
      as [(Hpc & _) (delta & Htr & [T1 T2 T3 T4 T5 T6 T7 T8 T9 T10 T11 T12])].
    rewrite Htr. split.
    + intros i e Hi He.
      assert (Hi0 : trace st !! i = Some e).
      { apply (lookup_startup_part _ delta); [exact T1|exact Hi|].
        destruct e; try discriminate; reflexivity. }
      split; [exact Hi0|]. intros j e' Hj He'.
      apply lookup_run_part in Hj as [Hle _];
        [|exact Hpre|destruct e'; try discriminate; reflexivity].
      apply lookup_lt_Some in Hi0. lia.
    + intros j c Hj.
      apply lookup_run_part in Hj as [Hle Hj]; [|exact Hpre|reflexivity].
      split; [apply (closeConnections_spec cfg reg Hreg); eauto|]. split; [|split].
      * apply live_count_all_done. specialize (T3 _ _ Hj).
        destruct (mainpc s); try discriminate; tauto.
      * intros i e Hi He.
        apply lookup_run_part in Hi as [Hle' Hi];
          [|exact Hpre|destruct e; try discriminate; reflexivity].
        pose proof (T5 _ _ _ _ Hj Hi He). lia.
      * intros t Ht. destruct (T6 _ _ t Hj Ht) as (i & Hi & Hdone).
        exists (length (trace st) + i). split; [lia|].
        rewrite lookup_app_r by lia.
        replace (length (trace st) + i - length (trace st)) with i by lia. exact Hdone.
Qed.

Lemma registry_is_the_cartesian_product_witness :
  (created (trace state_abc)).*1 = pairs_of [(0, 0, 0); (0, 1, 0); (0, 2, 0)] /\
  ((KDial, (0, 2, 0), 5) ∈ created (trace state_abc) <->
   reg_get KDial registry_abc (0, 2, 0) = Some (Some 5)).
Proof.
  destruct (registry_is_the_cartesian_product (toy_net 0 0) flags_abc 0 config_abc
              registry_abc state_abc startup_state_abc) as (_ & Hcreated & Hstored & _).
  split; [exact Hcreated|apply Hstored].
Defined.

(* ================================================================== *)
(** * Flags that are blank                                             *)
(* ================================================================== *)






(* ================================================================== *)
(** * A read that fails                                                *)
(* ================================================================== *)

Lemma worker_step_frame cfg reg k a s wk :
  wf_config cfg -> registry_ok cfg reg -> state_inv cfg reg s ->
  status s = Running -> workers s !! k = Some wk -> is_finished (w_pc wk) = false ->
  exists s1, step cfg reg (AWorker k a) s = Some s1 /\
    workers s1 = <[k := (wstep cfg reg (cancelled s) a wk).1]> (workers s) /\
    sys_trace s1 = sys_trace s ++ (wstep cfg reg (cancelled s) a wk).2 /\
    mainpc s1 = mainpc s /\ handler s1 = handler s /\ cancelled s1 = cancelled s /\
    status s1 = Running.
Proof.
  intros Hwf Hreg Hinv Hrun Hk Hfin.
  destruct (step cfg reg (AWorker k a) s) as [s1|] eqn:Hstep.
  - pose proof (step_state_inv cfg reg _ s s1 Hwf Hreg Hinv Hstep) as (_ & _ & _ & _ & Hst1).
    exists s1. split; [reflexivity|].
    unfold step in Hstep. rewrite Hrun in Hstep. unfold worker_step in Hstep.
    rewrite Hk, Hfin in Hstep.
    destruct (wstep cfg reg (cancelled s) a wk) as [w' evs].
    injection Hstep as <-. cbn [workers sys_trace mainpc handler cancelled status fst snd] in *.
    repeat (split; [reflexivity|]).
    destruct Hinv as (_ & _ & _ & _ & Hst). rewrite Hrun in Hst.
    rewrite Hst1. destruct (mainpc s); try reflexivity. discriminate.
  - exfalso. unfold step in Hstep. rewrite Hrun in Hstep. unfold worker_step in Hstep.
    rewrite Hk, Hfin in Hstep.
    destruct (wstep cfg reg (cancelled s) a wk) as [w' evs]. discriminate.
Qed.

Lemma run_done_forever cfg reg k wd sched s s' :
  w_pc wd = WDone -> workers s !! k = Some wd ->
  run cfg reg sched s = Some s' -> workers s' !! k = Some wd.
Proof.
  intros Hd Hk. revert s' Hk.
  apply (run_invariant cfg reg (fun s => workers s !! k = Some wd)).
  intros a s0 s1 Hk Hstep. unfold step in Hstep.
  destruct (status s0); try discriminate. destruct a as [|sig|k' a'].
  - unfold main_step in Hstep.
    destruct (mainpc s0) as [[|t todo]|t todo| | |[|[c|] todo]| |];
      try match type of Hstep with
          | context [(?x =? 0)%Z] => destruct (x =? 0)%Z
          end; try discriminate; injection Hstep as <-; simpl; try exact Hk.
    apply lookup_app_l_Some. exact Hk.
  - unfold handler_step in Hstep.
    destruct (handler s0); try discriminate; injection Hstep as <-; exact Hk.
  - unfold worker_step in Hstep.
    destruct (workers s0 !! k') as [w|] eqn:Hk'; [|discriminate].
    destruct (is_finished (w_pc w)) eqn:Hfin; [discriminate|].
    destruct (wstep cfg reg (cancelled s0) a' w) as [w' evs].
    injection Hstep as <-. simpl.
    destruct (decide (k' = k)) as [->|Hne].
    + rewrite Hk in Hk'. injection Hk' as <-. rewrite Hd in Hfin. discriminate.
    + rewrite list_lookup_insert_ne by exact Hne. exact Hk.
Qed.

Lemma live_worker_runs cfg reg s k wk :
  state_inv cfg reg s -> workers s !! k = Some wk -> is_done (w_pc wk) = false ->
  status s = Running /\ after_wait (mainpc s) = false /\ is_finished (w_pc wk) = false.
Proof.
  intros (Hpc & _ & Hws & _ & Hst) Hk Hnd.
  assert (Hafter : after_wait (mainpc s) = false).
  { destruct (mainpc s); try reflexivity; exfalso;
      [destruct Hpc as (_ & _ & Hz & _)|destruct Hpc as (_ & _ & Hz)|destruct Hpc as (_ & _ & Hz)];
      pose proof (live_count_zero _ k wk Hz Hk) as Hd; rewrite Hd in Hnd; discriminate. }
  split; [|split; [exact Hafter|]].
  - rewrite Hst. destruct (mainpc s); try reflexivity. discriminate.
  - destruct (Forall_lookup_1 _ _ _ _ Hws Hk) as [_ Hnp].
    destruct (w_pc wk); try reflexivity; [discriminate|contradiction].
Qed.

Lemma run_preserves_state_inv cfg reg sched s s' :
  wf_config cfg -> registry_ok cfg reg -> state_inv cfg reg s ->
  run cfg reg sched s = Some s' -> state_inv cfg reg s'.
Proof.
  intros Hwf Hreg. apply (run_invariant cfg reg (state_inv cfg reg)).
  intros a s0 s1. apply step_state_inv; assumption.
Qed.

Lemma worker_moves cfg reg k a s wk pc' evs :
  wf_config cfg -> registry_ok cfg reg -> state_inv cfg reg s ->
  status s = Running -> workers s !! k = Some wk -> is_finished (w_pc wk) = false ->
  wstep cfg reg (cancelled s) a wk = (at_pc wk pc', evs) ->
  exists s1, step cfg reg (AWorker k a) s = Some s1 /\
    state_inv cfg reg s1 /\
    workers s1 = <[k := at_pc wk pc']> (workers s) /\
    workers s1 !! k = Some (at_pc wk pc') /\
    sys_trace s1 = sys_trace s ++ evs /\
    mainpc s1 = mainpc s /\ handler s1 = handler s /\ cancelled s1 = cancelled s /\
    status s1 = Running.
Proof.
  intros Hwf Hreg Hinv Hrun Hk Hfin Hstep.
  destruct (worker_step_frame cfg reg k a s wk Hwf Hreg Hinv Hrun Hk Hfin)
    as (s1 & Hs1 & Hws & Htr & Hrest).
  rewrite Hstep in Hws, Htr. simpl in Hws, Htr.
  exists s1. split; [exact Hs1|].
  split; [eapply step_state_inv; eassumption|]. split; [exact Hws|].
  split; [|split; [exact Htr|exact Hrest]].
  rewrite Hws. apply list_lookup_insert_eq. apply lookup_lt_Some in Hk. exact Hk.
Qed.

(** C4, as amended. A read error that is not a timeout is logged with the
    group, the interface and the port of the worker's triple and ends that
    worker for good: it calls [wg.Done()], never takes another step, and the
    read is not tried again.  Nothing else is touched: the other workers, the
    context and [main] are as they were; every worker that has not returned
    can go on, and as long as one of them is left the process is running and
    no socket has been closed.  When none is left, [main] does not wait for a
    shutdown: [wg.Wait()] returns, the sockets are closed and the process
    exits with status 0.  A read that times out is not logged and brings the
    worker back to the [select], where it returns if the context is
    cancelled and otherwise sets a new deadline and reads again. *)
Theorem read_error_ends_only_its_worker {W} (net : NetLib W) f (w0 : W) cfg reg st sched s
    k wk g i p a err :
  main_startup net f {| world := w0; trace := [] |} = (Ret (cfg, reg), st) ->
  run cfg reg sched (init_sys cfg (trace st)) = Some s ->
  workers s !! k = Some wk -> w_triple wk = (g, i, p) -> w_pc wk = WRead ->
  ans_read a = ReadErr err ->
  exists lc group ifName port,
    w_lconn wk = Some lc /\
    groups cfg !! g = Some group /\ ifaces cfg !! i = Some ifName /\
    ports cfg !! p = Some port /\
    (err_isOpError err && err_timeout err = false ->
     forall a', exists s2,
       run cfg reg [AWorker k a; AWorker k a'] s = Some s2 /\
       sys_trace s2 =
         sys_trace s ++ [EvRead (g, i, p) (Some lc) (ReadErr err);
                         EvLog (ReadError group ifName port err);
                         EvDone (g, i, p)] /\
       workers s2 = <[k := at_pc wk WDone]> (workers s) /\
       mainpc s2 = mainpc s /\ handler s2 = handler s /\ cancelled s2 = cancelled s /\
       status s2 = Running /\
       forall sched' s3, run cfg reg sched' s2 = Some s3 ->
         workers s3 !! k = Some (at_pc wk WDone) /\
         (forall a'', step cfg reg (AWorker k a'') s3 = None) /\
         (forall k' wk', workers s3 !! k' = Some wk' -> is_done (w_pc wk') = false ->
            status s3 = Running /\ after_wait (mainpc s3) = false /\
            forall a'', exists s4, step cfg reg (AWorker k' a'') s3 = Some s4) /\
         (live_count (workers s3) = 0 -> mainpc s3 = MWait ->
            exists s4,
              run cfg reg (replicate (length (closeConnections reg) + 3) AMain) s3 = Some s4 /\
              status s4 = Exited 0 /\ cancelled s4 = cancelled s3)) /\
    (err_isOpError err && err_timeout err = true ->
     exists s1,
       step cfg reg (AWorker k a) s = Some s1 /\
       sys_trace s1 = sys_trace s ++ [EvRead (g, i, p) (Some lc) (ReadErr err)] /\
       workers s1 = <[k := at_pc wk WSelect]> (workers s) /\
       cancelled s1 = cancelled s /\ status s1 = Running /\
       forall a1 a2,
         if cancelled s
         then exists s2, step cfg reg (AWorker k a1) s1 = Some s2 /\
                         workers s2 !! k = Some (at_pc wk WReturn)
         else exists s3, run cfg reg [AWorker k a1; AWorker k a2] s1 = Some s3 /\
                         workers s3 !! k = Some (at_pc wk WRead) /\
                         sys_trace s3 = sys_trace s1 ++ [EvSetReadDeadline (g, i, p) (Some lc)]).
Proof.
  intros Hstart Hrun Hk Ht Hpc Hread.
  destruct (reachable_inv net f _ cfg reg st sched s Hstart Hrun) as (Hwf & Hreg & Hinv & _).
  pose proof Hinv as (_ & _ & Hws & _).
  destruct (Forall_lookup_1 _ _ _ _ Hws Hk) as [Hwinv _].
  destruct (worker_inv_lconn cfg reg wk Hreg Hwinv) as [lc Hlc];
    [rewrite Hpc; reflexivity|rewrite Hpc; discriminate|].
  pose proof Hwinv as [_ Hloc]. rewrite Hpc, Ht in Hloc.
  destruct Hloc as (_ & Hgrp & Hport & Hif & _).
  destruct (live_worker_runs cfg reg s k wk Hinv Hk) as (Hst & _ & Hfin);
    [rewrite Hpc; reflexivity|].
  exists lc, (w_group wk), (w_ifaceName wk), (w_port wk).
  repeat (split; [assumption|]). split.
  - (* not a timeout *)
    intros Herr a'.
    destruct (worker_moves cfg reg k a s wk WReturn
                [EvRead (g, i, p) (Some lc) (ReadErr err);
                 EvLog (ReadError (w_group wk) (w_ifaceName wk) (w_port wk) err)]
                Hwf Hreg Hinv Hst Hk Hfin)
      as (s1 & Hs1 & Hinv1 & Hws1 & Hk1 & Htr1 & Hm1 & Hh1 & Hc1 & Hst1).
    { unfold wstep. rewrite Ht, Hpc, Hlc, Hread, Herr. reflexivity. }
    destruct (worker_moves cfg reg k a' s1 (at_pc wk WReturn) WDone [EvDone (g, i, p)]
                Hwf Hreg Hinv1 Hst1 Hk1 eq_refl)
      as (s2 & Hs2 & Hinv2 & Hws2 & Hk2 & Htr2 & Hm2 & Hh2 & Hc2 & Hst2).
    { unfold wstep. cbn [w_triple w_pc at_pc]. rewrite Ht. reflexivity. }
    rewrite at_pc_at_pc in Hws2, Hk2.
    exists s2. split; [simpl; rewrite Hs1, Hs2; reflexivity|].
    split; [rewrite Htr2, Htr1, <- app_assoc; reflexivity|].
    split; [rewrite Hws2, Hws1; apply list_insert_insert_eq|].
    split; [congruence|]. split; [congruence|]. split; [congruence|].
    split; [exact Hst2|].
    intros sched' s3 Hrun3.
    pose proof (run_preserves_state_inv cfg reg sched' s2 s3 Hwf Hreg Hinv2 Hrun3) as Hinv3.
    pose proof (run_done_forever cfg reg k (at_pc wk WDone) sched' s2 s3 eq_refl Hk2 Hrun3)
      as Hk3.
    split; [exact Hk3|]. split; [|split].
    + intros a''. unfold step. destruct (status s3); try reflexivity.
      unfold worker_step. rewrite Hk3. reflexivity.
    + intros k' wk' Hk' Hnd.
      destruct (live_worker_runs cfg reg s3 k' wk' Hinv3 Hk' Hnd) as (Hst3 & Hafter & Hfin').
      split; [exact Hst3|]. split; [exact Hafter|]. intros a''.
      destruct (worker_step_frame cfg reg k' a'' s3 wk' Hwf Hreg Hinv3 Hst3 Hk' Hfin')
        as (s4 & Hs4 & _). eauto.
    + intros Hz Hw.
      destruct (wait_runs_to_exit cfg reg s3 Hreg Hinv3 Hw Hz) as (s4 & H4 & Hst4 & Hc4 & _).
      eauto.
  - (* a timeout *)
    intros Herr.
    destruct (worker_moves cfg reg k a s wk WSelect
                [EvRead (g, i, p) (Some lc) (ReadErr err)]
                Hwf Hreg Hinv Hst Hk Hfin)
      as (s1 & Hs1 & Hinv1 & Hws1 & Hk1 & Htr1 & Hm1 & Hh1 & Hc1 & Hst1).
    { unfold wstep. rewrite Ht, Hpc, Hlc, Hread, Herr. reflexivity. }
    exists s1. repeat (split; [assumption|]). intros a1 a2.
    destruct (cancelled s) eqn:Hcan.
    + destruct (worker_moves cfg reg k a1 s1 (at_pc wk WSelect) WReturn
                  (if verbose cfg
                   then [EvLog (GoroutineExiting (w_group wk) (w_ifaceName wk) (w_port wk))]
                   else [])
                  Hwf Hreg Hinv1 Hst1 Hk1 eq_refl)
        as (s2 & Hs2 & _ & _ & Hk2 & _).
      { unfold wstep. cbn [w_triple w_pc at_pc w_group w_ifaceName w_port]. rewrite Ht, Hc1.
        reflexivity. }
      exists s2. split; [exact Hs2|exact Hk2].
    + destruct (worker_moves cfg reg k a1 s1 (at_pc wk WSelect) WSetDeadline []
                  Hwf Hreg Hinv1 Hst1 Hk1 eq_refl)
        as (s2 & Hs2 & Hinv2 & _ & Hk2 & Htr2 & _ & _ & Hc2 & Hst2).
      { unfold wstep. cbn [w_triple w_pc at_pc]. rewrite Ht, Hc1. reflexivity. }
      rewrite at_pc_at_pc in Hk2.
      destruct (worker_moves cfg reg k a2 s2 (at_pc wk WSetDeadline) WRead
                  [EvSetReadDeadline (g, i, p) (Some lc)]
                  Hwf Hreg Hinv2 Hst2 Hk2 eq_refl)
        as (s3 & Hs3 & _ & _ & Hk3 & Htr3 & _).
      { unfold wstep. cbn [w_triple w_pc w_lconn at_pc]. rewrite Ht, Hlc. reflexivity. }
      rewrite at_pc_at_pc in Hk3.
      exists s3. split; [simpl; rewrite Hs2, Hs3; reflexivity|]. split; [exact Hk3|].
      rewrite Htr3, Htr2, app_nil_r. reflexivity.
Qed.

Lemma read_error_ends_only_its_worker_witness :
  exists s s2,
    run_abc reading_abc = Some s /\
    run config_abc registry_abc [AWorker 0 no_error_answer; AWorker 0 no_error_answer] s
      = Some s2 /\
    status s2 = Running /\
    exists lc,
      sys_trace s2 =
        sys_trace s ++ [EvRead (0, 0, 0) (Some lc) (ReadErr EINVAL);
                        EvLog (ReadError (runes "239.255.255.250") (runes "A") 1900 EINVAL);
                        EvDone (0, 0, 0)].
Proof.
  assert (Hh : option_map (fun s => (fun wk => (w_triple wk, w_pc wk)) <$> workers s !! 0)
                 (run_abc reading_abc) = Some (Some ((0, 0, 0), WRead)))
    by (vm_compute; reflexivity).
  abc_state reading_abc s H. simpl in Hh. injection Hh as Hh.
  destruct (workers s !! 0) as [wk|] eqn:Hk; [|discriminate Hh].
  simpl in Hh. injection Hh as Ht Hpc.
  destruct (read_error_ends_only_its_worker (toy_net 0 0) flags_abc 0 config_abc registry_abc
              state_abc reading_abc s 0 wk 0 0 0 no_error_answer EINVAL
              startup_state_abc H Hk Ht Hpc eq_refl)
    as (lc & group & ifName & port & _ & Hg & Hi & Hp & Herr & _).
  destruct (Herr eq_refl no_error_answer) as (s2 & Hrun2 & Htr & _ & _ & _ & _ & Hst & _).
  exists s, s2. split; [reflexivity|]. split; [exact Hrun2|]. split; [exact Hst|].
  exists lc. rewrite Htr.
  assert (Hg' : groups config_abc !! 0 = Some (runes "239.255.255.250")) by reflexivity.
  assert (Hi' : ifaces config_abc !! 0 = Some (runes "A")) by reflexivity.
  assert (Hp' : ports config_abc !! 0 = Some 1900%Z) by reflexivity.
  rewrite Hg' in Hg. rewrite Hi' in Hi. rewrite Hp' in Hp.
  injection Hg as <-. injection Hi as <-. injection Hp as <-. reflexivity.
Defined.

(** C4, the claim as stated fails. With a single interface there is one
    worker.  Its first read fails with an error that is not a timeout; the
    worker logs it and returns, [wg.Wait()] returns, [main] closes the two
    sockets, prints its last line and returns: the process is over with exit
    status 0, although no signal was delivered, the context is not cancelled
    and the signal handler is still waiting. *)
Lemma lone_worker_read_error_ends_process :
  main_startup (toy_net 0 0) flags_one {| world := 0; trace := [] |} =
    (Ret (config_one, registry_one), state_one) /\
  option_map (fun s => (status s, cancelled s, handler s, sys_trace s))
    (run config_one registry_one lone_read_error (init_sys config_one (trace state_one))) =
  Some (Exited 0, false, HWaiting,
        trace state_one ++
        [EvSetReadDeadline (0, 0, 0) (Some 0);
         EvRead (0, 0, 0) (Some 0) (ReadErr EINVAL);
         EvLog (ReadError (runes "239.255.255.250") (runes "A") 1900 EINVAL);
         EvDone (0, 0, 0); EvClose 0; EvClose 1; EvLog AllDone]).
Proof. split; vm_compute; reflexivity. Qed.

(* ================================================================== *)
(** * From the signal to the exit                                      *)
(* ================================================================== *)

Lemma handler_cancels cfg reg s sig :
  status s = Running -> (exists sig0, handler s = HLog sig0) \/ handler s = HCancel ->
  exists n s', n <= 2 /\ run cfg reg (replicate n (AHandler sig)) s = Some s' /\
               cancelled s' = true /\ last (sys_trace s') = Some EvCancel.
Proof.
  intros Hrun [[sig0 Hh]|Hh].
  - exists 2. eexists. split; [lia|]. simpl. unfold step, handler_step.
    rewrite Hrun, Hh. simpl.
    split; [reflexivity|]. split; [reflexivity|]. simpl. apply last_snoc.
  - exists 1. eexists. split; [lia|]. simpl. unfold step, handler_step.
    rewrite Hrun, Hh. simpl.
    split; [reflexivity|]. split; [reflexivity|]. simpl. apply last_snoc.
Qed.

(** C2, as amended. Once the handler has taken a signal it is never blocked:
    unless [main] returns first, which it does only when every worker has
    already finished, at most two steps of the handler (the log line and
    [cancel()]) cancel the context; [cancel()] is never called before a
    signal.  Once the context is cancelled the process is over after a
    bounded number of steps, under every schedule and whatever the network
    answers; until it is over some goroutine can always move, and when it is
    over every worker has finished.  A socket is closed only when every worker
    has finished: each [Close] comes after every socket operation of every
    worker and after the [wg.Done()] of each of them.  The line All done is
    printed only after every socket of the registry has been closed, and the
    process exits only after that line. *)
Theorem shutdown_is_orderly {W} (net : NetLib W) f (w : W) cfg reg st sched s :
  main_startup net f {| world := w; trace := [] |} = (Ret (cfg, reg), st) ->
  run cfg reg sched (init_sys cfg (trace st)) = Some s ->
  (forall i sig, sys_trace s !! i = Some (EvSignal sig) ->
     (cancelled s = true /\ EvCancel ∈ sys_trace s) \/
     (status s = Exited 0 /\ Forall (fun wk => w_pc wk = WDone) (workers s)) \/
     exists n s', n <= 2 /\ run cfg reg (replicate n (AHandler sig)) s = Some s' /\
                  cancelled s' = true /\ last (sys_trace s') = Some EvCancel) /\
  (forall j, sys_trace s !! j = Some EvCancel ->
     exists i sig, i < j /\ sys_trace s !! i = Some (EvSignal sig)) /\
  (cancelled s = true ->
     forall sched' s', run cfg reg sched' s = Some s' ->
       length sched' <= fuel cfg reg s /\
       (status s' = Exited 0 \/ exists a s'', step cfg reg a s' = Some s'') /\
       (status s' = Exited 0 -> Forall (fun wk => w_pc wk = WDone) (workers s'))) /\
  (forall j c, sys_trace s !! j = Some (EvClose c) ->
     holds reg c /\
     Forall (fun wk => w_pc wk = WDone) (workers s) /\
     (forall i e, sys_trace s !! i = Some e -> is_worker_event e = true -> i < j) /\
     forall t, t ∈ cfg_triples cfg -> exists i, i < j /\ sys_trace s !! i = Some (EvDone t)) /\
  (forall j, sys_trace s !! j = Some (EvLog AllDone) ->
     (forall i c, sys_trace s !! i = Some (EvClose c) -> i < j) /\
     forall c, holds reg c -> exists i, i < j /\ sys_trace s !! i = Some (EvClose c)) /\
  (status s <> Running -> status s = Exited 0 /\ EvLog AllDone ∈ sys_trace s).
Proof.
  intros Hstart Hrun.
  destruct (reachable_inv net f _ cfg reg st sched s Hstart Hrun)
    as (Hwf & Hreg & Hinv & delta & Htr & [T1 T2 T3 T4 T5 T6 T7 T8 T9 T10 T11 T12]).
  pose proof Hinv as (Hpc & Hwg & Hws & Hcn & Hst).
  pose proof (startup_prefix net f w cfg reg st Hstart) as Hpre.
  assert (Hshift : forall i e, delta !! i = Some e ->
                     sys_trace s !! (length (trace st) + i) = Some e).
  { intros i e Hi. rewrite Htr, lookup_app_r by lia.
    replace (length (trace st) + i - length (trace st)) with i by lia. exact Hi. }
  assert (Hin : forall e, e ∈ delta -> e ∈ sys_trace s).
  { intros e He. rewrite Htr. apply elem_of_app. right. exact He. }
  assert (Hdone : forall s0, state_inv cfg reg s0 -> after_wait (mainpc s0) = true ->
                  Forall (fun wk => w_pc wk = WDone) (workers s0)).
  { intros s0 (Hpc0 & _) Ha. apply live_count_all_done.
    destruct (mainpc s0); try discriminate; tauto. }
  assert (Hover : forall s0, state_inv cfg reg s0 ->
                    status s0 = Running \/ (status s0 = Exited 0 /\ mainpc s0 = MReturned)).
  { intros s0 (_ & _ & _ & _ & Hst0). rewrite Hst0.
    destruct (mainpc s0); auto. }
  split; [|split; [|split; [|split; [|split]]]].
  - (* the signal *)
    intros i sig Hi. rewrite Htr in Hi.
    apply lookup_run_part in Hi as [Hle Hi]; [|exact Hpre|reflexivity].
    pose proof (T8 _ _ Hi) as Hlive.
    destruct (Hover s Hinv) as [Hrunning|[Hexit Hm]].
    + destruct (handler s) as [| |sig'| |] eqn:Hh; try discriminate Hlive.
      * right. right. apply handler_cancels; [exact Hrunning|]. left. eauto.
      * right. right. apply handler_cancels; [exact Hrunning|]. right. exact Hh.
      * left. split; [apply Hcn; reflexivity|]. apply Hin. exact T9.
    + right. left. split; [exact Hexit|]. apply Hdone; [exact Hinv|]. rewrite Hm. reflexivity.
  - (* cancel() *)
    intros j Hj. rewrite Htr in Hj.
    apply lookup_run_part in Hj as [Hle Hj]; [|exact Hpre|reflexivity].
    destruct (T10 _ Hj) as (_ & i & sig & Hi & Hs).
    exists (length (trace st) + i), sig. split; [lia|]. apply Hshift. exact Hs.
  - (* the workers *)
    intros Hc sched' s' Hrun'.
    destruct (run_fuel cfg reg Hwf Hreg sched' s s' Hinv Hc Hrun') as [Hle _].
    pose proof (run_preserves_state_inv cfg reg sched' s s' Hwf Hreg Hinv Hrun') as Hinv'.
    split; [lia|]. split.
    + destruct (step_progress cfg reg s' Hinv' Hreg)
        as [H|[(k & a & s'' & H)|(_ & s'' & H)]]; eauto.
    + intros Hexit. apply Hdone; [exact Hinv'|].
      destruct Hinv' as (_ & _ & _ & _ & Hst'). rewrite Hst' in Hexit.
      destruct (mainpc s'); try discriminate. reflexivity.
  - (* the sockets *)
    intros j c Hj. rewrite Htr in Hj.
    apply lookup_run_part in Hj as [Hle Hj]; [|exact Hpre|reflexivity].
    split; [apply (closeConnections_spec cfg reg Hreg); eauto|]. split; [|split].
    + apply Hdone; [exact Hinv|]. exact (T3 _ _ Hj).
    + intros i e Hi He. rewrite Htr in Hi.
      apply lookup_run_part in Hi as [Hle' Hi];
        [|exact Hpre|destruct e; try discriminate; reflexivity].
      pose proof (T5 _ _ _ _ Hj Hi He). lia.
    + intros t Ht. destruct (T6 _ _ t Hj Ht) as (i & Hi & Hd).
      exists (length (trace st) + i). split; [lia|]. apply Hshift. exact Hd.
  - (* the end *)
    intros j Hj. rewrite Htr in Hj.
    apply lookup_run_part in Hj as [Hle Hj]; [|exact Hpre|reflexivity].
    destruct (T11 _ Hj) as [Hprint Hafter].
    assert (Hbefore : forall i c, delta !! i = Some (EvClose c) -> i < j - length (trace st)).
    { intros i c Hi.
      destruct (Nat.lt_trichotomy i (j - length (trace st))) as [Hlt|[->|Hgt]]; [exact Hlt| |].
      - rewrite Hj in Hi. discriminate Hi.
      - specialize (Hafter i _ Hi Hgt). discriminate Hafter. }
    split.
    + intros i c Hi. rewrite Htr in Hi.
      apply lookup_run_part in Hi as [Hle' Hi]; [|exact Hpre|reflexivity].
      pose proof (Hbefore _ _ Hi). lia.
    + intros c Hc. apply (closeConnections_spec cfg reg Hreg) in Hc.
      specialize (T7 c Hc).
      assert (Hclosed : EvClose c ∈ delta).
      { destruct (mainpc s); try discriminate Hprint; exact T7. }
      apply list_elem_of_lookup in Hclosed as [i Hi].
      exists (length (trace st) + i). split; [|apply Hshift; exact Hi].
      pose proof (Hbefore _ _ Hi). lia.
  - (* the exit *)
    intros Hend. destruct (Hover s Hinv) as [Hrunning|[Hexit Hm]]; [contradiction|].
    split; [exact Hexit|]. apply Hin, T12. rewrite Hm. reflexivity.
Qed.

Lemma shutdown_is_orderly_witness :
  exists s, run_abc lifecycle_abc = Some s /\
            cancelled s = true /\
            Forall (fun wk => w_pc wk = WDone) (workers s) /\
            (forall i c, sys_trace s !! i = Some (EvClose c) -> i < 24) /\
            exists i, i < 24 /\ sys_trace s !! i = Some (EvClose 5).
Proof.
  assert (Hh : option_map (fun s => (cancelled s, status s, sys_trace s !! 24))
                 (run_abc lifecycle_abc) = Some (true, Exited 0, Some (EvLog AllDone)))
    by (vm_compute; reflexivity).
  abc_state lifecycle_abc s H. exists s. split; [reflexivity|].
  simpl in Hh. injection Hh as Hc Hst Hj. split; [exact Hc|].
  destruct (shutdown_is_orderly (toy_net 0 0) flags_abc 0 config_abc registry_abc state_abc
              lifecycle_abc s startup_state_abc H)
    as (_ & _ & Hworkers & _ & Hend & _).
  destruct (Hworkers Hc [] s eq_refl) as (_ & _ & Hdone).
  split; [exact (Hdone Hst)|].
  destruct (Hend 24 Hj) as [Hbefore Hall].
  split; [exact Hbefore|]. apply Hall. exists KDial, (0, 2, 0). reflexivity.
Defined.

(** C2, the claim as stated fails. Every read fails, so the workers return
    on their own, [main] closes the sockets and prints its last line; SIGINT
    arrives only then.  The handler takes it, and [main] returns before the
    handler has done anything else: the process is over with a signal
    received, and the cancellation was never signalled. *)
Lemma late_signal_is_not_followed_by_cancel :
  main_startup (toy_net 0 0) flags_abc {| world := 0; trace := [] |} =
    (Ret (config_abc, registry_abc), state_abc) /\
  option_map (fun s => (status s, cancelled s, handler s,
                        drop (length (trace state_abc)) (sys_trace s)))
    (run_abc late_signal_abc) =
  Some (Exited 0, false, HLog SIGINT,
        [EvSetReadDeadline (0, 0, 0) (Some 0);
         EvRead (0, 0, 0) (Some 0) (ReadErr EINVAL);
         EvLog (ReadError (runes "239.255.255.250") (runes "A") 1900 EINVAL);
         EvDone (0, 0, 0);
         EvSetReadDeadline (0, 1, 0) (Some 2);
         EvRead (0, 1, 0) (Some 2) (ReadErr EINVAL);
         EvLog (ReadError (runes "239.255.255.250") (runes "B") 1900 EINVAL);
         EvDone (0, 1, 0);
         EvSetReadDeadline (0, 2, 0) (Some 4);
         EvRead (0, 2, 0) (Some 4) (ReadErr EINVAL);
         EvLog (ReadError (runes "239.255.255.250") (runes "C") 1900 EINVAL);
         EvDone (0, 2, 0);
         EvClose 0; EvClose 1; EvClose 2; EvClose 3; EvClose 4; EvClose 5;
         EvLog AllDone; EvSignal SIGINT]).
Proof. split; [exact startup_abc|vm_compute; reflexivity]. Qed.
